(** * Fast linear combinations: a shallow embedding of [multicombs.py]

    The Python module computes many subset sums of a list of group elements
    ([multisubset], [multisubset2]) and reduces a linear combination with
    integer factors to such a problem ([lincomb]).  The group is abstract: a
    carrier [V], a binary [adder] and an identity [zero].

    Modelling choices, all local to this file:
    - Python exceptions are the constructors of [exn]; a computation that may
      raise lives in [result].
    - A Python [set] of indices is a duplicate-free [list nat]; iterating the
      set walks the list.  Python does not fix the iteration order of a
      set; the model takes the order of first occurrence, and the general
      theorems are about sums under a commutative, associative [adder].
    - A Python [dict] is an association list in insertion order.
    - Indices are natural numbers (positions); Python's negative indexing is
      outside the model. *)

From Stdlib Require Import ZArith Lia Ascii.

From stdpp Require Import base list numbers strings pretty.

Open Scope nat_scope.

#[local] Set Warnings "-clear-no-such-hyp".

(** ** Exceptions and the error monad *)

Inductive exn := IndexError | ValueError | TypeError.

Inductive result (A : Type) :=
| Return (a : A)
| Raise (e : exn).
Arguments Return {A} a.
Arguments Raise {A} e.

#[global] Instance result_ret : MRet result := λ A a, Return a.
#[global] Instance result_bind : MBind result :=
  λ A B f m, match m with Return a => f a | Raise e => Raise e end.

(** [for x in l: acc = f(acc, x)] where the body may raise. *)
Fixpoint foldlM {A B} (f : A → B → result A) (a : A) (l : list B) : result A :=
  match l with
  | [] => Return a
  | x :: l => a' ← f a x; foldlM f a' l
  end.

(** [l[i]] and [l[i] = v] on a Python list, out of range raises. *)
Definition getitem {A} (l : list A) (i : nat) : result A :=
  match l !! i with
  | Some x => Return x
  | None => Raise IndexError
  end.

Definition setitem {A} (l : list A) (i : nat) (v : A) : result (list A) :=
  if bool_decide (i < length l) then Return (<[i:=v]> l) else Raise IndexError.

(** [l[-1]] *)
Definition getlast {A} (l : list A) : result A :=
  match list.last l with
  | Some x => Return x
  | None => Raise IndexError
  end.

(** ** Sets of indices *)

Definition set_add (x : nat) (s : list nat) : list nat :=
  if bool_decide (x ∈ s) then s else s ++ [x].

(** [s.remove(x)]; every call site guards it with [x in s]. *)
Definition set_remove (x : nat) (s : list nat) : list nat :=
  filter (λ y, y ≠ x) s.

(** [{x for x in subset}] *)
Definition set_of (l : list nat) : list nat :=
  foldl (λ s x, set_add x s) [] l.

(** ** [int(math.log(n))] for [n >= 1]

    [math.log] is a floating point function.  Its truncation to an integer
    is the number of powers [e^k], [k >= 1], that are at most [n]; as [e^k]
    is never an integer this is the number of entries of the table of
    [ceil(e^k)] that are at most [n].  The table covers every length below
    [e^44 > 2^63].  The general theorems below use of the truncation only
    that it is a natural number and that [math.log(0)] raises; its value
    matters where a scenario is evaluated. *)

Definition exp_ceilings : list Z :=
  [3; 8; 21; 55; 149; 404; 1097; 2981; 8104; 22027; 59875; 162755; 442414;
   1202605; 3269018; 8886111; 24154953; 65659970; 178482301; 485165196;
   1318815735; 3584912847; 9744803447; 26489122130; 72004899338;
   195729609429; 532048240602; 1446257064292; 3931334297145; 10686474581525;
   29048849665248; 78962960182681; 214643579785917; 583461742527455;
   1586013452313431; 4311231547115196; 11719142372802612; 31855931757113757;
   86593400423993747; 235385266837019986; 639843493530054950;
   1739274941520501048; 4727839468229346562; 12851600114359308276]%Z.

Definition int_log (n : nat) : nat :=
  length (filter (λ c, (c ≤ Z.of_nat n)%Z) exp_ceilings).

(** [int(math.log(n))]: [math.log(0)] raises "math domain error". *)
Definition int_math_log (n : nat) : result nat :=
  if bool_decide (n = 0) then Raise ValueError else Return (int_log n).

(** ** [bin(f)]: the binary literal of a Python integer *)

Fixpoint bin_digits (p : positive) : String.string :=
  match p with
  | xH => "1"
  | xO p => String.append (bin_digits p) "0"
  | xI p => String.append (bin_digits p) "1"
  end%string.

Definition bin (f : Z) : String.string :=
  match f with
  | Z0 => "0b0"
  | Zpos p => String.append "0b" (bin_digits p)
  | Zneg p => String.append "-0b" (bin_digits p)
  end%string.

(** ** Bounded loops with early exit

    [for _ in range(p): body] where the body either returns from the
    function ([inl]) or falls to the next iteration ([inr]).  The bound is
    binary, so a bound such as 9999999 costs nothing until it is reached. *)

Section Loop.
Context {S R : Type} (body : S → result (R + S)).

Definition continue (r : result (R + S)) (k : S → result (R + S)) : result (R + S) :=
  match r with
  | Return (inr s) => k s
  | _ => r
  end.

Fixpoint for_range (p : positive) (s : S) : result (R + S) :=
  match p with
  | xH => body s
  | xO p => continue (for_range p s) (for_range p)
  | xI p => continue (body s) (λ s, continue (for_range p s) (for_range p))
  end.

Fixpoint for_range_nat (n : nat) (s : S) : result (R + S) :=
  match n with
  | 0 => Return (inr s)
  | Datatypes.S n => continue (body s) (for_range_nat n)
  end.
End Loop.

(** ** The greedy pairwise solver, [multisubset] *)

Section Solvers.
Context {V : Type} (adder : V → V → V) (zero : V).

(** The three objects the rounds of [multisubset] work on. *)
Record state := State {
  numbers : list V;
  subsets : list (nat * list nat);
  output : list V
}.

(** [pair_count[p] = pair_count.get(p, 0) + 1] *)
Fixpoint bump (p : nat * nat) (pair_count : list ((nat * nat) * nat))
  : list ((nat * nat) * nat) :=
  match pair_count with
  | [] => [(p, 1)]
  | (q, c) :: rest =>
      if bool_decide (p = q) then (q, c + 1) :: rest else (q, c) :: bump p rest
  end.

Definition count_pairs (subsets : list (nat * list nat)) : list ((nat * nat) * nat) :=
  foldl (λ pc ks,
    foldl (λ pc x,
      foldl (λ pc y, if bool_decide (x < y) then bump (x, y) pc else pc)
            pc ks.2)
          pc ks.2)
        [] subsets.

(** [sorted(..., key=count, reverse=True)]: stable, larger counts first. *)
Fixpoint insert_by_count (e : (nat * nat) * nat) (l : list ((nat * nat) * nat))
  : list ((nat * nat) * nat) :=
  match l with
  | [] => [e]
  | h :: t => if bool_decide (e.2 < h.2) then h :: insert_by_count e t else e :: h :: t
  end.

Definition sorted_by_count (l : list ((nat * nat) * nat)) : list ((nat * nat) * nat) :=
  foldr insert_by_count [] l.

Definition pairs_by_count (numbers : list V) (subsets : list (nat * list nat))
  : result (list (nat * nat)) :=
  let ranked := (sorted_by_count (count_pairs subsets)).*1 in
  lg ← int_math_log (length numbers);
  Return (take (length numbers * lg) ranked).

(** The exit branch: fold what is left of every subset into [output]. *)
Definition finish (numbers : list V) (subsets : list (nat * list nat))
    (output : list V) : result (list V) :=
  foldlM (λ out ks,
    foldlM (λ out index,
      a ← getitem out ks.1;
      b ← getitem numbers index;
      setitem out ks.1 (adder a b))
    out ks.2)
  output subsets.

(** The loop over [list(subsets.items())] after a pair was merged. *)
Fixpoint rewrite_subsets (maxx maxy : nat) (numbers : list V)
    (subsets : list (nat * list nat)) (output : list V)
  : result (list (nat * list nat) * list V) :=
  match subsets with
  | [] => Return ([], output)
  | (key, subset) :: rest =>
      if bool_decide (maxx ∈ subset) && bool_decide (maxy ∈ subset) then
        let subset := set_remove maxy (set_remove maxx subset) in
        if bool_decide (subset = []) then
          v ← getlast numbers;
          output ← setitem output key v;
          rewrite_subsets maxx maxy numbers rest output
        else
          r ← rewrite_subsets maxx maxy numbers rest output;
          Return ((key, set_add (length numbers - 1) subset) :: r.1, r.2)
      else
        r ← rewrite_subsets maxx maxy numbers rest output;
        Return ((key, subset) :: r.1, r.2)
  end.

(** One iteration of [for maxx, maxy in pairs_by_count]. *)
Definition merge_pair (su : state * list nat) (p : nat * nat)
  : result (state * list nat) :=
  let (st, used) := su in
  if bool_decide (p.1 ∈ used) || bool_decide (p.2 ∈ used) then Return (st, used)
  else
    let used := set_add p.2 (set_add p.1 used) in
    a ← getitem (numbers st) p.1;
    b ← getitem (numbers st) p.2;
    let numbers := numbers st ++ [adder a b] in
    r ← rewrite_subsets p.1 p.2 numbers (subsets st) (output st);
    Return (State numbers r.1 r.2, used).

(** The body of [for roundcount in range(9999999)]. *)
Definition round (st : state) : result (list V + state) :=
  pairs ← pairs_by_count (numbers st) (subsets st);
  if bool_decide (length pairs = 0) then
    out ← finish (numbers st) (subsets st) (output st);
    Return (inl out)
  else
    su ← foldlM merge_pair (st, []) pairs;
    Return (inr su.1).

Definition init (numbers : list V) (subsets : list (list nat)) : state :=
  State numbers
        (imap (λ i subset, (i, set_of subset)) subsets)
        (replicate (length subsets) zero).

Definition round_cap : positive := 9999999.

(** A Python function whose loop runs out returns [None]. *)
Definition multisubset (numbers : list V) (subsets : list (list nat))
  : result (option (list V)) :=
  r ← for_range round round_cap (init numbers subsets);
  match r with
  | inl out => Return (Some out)
  | inr _ => Return None
  end.

(** ** The partitioned power-set solver, [multisubset2] *)

(** [while len(numbers) % partition_size != 0: numbers.append(zero)].
    The loop runs fewer than [partition_size] times, which is the fuel
    [multisubset2] gives it. *)
Fixpoint align (fuel partition_size : nat) (numbers : list V) : list V :=
  match fuel with
  | 0 => numbers
  | S fuel =>
      if bool_decide (length numbers `mod` partition_size ≠ 0)
      then align fuel partition_size (numbers ++ [zero])
      else numbers
  end.

(** [range(0, stop, step)] *)
Definition range_step (stop step : nat) : list nat :=
  (λ q, q * step) <$> seq 0 ((stop + step - 1) / step).

Definition power_set (values : list V) : list V :=
  foldl (λ new_power_set value,
           new_power_set ++ ((λ n, adder n value) <$> new_power_set))
        [zero] values.

Definition power_sets_of (partition_size : nat) (numbers : list V) : list (list V) :=
  (λ i, power_set (take partition_size (drop i numbers)))
    <$> range_step (length numbers) partition_size.

Definition index_in_power_set (partition_size i : nat) (subset : list nat) : nat :=
  foldl (λ idx j, if bool_decide (i * partition_size + j ∈ subset)
                  then idx + 2 ^ j else idx)
        0 (seq 0 partition_size).

Definition subset_sum2 (partition_size : nat) (power_sets : list (list V))
    (subset : list nat) : result V :=
  foldlM (λ o i,
            ps ← getitem power_sets i;
            v ← getitem ps (index_in_power_set partition_size i subset);
            Return (adder o v))
         zero (seq 0 (length power_sets)).

Definition multisubset2 (numbers : list V) (subsets : list (list nat))
  : result (list V) :=
  lg ← int_math_log (length subsets + 1);
  let partition_size := 1 + lg in
  let numbers := align partition_size partition_size numbers in
  let power_sets := power_sets_of partition_size numbers in
  foldlM (λ subset_sums subset,
            o ← subset_sum2 partition_size power_sets subset;
            Return (subset_sums ++ [o]))
         [] subsets.

(** ** The linear-combination reducer, [lincomb] *)

(** [max(...)] of a generator; the empty one raises. *)
Definition max_of (l : list nat) : result nat :=
  match l with
  | [] => Raise ValueError
  | x :: l => Return (foldl Nat.max x l)
  end.

(** [{i for i in range(len(numbers)) if factors[i] & (1 << j)}] *)
Definition bit_subset (len : nat) (factors : list Z) (j : nat) : result (list nat) :=
  foldlM (λ s i,
            f ← getitem factors i;
            Return (if bool_decide (Z.land f (Z.shiftl 1 (Z.of_nat j)) ≠ 0%Z)
                    then set_add i s else s))
         [] (seq 0 len).

Definition bit_subsets (len : nat) (factors : list Z) (maxbitlen : nat)
  : result (list (list nat)) :=
  foldlM (λ subsets j, s ← bit_subset len factors j; Return (subsets ++ [s]))
         [] (seq 0 (maxbitlen + 1)).

(** [subset_sums[i]] where [subset_sums] may be [None]. *)
Definition subscript (subset_sums : option (list V)) (i : nat) : result V :=
  match subset_sums with
  | Some l => getitem l i
  | None => Raise TypeError
  end.

(** The recombination loop, with the number of [adder] calls it makes. *)
Definition call_adder (x y : V) (calls : nat) : V * nat := (adder x y, calls + 1).

Definition recombine (subsets : list (list nat)) (subset_sums : option (list V))
  : result (V * nat) :=
  foldlM (λ oc i,
            let (d, c) := call_adder oc.1 oc.1 oc.2 in
            s ← subscript subset_sums i;
            Return (call_adder d s c))
         (zero, 0) (reverse (seq 0 (length subsets))).

Definition lincomb_counted (numbers : list V) (factors : list Z)
  : result (V * nat) :=
  maxbitlen ← max_of ((λ f, String.length (bin f) - 2) <$> factors);
  subsets ← bit_subsets (length numbers) factors maxbitlen;
  subset_sums ← multisubset numbers subsets;
  recombine subsets subset_sums.

Definition lincomb (numbers : list V) (factors : list Z) : result V :=
  r ← lincomb_counted numbers factors; Return r.1.
End Solvers.

(** * The solvers on a store of Python objects

    The caller's [numbers] is a list object and the caller's [subsets] is a
    list of references to set objects.  The solvers are called with the
    locations of the two; what they copy is allocated, what they mutate is
    written in place.  Objects that never leave a solver and are never
    aliased ([pair_count], [used], [power_sets], the dictionary that maps a
    key to its set object) stay values. *)

Module Heap.
Section Store.
Context {V : Type} (adder : V → V → V) (zero : V).

Definition loc := nat.

Inductive obj :=
| OList (items : list V)
| OSet (elements : list nat)
| ORefs (items : list loc).

(** A computation on the store, a list of objects, that may raise. *)
Definition M (A : Type) : Type := list obj → result (A * list obj).

Definition ret {A} (a : A) : M A := λ h, Return (a, h).

Definition bind {A B} (m : M A) (f : A → M B) : M B :=
  λ h, match m h with
       | Return ah => f ah.1 ah.2
       | Raise e => Raise e
       end.

Notation "'let!' x := m 'in' k" := (bind m (λ x, k))
  (at level 10, x name, m at level 100, k at level 200, only parsing).

Definition lift {A} (r : result A) : M A :=
  λ h, match r with Return a => Return (a, h) | Raise e => Raise e end.

Definition alloc (o : obj) : M loc := λ h, Return (length h, h ++ [o]).

Definition read (l : loc) : M obj :=
  λ h, match h !! l with Some o => Return (o, h) | None => Raise TypeError end.

Definition write (l : loc) (o : obj) : M unit :=
  λ h, if bool_decide (l < length h) then Return (tt, <[l:=o]> h) else Raise TypeError.

Definition read_list (l : loc) : M (list V) :=
  let! o := read l in
  match o with OList xs => ret xs | _ => lift (Raise TypeError) end.

Definition read_set (l : loc) : M (list nat) :=
  let! o := read l in
  match o with OSet s => ret s | _ => lift (Raise TypeError) end.

Definition read_refs (l : loc) : M (list loc) :=
  let! o := read l in
  match o with ORefs rs => ret rs | _ => lift (Raise TypeError) end.

Fixpoint for_each {A B} (f : A → B → M A) (a : A) (l : list B) : M A :=
  match l with
  | [] => ret a
  | x :: l => let! a' := f a x in for_each f a' l
  end.

(** [{i: {x for x in subset} for i, subset in enumerate(subsets)}] *)
Definition copy_entry (d : list (nat * loc)) (ir : nat * loc) : M (list (nat * loc)) :=
  let! s := read_set ir.2 in
  let! l := alloc (OSet (set_of s)) in
  ret (d ++ [(ir.1, l)]).

Definition copy_subsets (refs : list loc) : M (list (nat * loc)) :=
  for_each copy_entry [] (imap (λ i r, (i, r)) refs).

(** What [subsets.items()] shows at the moment. *)
Definition items_entry (acc : list (nat * list nat)) (kl : nat * loc)
  : M (list (nat * list nat)) :=
  let! s := read_set kl.2 in ret (acc ++ [(kl.1, s)]).

Definition items (d : list (nat * loc)) : M (list (nat * list nat)) :=
  for_each items_entry [] d.

(** [output[key] = adder(output[key], numbers[index])] *)
Definition finish_index (numbers output : loc) (key : nat) (_ : unit) (index : nat)
  : M unit :=
  let! out := read_list output in
  let! a := lift (getitem out key) in
  let! xs := read_list numbers in
  let! b := lift (getitem xs index) in
  let! out' := lift (setitem out key (adder a b)) in
  write output (OList out').

Definition finish (numbers output : loc) (d : list (nat * loc)) : M unit :=
  for_each (λ _ kl,
              let! subset := read_set kl.2 in
              for_each (finish_index numbers output kl.1) tt subset)
           tt d.

(** The body of the loop over [list(subsets.items())]: [d'] collects the
    entries that stay in the dictionary. *)
Definition rewrite_entry (maxx maxy : nat) (numbers output : loc)
    (d' : list (nat * loc)) (kl : nat * loc) : M (list (nat * loc)) :=
  let! subset := read_set kl.2 in
  if bool_decide (maxx ∈ subset) && bool_decide (maxy ∈ subset) then
    let! _ := write kl.2 (OSet (set_remove maxx subset)) in
    let! subset := read_set kl.2 in
    let! _ := write kl.2 (OSet (set_remove maxy subset)) in
    let! subset := read_set kl.2 in
    if bool_decide (subset = []) then
      let! xs := read_list numbers in
      let! v := lift (getlast xs) in
      let! out := read_list output in
      let! out' := lift (setitem out kl.1 v) in
      let! _ := write output (OList out') in
      ret d'
    else
      let! xs := read_list numbers in
      let! _ := write kl.2 (OSet (set_add (length xs - 1) subset)) in
      ret (d' ++ [kl])
  else ret (d' ++ [kl]).

Definition rewrite_subsets (maxx maxy : nat) (numbers output : loc)
    (d : list (nat * loc)) : M (list (nat * loc)) :=
  for_each (rewrite_entry maxx maxy numbers output) [] d.

Definition merge_pair (numbers output : loc) (du : list (nat * loc) * list nat)
    (p : nat * nat) : M (list (nat * loc) * list nat) :=
  if bool_decide (p.1 ∈ du.2) || bool_decide (p.2 ∈ du.2) then ret du
  else
    let used := set_add p.2 (set_add p.1 du.2) in
    let! xs := read_list numbers in
    let! a := lift (getitem xs p.1) in
    let! b := lift (getitem xs p.2) in
    let! _ := write numbers (OList (xs ++ [adder a b])) in
    let! d := rewrite_subsets p.1 p.2 numbers output du.1 in
    ret (d, used).

Definition round (numbers output : loc) (d : list (nat * loc))
  : M (loc + list (nat * loc)) :=
  let! xs := read_list numbers in
  let! subsets := items d in
  let! pairs := lift (pairs_by_count xs subsets) in
  if bool_decide (length pairs = 0) then
    let! _ := finish numbers output d in
    ret (inl output)
  else
    let! du := for_each (merge_pair numbers output) (d, []) pairs in
    ret (inr du.1).

(** The body of the round loop as a step on the dictionary and the store. *)
Definition run_round (numbers output : loc) (dh : list (nat * loc) * list obj)
  : result ((loc * list obj) + (list (nat * loc) * list obj)) :=
  match round numbers output dh.1 dh.2 with
  | Return (inl r, h) => Return (inl (r, h))
  | Return (inr d, h) => Return (inr (d, h))
  | Raise e => Raise e
  end.

(** [multisubset(numbers, subsets)]: the result is the location of [output],
    or [None] when the rounds ran out. *)
Definition multisubset (numbers subsets : loc) : M (option loc) :=
  let! xs := read_list numbers in
  let! numbers := alloc (OList xs) in
  let! refs := read_refs subsets in
  let! d := copy_subsets refs in
  let! output := alloc (OList (replicate (length d) zero)) in
  λ h, match for_range (run_round numbers output) round_cap (d, h) with
       | Return (inl rh) => Return (Some rh.1, rh.2)
       | Return (inr dh) => Return (None, dh.2)
       | Raise e => Raise e
       end.

Fixpoint align (fuel partition_size : nat) (numbers : loc) : M unit :=
  match fuel with
  | 0 => ret tt
  | S fuel =>
      let! xs := read_list numbers in
      if bool_decide (length xs `mod` partition_size ≠ 0) then
        let! _ := write numbers (OList (xs ++ [zero])) in
        align fuel partition_size numbers
      else ret tt
  end.

(** The body of [for subset in subsets]. *)
Definition sum_entry (partition_size : nat) (power_sets : list (list V))
    (subset_sums : list V) (r : loc) : M (list V) :=
  let! subset := read_set r in
  let! o := lift (subset_sum2 adder zero partition_size power_sets subset) in
  ret (subset_sums ++ [o]).

(** [multisubset2(numbers, subsets)]: the result is the location of the new
    list [subset_sums]. *)
Definition multisubset2 (numbers subsets : loc) : M loc :=
  let! refs := read_refs subsets in
  let! lg := lift (int_math_log (length refs + 1)) in
  let partition_size := 1 + lg in
  let! xs := read_list numbers in
  let! numbers := alloc (OList xs) in
  let! _ := align partition_size partition_size numbers in
  let! xs := read_list numbers in
  let power_sets := power_sets_of adder zero partition_size xs in
  let! subset_sums := for_each (sum_entry partition_size power_sets) [] refs in
  alloc (OList subset_sums).
End Store.
End Heap.

(** * The solvers with an adder that has state

    [adder] is any callable: [make_mock_adder] returns a closure that counts
    in a cell of its own, so a call changes the state [C] of the closure
    besides returning a value.  The solvers below are the solvers above with
    every call of [adder] threaded through that state, in the order Python
    evaluates them; what does not call [adder] is taken from above. *)

Module Stateful.
Section Stateful.
Context {V C : Type} (adder : V → V → C → V * C) (zero : V).

(** A computation that may call [adder] and may raise. *)
Definition M (A : Type) : Type := C → result (A * C).

Definition ret {A} (a : A) : M A := λ c, Return (a, c).

Definition bind {A B} (m : M A) (f : A → M B) : M B :=
  λ c, match m c with
       | Return ac => f ac.1 ac.2
       | Raise e => Raise e
       end.

Notation "'let!' x := m 'in' k" := (bind m (λ x, k))
  (at level 10, x name, m at level 100, k at level 200, only parsing).

Definition lift {A} (r : result A) : M A :=
  λ c, match r with Return a => Return (a, c) | Raise e => Raise e end.

(** [adder(x, y)] *)
Definition call (x y : V) : M V := λ c, Return (adder x y c).

Fixpoint for_each {A B} (f : A → B → M A) (a : A) (l : list B) : M A :=
  match l with
  | [] => ret a
  | x :: l => let! a' := f a x in for_each f a' l
  end.

(** [output[key] = adder(output[key], numbers[index])] *)
Definition finish_index (numbers : list V) (key : nat) (out : list V) (index : nat)
  : M (list V) :=
  let! a := lift (getitem out key) in
  let! b := lift (getitem numbers index) in
  let! v := call a b in
  lift (setitem out key v).

Definition finish (numbers : list V) (subsets : list (nat * list nat))
    (output : list V) : M (list V) :=
  for_each (λ out ks, for_each (finish_index numbers ks.1) out ks.2) output subsets.

Definition merge_pair (su : state * list nat) (p : nat * nat) : M (state * list nat) :=
  if bool_decide (p.1 ∈ su.2) || bool_decide (p.2 ∈ su.2) then ret su
  else
    let used := set_add p.2 (set_add p.1 su.2) in
    let! a := lift (getitem (numbers su.1) p.1) in
    let! b := lift (getitem (numbers su.1) p.2) in
    let! v := call a b in
    let numbers := numbers su.1 ++ [v] in
    let! r := lift (rewrite_subsets p.1 p.2 numbers (subsets su.1) (output su.1)) in
    ret (State numbers r.1 r.2, used).

Definition round (st : state) : M (list V + state) :=
  let! pairs := lift (pairs_by_count (numbers st) (subsets st)) in
  if bool_decide (length pairs = 0) then
    let! out := finish (numbers st) (subsets st) (output st) in
    ret (inl out)
  else
    let! su := for_each merge_pair (st, []) pairs in
    ret (inr su.1).

(** The body of the round loop as a step on the solver's state and the
    state of the adder. *)
Definition run_round (sc : state * C) : result ((list V * C) + (state * C)) :=
  match round sc.1 sc.2 with
  | Return (inl out, c) => Return (inl (out, c))
  | Return (inr st, c) => Return (inr (st, c))
  | Raise e => Raise e
  end.

Definition multisubset (numbers : list V) (subsets : list (list nat))
  : M (option (list V)) :=
  λ c, match for_range run_round round_cap (init zero numbers subsets, c) with
       | Return (inl oc) => Return (Some oc.1, oc.2)
       | Return (inr sc) => Return (None, sc.2)
       | Raise e => Raise e
       end.

(** [new_power_set += [adder(n, value) for n in new_power_set]] *)
Definition extend_power_set (new_power_set : list V) (value : V) : M (list V) :=
  let! sums := for_each (λ sums n, let! v := call n value in ret (sums ++ [v]))
                        [] new_power_set in
  ret (new_power_set ++ sums).

Definition power_set (values : list V) : M (list V) :=
  for_each extend_power_set [zero] values.

Definition power_sets_of (partition_size : nat) (numbers : list V) : M (list (list V)) :=
  for_each (λ power_sets i,
              let! new_power_set := power_set (take partition_size (drop i numbers)) in
              ret (power_sets ++ [new_power_set]))
           [] (range_step (length numbers) partition_size).

Definition subset_sum2 (partition_size : nat) (power_sets : list (list V))
    (subset : list nat) : M V :=
  for_each (λ o i,
              let! ps := lift (getitem power_sets i) in
              let! v := lift (getitem ps (index_in_power_set partition_size i subset)) in
              call o v)
           zero (seq 0 (length power_sets)).

Definition multisubset2 (numbers : list V) (subsets : list (list nat)) : M (list V) :=
  let! lg := lift (int_math_log (length subsets + 1)) in
  let partition_size := 1 + lg in
  let numbers := align zero partition_size partition_size numbers in
  let! power_sets := power_sets_of partition_size numbers in
  for_each (λ subset_sums subset,
              let! o := subset_sum2 partition_size power_sets subset in
              ret (subset_sums ++ [o]))
           [] subsets.

(** [o = adder(adder(o, o), subset_sums[i])] *)
Definition recombine_step (subset_sums : option (list V)) (o : V) (i : nat) : M V :=
  let! d := call o o in
  let! s := lift (subscript subset_sums i) in
  call d s.

Definition lincomb (numbers : list V) (factors : list Z) : M V :=
  let! maxbitlen := lift (max_of ((λ f, String.length (bin f) - 2) <$> factors)) in
  let! subsets := lift (bit_subsets (length numbers) factors maxbitlen) in
  let! subset_sums := multisubset numbers subsets in
  for_each (recombine_step subset_sums) zero (reverse (seq 0 (length subsets))).
End Stateful.
End Stateful.

(** * The tests of the module *)

(** [make_mock_adder]: the closure adds two integers and counts, in the cell
    [counter[0]], the calls in which [x and y] is truthy, that is in which
    neither operand is 0.  The cell is the state of the closure. *)
Definition mock_adder (x y : Z) (counter : nat) : Z * nat :=
  ((x + y)%Z,
   if bool_decide (x ≠ 0%Z) && bool_decide (y ≠ 0%Z) then counter + 1 else counter).

Definition make_mock_adder : (Z → Z → nat → Z * nat) * nat := (mock_adder, 0).

(** How a test ends when it does not return. *)
Inductive failure := AssertionError | ZeroDivisionError | Uncaught (e : exn).

(** [bin(f).count('1')] *)
Fixpoint count_ones (s : String.string) : nat :=
  match s with
  | EmptyString => 0
  | String a s => (if bool_decide (a = "1"%char) then 1 else 0) + count_ones s
  end.

Section Tests.
(** [random.randrange] is the standard library's: the generator is taken as
    a state [R] and a function that draws from it. *)
Context {R : Type} (randrange : Z → R → Z * R).
(** The text of ["%.2f" % (a / b)] for integers [a] and [b], [b] not 0: a
    floating-point division and its formatting, taken as a function. *)
Context (format_2f : nat → nat → String.string).

(** [[random.randrange(n) for _ in range(count)]] *)
Fixpoint draws (n : Z) (count : nat) (r : R) : list Z * R :=
  match count with
  | 0 => ([], r)
  | S count =>
      let (x, r) := randrange n r in
      let (xs, r) := draws n count r in
      (x :: xs, r)
  end.

(** [{i for i in range(numcount) if random.randrange(2)}] *)
Definition draw_subset (numcount : nat) (r : R) : list nat * R :=
  foldl (λ sr i, let (x, r) := randrange 2 sr.2 in
                 (if bool_decide (x ≠ 0%Z) then set_add i sr.1 else sr.1, r))
        ([], r) (seq 0 numcount).

Fixpoint draw_subsets (numcount setcount : nat) (r : R) : list (list nat) * R :=
  match setcount with
  | 0 => ([], r)
  | S setcount =>
      let (s, r) := draw_subset numcount r in
      let (ss, r) := draw_subsets numcount setcount r in
      (s :: ss, r)
  end.

(** [assert output == sum([numbers[x] for x in subset])] for every pair of
    [zip(o, subsets)]. *)
Definition check_subset (numbers : list Z) (os : Z * list nat) : option failure :=
  match foldlM (λ picked x, n ← getitem numbers x; Return (picked ++ [n])) [] os.2 with
  | Raise e => Some (Uncaught e)
  | Return picked =>
      if bool_decide (os.1 = foldl Z.add 0%Z picked) then None else Some AssertionError
  end.

Fixpoint check_subsets (numbers : list Z) (l : list (Z * list nat)) : option failure :=
  match l with
  | [] => None
  | os :: l =>
      match check_subset numbers os with
      | None => check_subsets numbers l
      | Some f => Some f
      end
  end.

(** [test_multisubset(numcount, setcount)]; [None] when the test returns. *)
Definition test_multisubset (numcount setcount : nat) (r : R) : option failure :=
  let (numbers, r) := draws (10 ^ 20) numcount r in
  let (subsets, r) := draw_subsets numcount setcount r in
  let (adder, counter) := make_mock_adder in
  match Stateful.multisubset adder 0%Z numbers subsets counter with
  | Raise e => Some (Uncaught e)
  | Return (None, _) => Some (Uncaught TypeError)
  | Return (Some o, _) => check_subsets numbers (zip o subsets)
  end.

(** [test_lincomb(numcount, bitlength)]: the lines printed, and [None] when
    the test returns. *)
Definition test_lincomb (numcount bitlength : nat) (r : R)
  : list String.string * option failure :=
  let (numbers, r) := draws (10 ^ 20) numcount r in
  let (factors, r) := draws (2 ^ Z.of_nat bitlength) numcount r in
  let (adder, counter) := make_mock_adder in
  match Stateful.lincomb adder 0%Z numbers factors counter with
  | Raise e => ([], Some (Uncaught e))
  | Return (o, counter) =>
      if bool_decide (o = foldl Z.add 0%Z (zip_with Z.mul numbers factors)) then
        let total_ones := foldl Nat.add 0 ((λ f, count_ones (bin f)) <$> factors) in
        let naive := bitlength * numcount + total_ones in
        let optimized := bitlength * 2 + counter in
        let lines :=
          [String.append "Naive operation count: " (pretty naive);
           String.append "Optimized operation count: " (pretty optimized)] in
        if bool_decide (optimized = 0) then (lines, Some ZeroDivisionError)
        else (lines ++ [String.append "Optimization factor: "
                                      (format_2f naive optimized)], None)
      else ([], Some AssertionError)
  end.
End Tests.

(** * Specification *)

(** What the solvers assume of the caller's [adder] and [zero]. *)
Class AdditiveLaws {V : Type} (adder : V → V → V) (zero : V) : Prop := {
  adder_assoc : ∀ x y z, adder x (adder y z) = adder (adder x y) z;
  adder_comm : ∀ x y, adder x y = adder y x;
  adder_zero : ∀ x, adder zero x = x
}.

Section Specification.
Context {V : Type} (adder : V → V → V) (zero : V).

(** [numbers[i]] for an index known to be in range. *)
Definition at_index (numbers : list V) (i : nat) : V :=
  default zero (numbers !! i).

(** The naive sum of one subset: the adder-fold of the elements at its
    indices. *)
Definition adder_fold (numbers : list V) (subset : list nat) : V :=
  foldl (λ acc i, adder acc (at_index numbers i)) zero (set_of subset).

Definition naive_sums (numbers : list V) (subsets : list (list nat)) : list V :=
  adder_fold numbers <$> subsets.

(** Every index of every subset is a position of [numbers]. *)
Definition valid_indices (numbers : list V) (subsets : list (list nat)) : Prop :=
  ∀ subset i, subset ∈ subsets → i ∈ subset → i < length numbers.

Definition sum_list (l : list V) : V := foldr adder zero l.

Definition sum_at (numbers : list V) (s : list nat) : V :=
  sum_list (at_index numbers <$> s).

(** The number of index occurrences over all subsets. *)
Definition total_size {K} (subsets : list (K * list nat)) : nat :=
  sum_list_with (λ ks, length ks.2) subsets.
End Specification.

(** The number of index occurrences in the caller's subsets: the rounds of
    [multisubset] lower it by at least one each, so it bounds their number. *)
Definition index_count (subsets : list (list nat)) : nat :=
  sum_list_with (λ s, length (set_of s)) subsets.

(** The additions the naive method needs when it adds up every subset on its
    own: one less than the size of every subset that is not empty. *)
Definition naive_additions (subsets : list (list nat)) : nat :=
  sum_list_with (λ s, length (set_of s) - 1) subsets.

(** The number of partitions [multisubset2] splits [n] elements into, and
    the number of adder calls it makes for [n] elements and [m] subsets: a
    power set of every partition, then one lookup per partition and subset. *)
Definition partition_count (n partition_size : nat) : nat :=
  (n + partition_size - 1) / partition_size.

Definition multisubset2_calls (n m : nat) : nat :=
  let partition_size := 1 + int_log (m + 1) in
  partition_count n partition_size * (2 ^ partition_size - 1 + m).

Section LincombSpec.
Context {V : Type} (adder : V → V → V) (zero : V).

(** [x] added to [zero] [n] times: the scalar multiple the group implies. *)
Definition repeat_add (x : V) (n : nat) : V :=
  Nat.iter n (λ acc, adder acc x) zero.

(** The naive linear combination with natural weights. *)
Definition weighted_sum (numbers : list V) (weights : list nat) : V :=
  foldl adder zero (zip_with repeat_add numbers weights).
End LincombSpec.

(** [len(bin(f)) - 2] *)
Definition bitlen (f : Z) : nat := String.length (bin f) - 2.

(** The largest [len(bin(f)) - 2] over the factors. *)
Definition maxbitlen (factors : list Z) : nat := foldl Nat.max 0 (bitlen <$> factors).

Definition factor_at (factors : list Z) (i : nat) : Z := default 0%Z (factors !! i).

(** The one-bits of [f] among its lowest [m] positions, and their number
    over all factors: the number of index occurrences [lincomb] hands to
    [multisubset]. *)
Definition ones_below (m : nat) (f : Z) : nat :=
  length (filter (λ j, Z.testbit f (Z.of_nat j) = true) (seq 0 m)).

Definition ones_total (m : nat) (factors : list Z) : nat :=
  sum_list_with (ones_below m) factors.

(** * Notions of the proofs *)

(** What the rewrite loop does to one dictionary entry. *)
Definition hit (x y : nat) (s : list nat) : bool :=
  bool_decide (x ∈ s) && bool_decide (y ∈ s).

Definition shrink (x y : nat) (s : list nat) : list nat :=
  set_remove y (set_remove x s).

Definition rewritten (x y newidx : nat) (ks : nat * list nat) : option (nat * list nat) :=
  if hit x y ks.2 then
    if bool_decide (shrink x y ks.2 = []) then None
    else Some (ks.1, set_add newidx (shrink x y ks.2))
  else Some ks.

(** The index of a set of positions in a power set. *)
Definition mask (P : nat → Prop) `{∀ j, Decision (P j)} (m : nat) : nat :=
  foldl (λ idx j, if bool_decide (P j) then idx + 2 ^ j else idx) 0 (seq 0 m).

(** The value of the [m] bits of [f] from position [j] upwards. *)
Fixpoint bits_val (f : Z) (j m : nat) : nat :=
  match m with
  | 0 => 0
  | S m => Nat.b2n (Z.testbit f (Z.of_nat j)) + 2 * bits_val f (S j) m
  end.

(** Bit [j] of the factor of element [i] is set. *)
Definition bit_set (factors : list Z) (j i : nat) : Prop :=
  Z.testbit (factor_at factors i) (Z.of_nat j) = true.

#[global] Instance bit_set_dec factors j i : Decision (bit_set factors j i).
Proof. unfold bit_set. apply _. Defined.

(** The subsets [lincomb] builds, one per bit position. *)
Definition bit_columns (len : nat) (factors : list Z) (m : nat) : list (list nat) :=
  (λ j, filter (bit_set factors j) (seq 0 len)) <$> seq 0 m.

(** ** Notions of the proofs about the value model *)

Section Notions.
Context {V : Type} (adder : V → V → V) (zero : V).

(** The round invariant of [multisubset]: an unresolved subset still sums to
    its target and its output slot still holds [zero]; a resolved one has
    its target in its output slot. *)
Record inv (target : nat → V) (n : nat) (st : state) : Prop := Inv {
  inv_numbers : 0 < length (numbers st);
  inv_output : length (output st) = n;
  inv_keys : NoDup (subsets st).*1;
  inv_live : ∀ k s, (k, s) ∈ subsets st →
    k < n ∧ NoDup s ∧ (∀ i, i ∈ s → i < length (numbers st))
    ∧ output st !! k = Some zero ∧ sum_at adder zero (numbers st) s = target k;
  inv_dead : ∀ k, k < n → k ∉ (subsets st).*1 → output st !! k = Some (target k)
}.

(** The naive sum of the subset with key [k]. *)
Definition target (numbers : list V) (sets : list (list nat)) (k : nat) : V :=
  default zero (naive_sums adder zero numbers sets !! k).

(** The weights the recombination gives the elements after it has
    consumed the bit columns [j .. j + m - 1]. *)
Definition partial (numbers : list V) (factors : list Z) (j m : nat) : V :=
  sum_list adder zero
    ((λ i, repeat_add adder zero (at_index zero numbers i)
                      (bits_val (factor_at factors i) j m))
       <$> seq 0 (length numbers)).

(** Some subset holds an index that is out of range now and stays so
    however many of the remaining index occurrences are merged away. *)
Record far (st : @state V) : Prop := Far {
  far_numbers : 0 < length (numbers st);
  far_nodup : ∀ ks, ks ∈ subsets st → NoDup ks.2;
  far_index : ∃ ks i, ks ∈ subsets st ∧ i ∈ ks.2
                      ∧ length (numbers st) + total_size (subsets st) ≤ i
}.

(** While a round merges pairs, every pair still to come whose indices are
    unused lies in some subset. *)
Definition pending (st : @state V) (used : list nat) (pairs : list (nat * nat)) : Prop :=
  ∀ q, q ∈ pairs → q.1 ∉ used → q.2 ∉ used →
       ∃ ks, ks ∈ subsets st ∧ q.1 ∈ ks.2 ∧ q.2 ∈ ks.2.
End Notions.

(** ** Inputs on which the rounds of [multisubset] run out

    Every subset but the last holds index 0 and one index of its own, so the
    pairs of a round all share index 0 and a round merges only the first of
    them: one subset is resolved per round.  The last subset is empty. *)
Definition star_sets (m : nat) : list (list nat) :=
  ((λ j, [0; S j]) <$> seq 0 m) ++ [[]].

(** The factors whose bit subsets are [star_sets m]. *)
Definition star_factors (m : nat) : list Z :=
  Z.ones (Z.of_nat m) :: ((λ j, 2 ^ Z.of_nat j)%Z <$> seq 0 m).

(** As many such subsets as [multisubset] has rounds. *)
Definition star_size : nat := Pos.to_nat round_cap.

(** What is left of [star_sets m] in the dictionary of a round. *)
Definition starlike (m : nat) (subs : list (nat * list nat)) : Prop :=
  NoDup subs.*1 ∧ NoDup subs.*2
  ∧ ∀ ks, ks ∈ subs → ks.1 ≤ m ∧ (ks.2 = [] ∨ ∃ j, j < m ∧ ks.2 = [0; S j]).

Record star_state {V} (m : nat) (st : @state V) : Prop := StarState {
  star_subsets : starlike m (subsets st);
  star_numbers : S m ≤ length (numbers st);
  star_output : length (output st) = S m
}.

(** ** Notions of the proofs about the store model *)

Section StoreNotions.
Context {V : Type}.

(** [m] leaves the first [n0] objects of the store as they are, and what it
    returns is in [Q]. *)
Definition keeps (n0 : nat) {A} (m : @Heap.M V A) (Q : A → Prop) : Prop :=
  ∀ h a h', n0 ≤ length h → m h = Return (a, h') →
            n0 ≤ length h' ∧ take n0 h' = take n0 h ∧ Q a.

(** Every set object of the dictionary was allocated by the solver. *)
Definition fresh (n0 : nat) (d : list (nat * Heap.loc)) : Prop :=
  Forall (λ kl, n0 ≤ kl.2) d.

(** The dictionary [d] of the store [h] shows the subsets [subs]. *)
Definition shows (h : list (@Heap.obj V)) (d : list (nat * Heap.loc))
    (subs : list (nat * list nat)) : Prop :=
  Forall2 (λ kl ks, kl.1 = ks.1 ∧ h !! kl.2 = Some (Heap.OSet ks.2)) d subs.

(** The store holds the state [st] of the value model in the objects at
    [nl], [ol] and in the set objects of [d], all different. *)
Definition rep (h : list (@Heap.obj V)) (nl ol : Heap.loc) (d : list (nat * Heap.loc))
    (st : @state V) : Prop :=
  h !! nl = Some (Heap.OList (numbers st))
  ∧ h !! ol = Some (Heap.OList (output st))
  ∧ shows h d (subsets st)
  ∧ NoDup (nl :: ol :: d.*2).

(** How a step of the store model follows a step of the value model that
    ends in a state. *)
Definition follows {A} (nl ol : Heap.loc) (r : result (@state V * A))
    (hr : result ((list (nat * Heap.loc) * A) * list (@Heap.obj V))) : Prop :=
  match r with
  | Return sa => ∃ d' h', hr = Return ((d', sa.2), h') ∧ rep h' nl ol d' sa.1
  | Raise e => hr = Raise e
  end.

(** The caller's sets, numbered, against the solver's own dictionary. *)
Definition copies (h0 : list (@Heap.obj V)) (irs : list (nat * Heap.loc))
    (kss : list (nat * list nat)) : Prop :=
  Forall2 (λ ir ks, ir.1 = ks.1
                    ∧ ∃ s, h0 !! ir.2 = Some (Heap.OSet s) ∧ ks.2 = set_of s)
          irs kss.

(** The store the solver is called on: [numbers] is a list object, [subsets]
    a list of references to set objects. *)
Definition called_on (h : list (@Heap.obj V)) (numbers subsets : Heap.loc)
    (xs : list V) (sets : list (list nat)) : Prop :=
  h !! numbers = Some (Heap.OList xs)
  ∧ ∃ refs, h !! subsets = Some (Heap.ORefs refs)
            ∧ Forall2 (λ r s, h !! r = Some (Heap.OSet s)) refs sets.
End StoreNotions.

(** The additions still to make when every subset left is added up on its
    own. *)
Definition spare {K} (subsets : list (K * list nat)) : nat :=
  sum_list_with (λ ks, length ks.2 - 1) subsets.

(** ** Notions of the proofs about an adder with state *)

(** The result of a computation without the state the adder is left in. *)
Definition erase {A C} (r : result (A * C)) : result A :=
  match r with
  | Return ac => Return ac.1
  | Raise e => Raise e
  end.

(** [m] computes [r] whatever state the adder is in. *)
Definition pure_of {A C} (m : @Stateful.M C A) (r : result A) : Prop :=
  ∀ c, erase (m c) = r.

(** When [m] returns, the counter has moved by [k], as [rel] measures it
    ([=] for an adder that counts every call, [≤] for one that counts some),
    and the value is in [Q]. *)
Definition costs (rel : nat → nat → Prop) {A} (m : @Stateful.M nat A) (k : nat)
    (Q : A → Prop) : Prop :=
  ∀ c a c', m c = Return (a, c') → rel c' (c + k) ∧ Q a.

(** * Verification *)

(** ** The scenarios of the specification *)

Example multisubset2_scenario :
  multisubset2 Z.add 0%Z [2; 3; 5]%Z [[0; 1]; [1; 2]; [0; 1; 2]]
  = Return [5; 8; 10]%Z.
Proof. vm_compute. reflexivity. Qed.

Example lincomb_scenario :
  lincomb Z.add 0%Z [2; 3; 5]%Z [6; 1; 2]%Z = Return 25%Z.
Proof. vm_compute. reflexivity. Qed.

Example multisubset_scenario :
  multisubset Z.add 0%Z [2; 3; 5]%Z [[0; 1]; [1; 2]; [0; 1; 2]]
  = Return (Some [5; 8; 10]%Z).
Proof. vm_compute. reflexivity. Qed.

Example heap_multisubset_scenario :
  let h := [Heap.OList [2; 3; 5]%Z; Heap.OSet [0; 1]; Heap.OSet [1; 2];
            Heap.OSet [0; 1; 2]; Heap.ORefs [1; 2; 3]] in
  ∃ r h', Heap.multisubset Z.add 0%Z 0 4 h = Return (Some r, h')
          ∧ h' !! r = Some (Heap.OList [5; 8; 10]%Z)
          ∧ take (length h) h' = h.
Proof. eexists _, _. vm_compute. split_and!; reflexivity. Qed.

Example heap_multisubset2_scenario :
  let h := [Heap.OList [2; 3; 5]%Z; Heap.OSet [0; 1]; Heap.OSet [1; 2];
            Heap.OSet [0; 1; 2]; Heap.ORefs [1; 2; 3]] in
  ∃ r h', Heap.multisubset2 Z.add 0%Z 0 4 h = Return (r, h')
          ∧ h' !! r = Some (Heap.OList [5; 8; 10]%Z)
          ∧ take (length h) h' = h.
Proof. eexists _, _. vm_compute. split_and!; reflexivity. Qed.

(** ** The error monad and the loops *)

Lemma bind_Return {A B} (m : result A) (f : A → result B) b :
  m ≫= f = Return b ↔ ∃ a, m = Return a ∧ f a = Return b.
Proof.
  destruct m as [a|e]; simpl; split.
  - eauto.
  - by intros (a' & [= <-] & ?).
  - done.
  - by intros (? & ? & ?).
Qed.

Lemma bind_ret {A B} (a : A) (f : A → result B) : Return a ≫= f = f a.
Proof. done. Qed.

Lemma getitem_Some {A} (l : list A) i x : l !! i = Some x → getitem l i = Return x.
Proof. unfold getitem. by intros ->. Qed.

Lemma getitem_None {A} (l : list A) i : length l ≤ i → getitem l i = Raise IndexError.
Proof. intros H%lookup_ge_None. unfold getitem. by rewrite H. Qed.

Lemma setitem_lt {A} (l : list A) i v :
  i < length l → setitem l i v = Return (<[i:=v]> l).
Proof. intros. unfold setitem. by rewrite bool_decide_true. Qed.

Lemma foldlM_app {A B} (f : A → B → result A) a l1 l2 :
  foldlM f a (l1 ++ l2) = foldlM f a l1 ≫= λ a', foldlM f a' l2.
Proof.
  revert a. induction l1 as [|x l1 IH]; intros a; simpl; [done|].
  destruct (f a x); simpl; [apply IH|done].
Qed.

(** A loop whose body never raises and keeps an invariant. *)
Lemma foldlM_invariant {A B} (P : A → Prop) (f : A → B → result A) l a :
  P a →
  (∀ a x, x ∈ l → P a → ∃ a', f a x = Return a' ∧ P a') →
  ∃ a', foldlM f a l = Return a' ∧ P a'.
Proof.
  revert a. induction l as [|x l IH]; intros a Ha Hf; simpl; [eauto|].
  destruct (Hf a x) as (a' & -> & Ha'); [left|done|]. simpl.
  apply IH; [done|]. intros ???; apply Hf. by right.
Qed.

Section LoopFacts.
Context {S R : Type} (body : S → result (R + S)).

Lemma for_range_nat_add n m s :
  for_range_nat body (n + m) s
  = continue (for_range_nat body n s) (for_range_nat body m).
Proof.
  revert s. induction n as [|n IH]; intros s; simpl; [done|].
  destruct (body s) as [[r|s']|e]; simpl; [done|apply IH|done].
Qed.

Lemma for_range_nat_1 s : for_range_nat body 1 s = body s.
Proof. simpl. by destruct (body s) as [[|]|]. Qed.

(** The binary loop runs the body as the unary one does. *)
Lemma for_range_unary p s :
  for_range body p s = for_range_nat body (Pos.to_nat p) s.
Proof.
  revert s. induction p as [p IH|p IH|]; intros s.
  - rewrite Pos2Nat.inj_xI.
    replace (2 * Pos.to_nat p) with (Pos.to_nat p + Pos.to_nat p) by lia.
    cbn [for_range for_range_nat].
    destruct (body s) as [[r|s']|e]; simpl; [done| |done].
    rewrite for_range_nat_add, IH.
    destruct (for_range_nat body (Pos.to_nat p) s') as [[r|s'']|e]; simpl; [done|apply IH|done].
  - rewrite Pos2Nat.inj_xO.
    replace (2 * Pos.to_nat p) with (Pos.to_nat p + Pos.to_nat p) by lia.
    rewrite for_range_nat_add. simpl. rewrite IH.
    destruct (for_range_nat body (Pos.to_nat p) s) as [[r|s'']|e]; simpl; [done|apply IH|done].
  - change (Pos.to_nat 1) with 1. by rewrite for_range_nat_1.
Qed.

(** A body that keeps [I], lowers [measure] whenever it continues and,
    when it returns, returns something in [Q], returns within
    [measure + 1] iterations. *)
Lemma for_range_nat_returns (I : S → Prop) (Q : R → Prop) (measure : S → nat) :
  (∀ s, I s →
     (∃ r, body s = Return (inl r) ∧ Q r)
     ∨ (∃ s', body s = Return (inr s') ∧ I s' ∧ measure s' < measure s)) →
  ∀ n s, I s → measure s < n →
    ∃ r, for_range_nat body n s = Return (inl r) ∧ Q r.
Proof.
  intros Hbody n. induction n as [|n IH]; intros s Hs Hm; [lia|].
  simpl. destruct (Hbody s Hs) as [(r & -> & Hr)|(s' & -> & Hs' & Hlt)]; simpl.
  - eauto.
  - apply IH; [done|lia].
Qed.
End LoopFacts.

(** ** Sets of indices *)

Lemma elem_of_set_add x y s : x ∈ set_add y s ↔ x = y ∨ x ∈ s.
Proof.
  unfold set_add. case_bool_decide.
  - naive_solver.
  - rewrite elem_of_app, list_elem_of_singleton. naive_solver.
Qed.

Lemma NoDup_set_add y s : NoDup s → NoDup (set_add y s).
Proof.
  intros Hs. unfold set_add. case_bool_decide; [done|].
  apply NoDup_app. split_and!; [done| |apply NoDup_singleton].
  intros x Hx ->%list_elem_of_singleton. done.
Qed.

Lemma set_of_spec l : NoDup (set_of l) ∧ ∀ x, x ∈ set_of l ↔ x ∈ l.
Proof.
  unfold set_of.
  cut (∀ s, NoDup s →
         NoDup (foldl (λ s x, set_add x s) s l)
         ∧ ∀ x, x ∈ foldl (λ s x, set_add x s) s l ↔ x ∈ s ∨ x ∈ l).
  { intros H. destruct (H [] (NoDup_nil_2)) as [? Hin]. split; [done|].
    intros x. rewrite Hin. rewrite elem_of_nil. naive_solver. }
  induction l as [|y l IH]; intros s Hs; simpl.
  - split; [done|]. intros x. rewrite elem_of_nil. naive_solver.
  - destruct (IH (set_add y s)) as [? Hin]; [by apply NoDup_set_add|].
    split; [done|]. intros x. rewrite Hin, elem_of_set_add, elem_of_cons. naive_solver.
Qed.

Lemma NoDup_set_of l : NoDup (set_of l).
Proof. apply set_of_spec. Qed.

Lemma elem_of_set_of x l : x ∈ set_of l ↔ x ∈ l.
Proof. apply set_of_spec. Qed.

Lemma set_of_NoDup_id l : NoDup l → set_of l = l.
Proof.
  unfold set_of. intros Hl.
  cut (∀ s, NoDup (s ++ l) → foldl (λ s x, set_add x s) s l = s ++ l).
  { intros H. by apply (H []). }
  clear Hl. induction l as [|y l IH]; intros s Hs; simpl.
  - by rewrite app_nil_r.
  - unfold set_add at 2. rewrite bool_decide_false.
    + rewrite IH; [by rewrite <-app_assoc|]. by rewrite <-app_assoc.
    + apply NoDup_app in Hs as (_ & Hs & _). intros Hy. apply (Hs y Hy). left.
Qed.

Lemma elem_of_set_remove x y s : x ∈ set_remove y s ↔ x ≠ y ∧ x ∈ s.
Proof. unfold set_remove. by rewrite list_elem_of_filter. Qed.

Lemma NoDup_set_remove y s : NoDup s → NoDup (set_remove y s).
Proof. apply NoDup_filter. Qed.

Lemma set_remove_length y s : length (set_remove y s) ≤ length s.
Proof. apply length_filter. Qed.

Lemma set_remove_perm y s : NoDup s → y ∈ s → s ≡ₚ y :: set_remove y s.
Proof.
  intros Hs Hy. apply NoDup_Permutation; [done| |].
  - constructor; [|by apply NoDup_set_remove].
    rewrite elem_of_set_remove. naive_solver.
  - intros x. rewrite elem_of_cons, elem_of_set_remove.
    destruct (decide (x = y)); naive_solver.
Qed.

(** ** The additive structure *)

#[global] Instance Z_additive : AdditiveLaws Z.add 0%Z.
Proof. split; intros; lia. Qed.

Section Algebra.
Context {V : Type} (adder : V → V → V) (zero : V).
Context `{!AdditiveLaws adder zero}.

Local Abbreviation sum := (sum_list adder zero).
Local Abbreviation sum_on := (sum_at adder zero).

Lemma adder_zero_r x : adder x zero = x.
Proof. by rewrite adder_comm, adder_zero. Qed.

Lemma foldl_adder a l : foldl adder a l = adder a (sum l).
Proof.
  revert a. induction l as [|x l IH]; intros a; simpl.
  - by rewrite adder_zero_r.
  - by rewrite IH, adder_assoc.
Qed.

Lemma sum_list_app l1 l2 : sum (l1 ++ l2) = adder (sum l1) (sum l2).
Proof.
  induction l1 as [|x l1 IH]; simpl.
  - by rewrite adder_zero.
  - by rewrite IH, adder_assoc.
Qed.

Lemma sum_list_perm l1 l2 : l1 ≡ₚ l2 → sum l1 = sum l2.
Proof.
  induction 1 as [|x l1 l2 _ IH|x y l|l1 l2 l3 _ IH1 _ IH2]; simpl.
  - done.
  - by rewrite IH.
  - by rewrite !adder_assoc, (adder_comm y x).
  - by rewrite IH1.
Qed.

Lemma sum_at_perm numbers s1 s2 : s1 ≡ₚ s2 → sum_on numbers s1 = sum_on numbers s2.
Proof. intros H. apply sum_list_perm. by rewrite H. Qed.

Lemma sum_at_snoc numbers s i :
  sum_on numbers (s ++ [i]) = adder (sum_on numbers s) (at_index zero numbers i).
Proof.
  unfold sum_at. rewrite fmap_app, sum_list_app. simpl.
  by rewrite adder_zero_r.
Qed.

Lemma foldl_adder_at numbers a s :
  foldl (λ acc i, adder acc (at_index zero numbers i)) a s
  = adder a (sum_on numbers s).
Proof.
  revert a. induction s as [|i s IH]; intros a; simpl.
  - unfold sum_at. simpl. by rewrite adder_zero_r.
  - rewrite IH. unfold sum_at. simpl. by rewrite adder_assoc.
Qed.

Lemma adder_fold_sum_at numbers subset :
  adder_fold adder zero numbers subset = sum_on numbers (set_of subset).
Proof. unfold adder_fold. by rewrite foldl_adder_at, adder_zero. Qed.

Lemma sum_at_cons numbers i s :
  sum_on numbers (i :: s) = adder (at_index zero numbers i) (sum_on numbers s).
Proof. done. Qed.

Lemma sum_at_nil numbers : sum_on numbers [] = zero.
Proof. done. Qed.

Lemma at_index_Some numbers i a : numbers !! i = Some a → at_index zero numbers i = a.
Proof. unfold at_index. by intros ->. Qed.

(** Appending to [numbers] does not move the elements already there. *)
Lemma at_index_app_l numbers extra i :
  i < length numbers → at_index zero (numbers ++ extra) i = at_index zero numbers i.
Proof. intros Hi. unfold at_index. by rewrite lookup_app_l. Qed.

Lemma sum_at_app_l numbers extra s :
  (∀ i, i ∈ s → i < length numbers) →
  sum_on (numbers ++ extra) s = sum_on numbers s.
Proof.
  intros Hs. unfold sum_at. f_equal.
  apply list_fmap_ext. intros _ i Hi%list_elem_of_lookup_2.
  apply at_index_app_l. by apply Hs.
Qed.
End Algebra.

(** ** The greedy solver keeps every subset's sum *)

Lemma foldl_invariant {A B} (P : A → Prop) (f : A → B → A) l a :
  P a → (∀ a x, x ∈ l → P a → P (f a x)) → P (foldl f a l).
Proof.
  revert a. induction l as [|x l IH]; intros a Ha Hf; simpl; [done|].
  apply IH; [apply Hf; [left|done]|]. intros ???; apply Hf. by right.
Qed.

Lemma assoc_unique {A B} (l : list (A * B)) k v1 v2 :
  NoDup l.*1 → (k, v1) ∈ l → (k, v2) ∈ l → v1 = v2.
Proof.
  induction l as [|[k' v'] l IH]; simpl; intros Hnd H1 H2.
  - by apply elem_of_nil in H1.
  - apply NoDup_cons in Hnd as [Hk Hnd].
    apply elem_of_cons in H1 as [?|H1], H2 as [?|H2]; simplify_eq; try done.
    + destruct Hk. apply list_elem_of_fmap. by exists (k', v2).
    + destruct Hk. apply list_elem_of_fmap. by exists (k', v1).
    + by apply IH.
Qed.

Lemma hit_spec x y s : hit x y s = true ↔ x ∈ s ∧ y ∈ s.
Proof. unfold hit. rewrite andb_true_iff, !bool_decide_eq_true. done. Qed.

Lemma shrink_perm x y s :
  NoDup s → x ≠ y → x ∈ s → y ∈ s → s ≡ₚ x :: y :: shrink x y s.
Proof.
  intros Hs Hxy Hx Hy. unfold shrink.
  rewrite (set_remove_perm x s) at 1 by done. constructor.
  apply set_remove_perm; [by apply NoDup_set_remove|].
  apply elem_of_set_remove. naive_solver.
Qed.

Lemma NoDup_shrink x y s : NoDup s → NoDup (shrink x y s).
Proof. intros. by do 2 apply NoDup_set_remove. Qed.

Lemma elem_of_shrink i x y s : i ∈ shrink x y s → i ∈ s.
Proof. unfold shrink. rewrite !elem_of_set_remove. naive_solver. Qed.

Lemma rewritten_key x y j ks ks' : rewritten x y j ks = Some ks' → ks'.1 = ks.1.
Proof.
  unfold rewritten. destruct (hit x y ks.2); [case_bool_decide|]; naive_solver.
Qed.

Lemma omap_keys_sublist {A B} (f : A * B → option (A * B)) (l : list (A * B)) :
  (∀ ab ab', f ab = Some ab' → ab'.1 = ab.1) → (omap f l).*1 `sublist_of` l.*1.
Proof.
  intros Hf. induction l as [|ab l IH]; simpl; [done|].
  destruct (f ab) as [ab'|] eqn:E; simpl.
  - rewrite (Hf _ _ E). by constructor.
  - by constructor.
Qed.

Lemma rewritten_cases x y j k s :
  NoDup s → x ≠ y →
  match rewritten x y j (k, s) with
  | None => hit x y s = true ∧ shrink x y s = [] ∧ s ≡ₚ [x; y]
  | Some ks' =>
      ks'.1 = k
      ∧ ((hit x y s = false ∧ ks'.2 = s)
         ∨ (hit x y s = true ∧ shrink x y s ≠ []
            ∧ ks'.2 = set_add j (shrink x y s) ∧ length ks'.2 < length s))
  end.
Proof.
  intros Hs Hxy. unfold rewritten. simpl. destruct (hit x y s) eqn:Hhit.
  - apply hit_spec in Hhit as [Hx Hy].
    pose proof (shrink_perm x y s Hs Hxy Hx Hy) as Hperm.
    case_bool_decide as Hempty; simpl.
    + split_and!; [done..|]. by rewrite Hempty in Hperm.
    + split; [done|]. right. split_and!; [done..|].
      apply Permutation_length in Hperm. simpl in Hperm.
      unfold set_add. case_bool_decide; [lia|]. rewrite length_app. simpl. lia.
  - simpl. eauto.
Qed.

Lemma rewritten_size x y j subs :
  x ≠ y → (∀ ks, ks ∈ subs → NoDup ks.2) →
  total_size (omap (rewritten x y j) subs) ≤ total_size subs
  ∧ ((∃ ks, ks ∈ subs ∧ x ∈ ks.2 ∧ y ∈ ks.2) →
     total_size (omap (rewritten x y j) subs) < total_size subs).
Proof.
  intros Hxy. unfold total_size.
  induction subs as [|[k s] subs IH]; intros Hnd.
  - split; [done|]. intros (? & []%elem_of_nil & _).
  - destruct IH as [IH1 IH2]; [intros; apply Hnd; by right|].
    assert (NoDup s) as Hs by (apply (Hnd (k, s)); left).
    pose proof (rewritten_cases x y j k s Hs Hxy) as Hc.
    cbn [omap list_omap]. destruct (rewritten x y j (k, s)) as [ks'|]; simpl.
    + destruct Hc as [_ [[Hhit ->]|(Hhit & _ & _ & Hlt)]].
      * split; [lia|]. intros ([k' s'] & [?|Hin]%elem_of_cons & Hx & Hy); simplify_eq.
        -- assert (hit x y s = true) by by apply hit_spec. congruence.
        -- assert (sum_list_with (λ ks, length ks.2) (omap (rewritten x y j) subs)
                   < sum_list_with (λ ks, length ks.2) subs) by (apply IH2; eauto).
           lia.
      * split; intros; lia.
    + destruct Hc as (_ & _ & Hperm%Permutation_length). simpl in Hperm.
      split; intros; lia.
Qed.

Lemma rewrite_subsets_spec {V} x y (nums : list V) v subs out :
  list.last nums = Some v →
  NoDup subs.*1 →
  (∀ ks, ks ∈ subs → ks.1 < length out) →
  ∃ out',
    rewrite_subsets x y nums subs out
      = Return (omap (rewritten x y (length nums - 1)) subs, out')
    ∧ length out' = length out
    ∧ (∀ k, k ∉ subs.*1 → out' !! k = out !! k)
    ∧ (∀ k s, (k, s) ∈ subs →
         out' !! k = if hit x y s && bool_decide (shrink x y s = [])
                     then Some v else out !! k).
Proof.
  intros Hv. revert out. induction subs as [|[key subset] rest IH]; intros out Hnd Hlen.
  - exists out. split_and!; try done. intros ?? []%elem_of_nil.
  - simpl in Hnd. apply NoDup_cons in Hnd as [Hkey Hnd].
    assert (key < length out) as Hk by (apply (Hlen (key, subset)); left).
    cbn [rewrite_subsets omap list_omap]. unfold rewritten at 1. fold (hit x y subset).
    fold (shrink x y subset). simpl.
    destruct (hit x y subset) eqn:Hhit; simpl;
      [destruct (bool_decide (shrink x y subset = [])) eqn:Hempty; simpl|].
    + unfold getlast. rewrite Hv. simpl. unfold setitem. rewrite bool_decide_true by done. simpl.
      destruct (IH (<[key:=v]> out)) as (out' & -> & Hl & Hframe & Hkeys); [done| |].
      { intros ks Hks. rewrite length_insert. apply Hlen. by right. }
      exists out'. split_and!.
      * done.
      * by rewrite Hl, length_insert.
      * intros k Hnk. apply not_elem_of_cons in Hnk as [Hne Hnk].
        rewrite Hframe by done. by rewrite list_lookup_insert_ne.
      * intros k s [[= -> ->]|Hin]%elem_of_cons.
        -- rewrite Hhit, Hempty. simpl. rewrite Hframe by done.
           by rewrite list_lookup_insert_eq.
        -- rewrite (Hkeys _ _ Hin). destruct (hit x y s && _); [done|].
           apply list_lookup_insert_ne. intros ->. apply Hkey.
           apply list_elem_of_fmap. by exists (k, s).
    + destruct (IH out) as (out' & -> & Hl & Hframe & Hkeys); [done| |].
      { intros ks Hks. apply Hlen. by right. }
      exists out'. simpl. split_and!; try done.
      * intros k Hnk. apply not_elem_of_cons in Hnk as [Hne Hnk]. by apply Hframe.
      * intros k s [[= -> ->]|Hin]%elem_of_cons; [|by apply Hkeys].
        rewrite Hhit, Hempty. simpl. by apply Hframe.
    + destruct (IH out) as (out' & -> & Hl & Hframe & Hkeys); [done| |].
      { intros ks Hks. apply Hlen. by right. }
      exists out'. simpl. split_and!; try done.
      * intros k Hnk. apply not_elem_of_cons in Hnk as [Hne Hnk]. by apply Hframe.
      * intros k s [[= -> ->]|Hin]%elem_of_cons; [|by apply Hkeys].
        rewrite Hhit. simpl. by apply Hframe.
Qed.

(** Every ranked pair comes from a subset that holds both of its indices. *)
Lemma bump_keys p pc q : q ∈ (bump p pc).*1 → q = p ∨ q ∈ pc.*1.
Proof.
  induction pc as [|[q' c] pc IH]; simpl.
  - rewrite list_elem_of_singleton. auto.
  - case_bool_decide; simpl; rewrite !elem_of_cons; naive_solver.
Qed.

Lemma count_pairs_keys subs q :
  q ∈ (count_pairs subs).*1 →
  q.1 < q.2 ∧ ∃ ks, ks ∈ subs ∧ q.1 ∈ ks.2 ∧ q.2 ∈ ks.2.
Proof.
  revert q. unfold count_pairs.
  apply (foldl_invariant (λ pc : list ((nat * nat) * nat), ∀ q, q ∈ pc.*1 →
           q.1 < q.2 ∧ ∃ ks, ks ∈ subs ∧ q.1 ∈ ks.2 ∧ q.2 ∈ ks.2)).
  { intros q []%elem_of_nil. }
  intros pc ks Hks Hpc. apply foldl_invariant; [done|].
  intros pc1 x Hx Hpc1. apply foldl_invariant; [done|].
  intros pc2 y Hy Hpc2. case_bool_decide; [|done].
  intros q [->|Hq]%bump_keys; [|by apply Hpc2]. simpl. eauto.
Qed.

Lemma insert_by_count_perm e l : insert_by_count e l ≡ₚ e :: l.
Proof.
  induction l as [|h t IH]; simpl; [done|].
  case_bool_decide; [|done]. rewrite IH. apply Permutation_swap.
Qed.

Lemma sorted_by_count_perm l : sorted_by_count l ≡ₚ l.
Proof.
  unfold sorted_by_count. induction l as [|e l IH]; simpl; [done|].
  by rewrite insert_by_count_perm, IH.
Qed.

Lemma pairs_by_count_spec {V} (numbers : list V) subs :
  0 < length numbers →
  ∃ pairs, pairs_by_count numbers subs = Return pairs
    ∧ ∀ q, q ∈ pairs → q.1 < q.2 ∧ ∃ ks, ks ∈ subs ∧ q.1 ∈ ks.2 ∧ q.2 ∈ ks.2.
Proof.
  intros Hlen. unfold pairs_by_count, int_math_log.
  rewrite bool_decide_false by lia. simpl. eexists. split; [done|].
  intros q Hq%subseteq_take. apply count_pairs_keys.
  by rewrite <-(sorted_by_count_perm (count_pairs subs)).
Qed.

Section Greedy.
Context {V : Type} (adder : V → V → V) (zero : V).
Context `{!AdditiveLaws adder zero}.
Context (target : nat → V) (n : nat).

Local Abbreviation sum_on := (sum_at adder zero).
Local Abbreviation inv := (inv adder zero target n).

Lemma rewrite_inv st x y a b :
  inv st → x ≠ y → numbers st !! x = Some a → numbers st !! y = Some b →
  ∃ subs' out',
    rewrite_subsets x y (numbers st ++ [adder a b]) (subsets st) (output st)
      = Return (subs', out')
    ∧ inv (State (numbers st ++ [adder a b]) subs' out')
    ∧ total_size subs' ≤ total_size (subsets st)
    ∧ ((∃ ks, ks ∈ subsets st ∧ x ∈ ks.2 ∧ y ∈ ks.2) →
       total_size subs' < total_size (subsets st)).
Proof.
  intros [Hnum Hout Hkeys Hlive Hdead] Hxy Ha Hb.
  destruct (rewrite_subsets_spec x y (numbers st ++ [adder a b]) (adder a b)
              (subsets st) (output st))
    as (out' & Heq & Hlen & Hframe & Hhits).
  { apply last_snoc. }
  { done. }
  { intros [k s] Hks. rewrite Hout. by apply Hlive in Hks as (? & _). }
  rewrite length_app in Heq. simpl in Heq.
  replace (length (numbers st) + 1 - 1) with (length (numbers st)) in Heq by lia.
  set (j := length (numbers st)) in *.
  eexists _, out'. split; [exact Heq|].
  assert (∀ ks, ks ∈ subsets st → NoDup ks.2) as Hnd.
  { intros [k s] Hks. by apply Hlive in Hks as (_ & ? & _). }
  split; [|by apply rewritten_size].
  split; simpl.
  - rewrite length_app. lia.
  - congruence.
  - eapply sublist_NoDup; [exact Hkeys|].
    apply omap_keys_sublist. intros ??. apply rewritten_key.
  - intros k s' (ks & Hks & Hrw)%list_elem_of_omap. destruct ks as [k0 s].
    destruct (Hlive _ _ Hks) as (Hk & Hs & Hvalid & Hzero & Hsum).
    pose proof (rewritten_cases x y j k0 s Hs Hxy) as Hc. rewrite Hrw in Hc.
    simpl in Hc. destruct Hc as [-> [[Hhit ->]|(Hhit & Hne & -> & _)]].
    + split_and!; [done..| | |].
      * intros i Hi. rewrite length_app. apply Hvalid in Hi. lia.
      * rewrite (Hhits _ _ Hks), Hhit. done.
      * by rewrite sum_at_app_l.
    + apply hit_spec in Hhit as Hxy'. destruct Hxy' as [Hx Hy].
      assert (j ∉ shrink x y s) as Hj.
      { intros Hin%elem_of_shrink%Hvalid. unfold j in Hin. lia. }
      split_and!; [done| | | |].
      * apply NoDup_set_add. by apply NoDup_shrink.
      * intros i [->|Hi%elem_of_shrink%Hvalid]%elem_of_set_add;
          rewrite length_app; simpl; unfold j; lia.
      * rewrite (Hhits _ _ Hks), Hhit. simpl. by rewrite bool_decide_false.
      * unfold set_add. rewrite bool_decide_false by done.
        rewrite sum_at_snoc by done. unfold at_index at 1.
        rewrite lookup_app_r by (unfold j; lia).
        replace (j - length (numbers st)) with 0 by (unfold j; lia). simpl.
        rewrite sum_at_app_l by (intros i Hi%elem_of_shrink; by apply Hvalid).
        rewrite <-Hsum.
        rewrite (sum_at_perm adder zero _ _ _ (shrink_perm x y s Hs Hxy Hx Hy)).
        rewrite !sum_at_cons, (at_index_Some zero _ _ _ Ha), (at_index_Some zero _ _ _ Hb).
        rewrite (adder_assoc a b). apply adder_comm.
  - intros k Hk Hnk. destruct (decide (k ∈ (subsets st).*1)) as [Hin|Hnin].
    + apply list_elem_of_fmap in Hin as ([k0 s] & -> & Hks). simpl in *.
      destruct (Hlive _ _ Hks) as (_ & Hs & Hvalid & Hzero & Hsum).
      pose proof (rewritten_cases x y j k0 s Hs Hxy) as Hc.
      destruct (rewritten x y j (k0, s)) as [ks'|] eqn:Hrw.
      * destruct Hnk. apply list_elem_of_fmap. exists ks'. split; [by destruct Hc|].
        apply list_elem_of_omap. eauto.
      * destruct Hc as (Hhit & Hempty & Hperm).
        rewrite (Hhits _ _ Hks), Hhit, bool_decide_true by done. simpl.
        rewrite <-Hsum, (sum_at_perm adder zero _ _ _ Hperm).
        rewrite !sum_at_cons, (at_index_Some zero _ _ _ Ha), (at_index_Some zero _ _ _ Hb).
        by rewrite sum_at_nil, (adder_zero_r adder zero).
    + rewrite Hframe by done. by apply Hdead.
Qed.

Lemma merge_pair_inv st used p :
  inv st → p.1 < p.2 → p.2 < length (numbers st) →
  ∃ st' used',
    merge_pair adder (st, used) p = Return (st', used')
    ∧ inv st'
    ∧ length (numbers st) ≤ length (numbers st')
    ∧ total_size (subsets st') ≤ total_size (subsets st)
    ∧ (p.1 ∉ used → p.2 ∉ used →
       (∃ ks, ks ∈ subsets st ∧ p.1 ∈ ks.2 ∧ p.2 ∈ ks.2) →
       total_size (subsets st') < total_size (subsets st)).
Proof.
  intros Hinv Hlt Hlen. unfold merge_pair.
  destruct (bool_decide (p.1 ∈ used) || bool_decide (p.2 ∈ used)) eqn:Hused.
  - exists st, used. split_and!; [done..|].
    intros H1 H2. apply orb_true_iff in Hused as [?%bool_decide_eq_true|?%bool_decide_eq_true]; done.
  - destruct (lookup_lt_is_Some_2 (numbers st) p.1) as [a Ha]; [lia|].
    destruct (lookup_lt_is_Some_2 (numbers st) p.2) as [b Hb]; [lia|].
    unfold getitem. rewrite Ha, Hb. simpl.
    destruct (rewrite_inv st p.1 p.2 a b) as (subs' & out' & -> & Hinv' & Hle & Hdec);
      [done|lia|done..|].
    simpl. eexists _, _. split_and!; [done|done| |done|by intros _ _].
    simpl. rewrite length_app. lia.
Qed.

Lemma merge_loop_inv pairs st used len0 :
  inv st → len0 ≤ length (numbers st) →
  (∀ p, p ∈ pairs → p.1 < p.2 ∧ p.2 < len0) →
  ∃ su, foldlM (merge_pair adder) (st, used) pairs = Return su
    ∧ inv su.1 ∧ total_size (subsets su.1) ≤ total_size (subsets st).
Proof.
  intros Hinv Hlen Hpairs.
  destruct (foldlM_invariant
    (λ su : state * list nat, inv su.1 ∧ len0 ≤ length (numbers su.1)
       ∧ total_size (subsets su.1) ≤ total_size (subsets st))
    (merge_pair adder) pairs (st, used)) as (su & Heq & ? & _ & ?).
  - simpl. split_and!; [done|done|lia].
  - intros [st1 used1] p Hp (Hinv1 & Hlen1 & Hsz1). simpl in *.
    destruct (Hpairs p Hp) as [Hlt Hlt'].
    destruct (merge_pair_inv st1 used1 p) as (st2 & used2 & Heq & ? & ? & ? & _);
      [done|done|lia|].
    exists (st2, used2). split; [done|]. simpl. split_and!; [done|lia|lia].
  - eauto.
Qed.

(** The exit branch. *)
Lemma finish_subset nums k s out a :
  out !! k = Some a → (∀ i, i ∈ s → i < length nums) →
  foldlM (λ out index,
            a ← getitem out k; b ← getitem nums index; setitem out k (adder a b))
         out s
  = Return (<[k := foldl (λ acc i, adder acc (at_index zero nums i)) a s]> out).
Proof.
  revert out a. induction s as [|i s IH]; intros out a Hk Hs; simpl.
  - by rewrite list_insert_id.
  - destruct (lookup_lt_is_Some_2 nums i) as [b Hb]; [apply Hs; left|].
    rewrite (getitem_Some _ _ _ Hk). simpl. rewrite (getitem_Some _ _ _ Hb). simpl.
    rewrite setitem_lt by by eapply lookup_lt_Some. simpl.
    rewrite (IH _ (adder a b)).
    + by rewrite list_insert_insert_eq, (at_index_Some zero _ _ _ Hb).
    + apply list_lookup_insert_eq. by eapply lookup_lt_Some.
    + intros ??. apply Hs. by right.
Qed.

Lemma finish_spec nums subs out :
  NoDup subs.*1 →
  (∀ ks, ks ∈ subs → out !! ks.1 = Some zero ∧ ∀ i, i ∈ ks.2 → i < length nums) →
  ∃ out', finish adder nums subs out = Return out'
    ∧ length out' = length out
    ∧ (∀ k, k ∉ subs.*1 → out' !! k = out !! k)
    ∧ (∀ ks, ks ∈ subs → out' !! ks.1 = Some (sum_on nums ks.2)).
Proof.
  unfold finish. revert out. induction subs as [|[k s] subs IH]; intros out Hnd Hsubs.
  - exists out. split_and!; try done. intros ? []%elem_of_nil.
  - simpl in Hnd. apply NoDup_cons in Hnd as [Hk Hnd].
    destruct (Hsubs (k, s)) as [Hzero Hvalid]; [left|]. simpl in *.
    rewrite (finish_subset nums k s out zero) by done. simpl.
    rewrite foldl_adder_at, adder_zero by done.
    destruct (IH (<[k:=sum_on nums s]> out)) as (out' & -> & Hlen & Hframe & Hkeys);
      [done| |].
    { intros [k' s'] Hin. destruct (Hsubs (k', s')) as [Hz ?]; [by right|].
      split; [|done]. simpl in *. rewrite list_lookup_insert_ne; [done|].
      intros ->. apply Hk. apply list_elem_of_fmap. by exists (k', s'). }
    exists out'. split_and!; [done| | |].
    + by rewrite Hlen, length_insert.
    + intros k' [Hne Hnin]%not_elem_of_cons. rewrite Hframe by done.
      by rewrite list_lookup_insert_ne.
    + intros ks [->|Hin]%elem_of_cons; [|by apply Hkeys]. simpl.
      rewrite Hframe by done. apply list_lookup_insert_eq. by eapply lookup_lt_Some.
Qed.

Lemma finish_inv st :
  inv st →
  ∃ out, finish adder (numbers st) (subsets st) (output st) = Return out
    ∧ length out = n ∧ ∀ k, k < n → out !! k = Some (target k).
Proof.
  intros [Hnum Hout Hkeys Hlive Hdead].
  destruct (finish_spec (numbers st) (subsets st) (output st))
    as (out & -> & Hlen & Hframe & Hsums); [done| |].
  { intros [k s] Hks. by destruct (Hlive _ _ Hks) as (_ & _ & ? & ? & _). }
  exists out. split_and!; [done|congruence|].
  intros k Hk. destruct (decide (k ∈ (subsets st).*1)) as [Hin|Hnin].
  - apply list_elem_of_fmap in Hin as ([k0 s] & -> & Hks).
    rewrite (Hsums _ Hks). simpl. by destruct (Hlive _ _ Hks) as (_ & _ & _ & _ & ->).
  - rewrite Hframe by done. by apply Hdead.
Qed.

(** One round either returns the targets or makes progress. *)
Lemma round_spec st :
  inv st →
  (∃ out, round adder st = Return (inl out)
          ∧ length out = n ∧ ∀ k, k < n → out !! k = Some (target k))
  ∨ (∃ st', round adder st = Return (inr st')
            ∧ inv st' ∧ total_size (subsets st') < total_size (subsets st)).
Proof.
  intros Hinv. unfold round.
  destruct (pairs_by_count_spec (numbers st) (subsets st)) as (pairs & -> & Hpairs);
    [apply Hinv|]. simpl.
  destruct pairs as [|p pairs].
  - left. rewrite bool_decide_true by done.
    destruct (finish_inv st Hinv) as (out & -> & ?). eauto.
  - right. rewrite bool_decide_false by done.
    assert (∀ q, q ∈ p :: pairs → q.1 < q.2 ∧ q.2 < length (numbers st)) as Hvalid.
    { intros q (? & [k s] & Hks & _ & Hq2)%Hpairs. split; [done|].
      destruct (inv_live _ _ _ _ _ Hinv _ _ Hks) as (_ & _ & Hs & _). by apply Hs. }
    destruct (Hpairs p) as [Hlt Hex]; [left|].
    destruct (Hvalid p) as [_ Hlen]; [left|].
    cbn [foldlM].
    destruct (merge_pair_inv st [] p Hinv Hlt Hlen)
      as (st1 & used1 & -> & Hinv1 & Hlen1 & _ & Hdec). simpl.
    destruct (merge_loop_inv pairs st1 used1 (length (numbers st)))
      as (su & -> & Hinv2 & Hle); [done|done| |].
    { intros q Hq. apply Hvalid. by right. }
    simpl. eexists. split_and!; [done|done|].
    assert (total_size (subsets st1) < total_size (subsets st)); [|lia].
    apply Hdec; [apply not_elem_of_nil..|done].
Qed.
End Greedy.

(** ** [multisubset] returns the naive sums *)

Section GreedyCorrect.
Context {V : Type} (adder : V → V → V) (zero : V).
Context `{!AdditiveLaws adder zero}.

Local Abbreviation target := (target adder zero).

Lemma init_keys numbers sets :
  (subsets (init zero numbers sets)).*1 = seq 0 (length sets).
Proof.
  unfold init. simpl. rewrite fmap_imap.
  rewrite (imap_ext _ (λ i _, i)) by done. rewrite imap_seq_0. apply list_fmap_id.
Qed.

Lemma init_size numbers sets :
  total_size (subsets (init zero numbers sets)) = index_count sets.
Proof.
  unfold init, total_size, index_count. simpl.
  change (λ (i : nat) (subset : list nat), (i, set_of subset))
    with (λ (i : nat) (subset : list nat), (id i, set_of subset)).
  generalize (@id nat).
  induction sets as [|s l IH]; intros f; simpl; [done|].
  f_equal. apply (IH (f ∘ Datatypes.S)).
Qed.

Lemma init_inv numbers sets :
  numbers ≠ [] → valid_indices numbers sets →
  inv adder zero (target numbers sets) (length sets) (init zero numbers sets).
Proof.
  intros Hne Hvalid. split.
  - simpl. destruct numbers; [done|simpl; lia].
  - simpl. apply length_replicate.
  - rewrite init_keys. apply NoDup_seq.
  - intros k s (i & s0 & [= -> ->] & Hs0)%elem_of_lookup_imap.
    pose proof (lookup_lt_Some _ _ _ Hs0) as Hlt.
    split_and!; [done|apply NoDup_set_of| | |].
    + intros j Hj. apply (proj1 (elem_of_set_of _ _)) in Hj.
      eapply Hvalid; [|done]. by eapply list_elem_of_lookup_2.
    + simpl. by apply lookup_replicate_2.
    + simpl. unfold target, naive_sums. rewrite list_lookup_fmap, Hs0. simpl.
      by rewrite adder_fold_sum_at.
  - intros k Hk Hnk. destruct Hnk. rewrite init_keys. apply elem_of_seq. lia.
Qed.

Lemma multisubset_correct numbers sets :
  numbers ≠ [] →
  valid_indices numbers sets →
  (Z.of_nat (index_count sets) < Z.pos round_cap)%Z →
  multisubset adder zero numbers sets
  = Return (Some (naive_sums adder zero numbers sets)).
Proof.
  intros Hne Hvalid Hcap. unfold multisubset. rewrite for_range_unary.
  destruct (for_range_nat_returns (round adder)
              (inv adder zero (target numbers sets) (length sets))
              (λ out, length out = length sets
                      ∧ ∀ k, k < length sets → out !! k = Some (target numbers sets k))
              (λ st, total_size (subsets st)))
    with (n := Pos.to_nat round_cap) (s := init zero numbers sets)
    as (out & -> & Hlen & Hout).
  - intros st Hst. destruct (round_spec adder zero _ _ st Hst) as [(out & ? & ?)|(st' & ? & ?)]; eauto.
  - by apply init_inv.
  - rewrite init_size. apply Nat2Z.inj_lt. by rewrite positive_nat_Z.
  - simpl. do 2 f_equal. apply list_eq. intros k.
    destruct (decide (k < length sets)) as [Hk|Hk].
    + rewrite Hout by done. unfold target, naive_sums.
      destruct (lookup_lt_is_Some_2 sets k Hk) as [s Hs].
      by rewrite list_lookup_fmap, Hs.
    + rewrite !lookup_ge_None_2; [done|unfold naive_sums; rewrite length_fmap; lia|lia].
Qed.
End GreedyCorrect.

(** ** The power-set solver *)

Lemma mask_S (P : nat → Prop) `{∀ j, Decision (P j)} m :
  mask P (S m) = if bool_decide (P m) then mask P m + 2 ^ m else mask P m.
Proof. unfold mask. by rewrite seq_S, foldl_app. Qed.

Lemma mask_lt (P : nat → Prop) `{∀ j, Decision (P j)} m : mask P m < 2 ^ m.
Proof.
  induction m as [|m IH].
  - unfold mask. simpl. lia.
  - rewrite mask_S, Nat.pow_succ_r'. case_bool_decide; lia.
Qed.

Lemma filter_seq_S (P : nat → Prop) `{∀ j, Decision (P j)} a m :
  filter P (seq a (S m)) = filter P (seq a m) ++ (if bool_decide (P (a + m)) then [a + m] else []).
Proof.
  rewrite seq_S, filter_app. f_equal.
  rewrite filter_cons, filter_nil. case_bool_decide; by case_decide.
Qed.

Section PowerSet.
Context {V : Type} (adder : V → V → V) (zero : V).
Context `{!AdditiveLaws adder zero}.

Local Abbreviation sum_on := (sum_at adder zero).

Lemma align_spec fuel partition_size (numbers : list V) :
  0 < partition_size →
  partition_size ≤ fuel + length numbers `mod` partition_size
    ∨ length numbers `mod` partition_size = 0 →
  ∃ k, align zero fuel partition_size numbers = numbers ++ replicate k zero
       ∧ (length numbers + k) `mod` partition_size = 0.
Proof.
  intros Hps. revert numbers. induction fuel as [|fuel IH]; intros numbers Hfuel.
  - exists 0. simpl. rewrite app_nil_r, Nat.add_0_r. split; [done|].
    pose proof (Nat.mod_upper_bound (length numbers) partition_size). lia.
  - simpl. case_bool_decide as Hr.
    + destruct (IH (numbers ++ [zero])) as (k & -> & Hk).
      * rewrite length_app. simpl.
        pose proof (Nat.mod_upper_bound (length numbers) partition_size ltac:(lia)) as Hub.
        pose proof (Nat.div_mod_eq (length numbers) partition_size) as Hdm.
        destruct (decide (length numbers `mod` partition_size + 1 = partition_size)) as [Heq|Hneq].
        -- right. symmetry.
           apply (Nat.mod_unique _ _ (length numbers `div` partition_size + 1)); lia.
        -- left.
           rewrite <-(Nat.mod_unique (length numbers + 1) partition_size
                        (length numbers `div` partition_size)
                        (length numbers `mod` partition_size + 1)); lia.
      * exists (S k). rewrite <-app_assoc. split; [done|].
        rewrite length_app in Hk. simpl in Hk. by rewrite <-Nat.add_assoc in Hk.
    + exists 0. rewrite app_nil_r, Nat.add_0_r. split; [done|]. lia.
Qed.

Lemma power_set_snoc values v :
  power_set adder zero (values ++ [v])
  = power_set adder zero values ++ ((λ n, adder n v) <$> power_set adder zero values).
Proof. unfold power_set. by rewrite foldl_app. Qed.

Lemma power_set_length values :
  length (power_set adder zero values) = 2 ^ length values.
Proof.
  induction values as [|v values IH] using rev_ind; [done|].
  rewrite power_set_snoc, !length_app, length_fmap, IH. simpl.
  rewrite Nat.add_1_r, Nat.pow_succ_r'. lia.
Qed.

(** The entry of the power set at the mask of a set of positions is the
    sum of the values at these positions. *)
Lemma power_set_lookup (P : nat → Prop) `{∀ j, Decision (P j)} values :
  power_set adder zero values !! mask P (length values)
  = Some (sum_on values (filter P (seq 0 (length values)))).
Proof.
  induction values as [|v values IH] using rev_ind; [done|].
  rewrite power_set_snoc, length_app. simpl. rewrite Nat.add_1_r.
  rewrite mask_S, filter_seq_S. simpl.
  pose proof (mask_lt P (length values)) as Hlt.
  assert (sum_on (values ++ [v]) (filter P (seq 0 (length values)))
          = sum_on values (filter P (seq 0 (length values)))) as Hsame.
  { apply sum_at_app_l. intros i [_ Hi%elem_of_seq]%list_elem_of_filter. lia. }
  case_bool_decide.
  - rewrite lookup_app_r by (rewrite power_set_length; lia).
    rewrite power_set_length, list_lookup_fmap.
    replace (mask P (length values) + 2 ^ length values - 2 ^ length values)
      with (mask P (length values)) by lia.
    rewrite IH. simpl. f_equal. rewrite sum_at_snoc by done. rewrite Hsame. f_equal.
    unfold at_index. by rewrite lookup_app_r, Nat.sub_diag.
  - rewrite lookup_app_l by (rewrite power_set_length; lia).
    by rewrite IH, app_nil_r, Hsame.
Qed.
End PowerSet.

Lemma filter_all {A} (P : A → Prop) `{∀ x, Decision (P x)} (l : list A) :
  (∀ x, x ∈ l → P x) → filter P l = l.
Proof.
  induction l as [|x l IH]; intros Hl; [done|].
  rewrite filter_cons_True by (apply Hl; left). f_equal. apply IH.
  intros ??. apply Hl. by right.
Qed.

Lemma range_step_aligned q step :
  0 < step → range_step (q * step) step = (λ i, i * step) <$> seq 0 q.
Proof.
  intros Hstep. unfold range_step. do 2 f_equal.
  symmetry. apply (Nat.div_unique _ _ _ (step - 1)); lia.
Qed.

Section PowerSetCorrect.
Context {V : Type} (adder : V → V → V) (zero : V).
Context `{!AdditiveLaws adder zero}.

Local Abbreviation sum_on := (sum_at adder zero).

Lemma sum_at_app numbers s1 s2 :
  sum_on numbers (s1 ++ s2) = adder (sum_on numbers s1) (sum_on numbers s2).
Proof. unfold sum_at. by rewrite fmap_app, sum_list_app. Qed.

Lemma sum_at_zero numbers s :
  (∀ i, i ∈ s → at_index zero numbers i = zero) → sum_on numbers s = zero.
Proof.
  induction s as [|i s IH]; intros Hs; [done|].
  rewrite sum_at_cons, Hs, adder_zero by left. apply IH. intros ??. apply Hs. by right.
Qed.

(** A slice of [numbers] sums as the corresponding range of [numbers]. *)
Lemma sum_at_slice numbers (subset : list nat) a len m :
  m ≤ len →
  sum_on (take len (drop a numbers)) (filter (λ j, a + j ∈ subset) (seq 0 m))
  = sum_on numbers (filter (λ i, i ∈ subset) (seq a m)).
Proof.
  induction m as [|m IH]; intros Hm; [done|].
  rewrite !filter_seq_S, !sum_at_app, IH by lia. f_equal. simpl.
  case_bool_decide; [|done].
  rewrite !sum_at_cons, !sum_at_nil. f_equal.
  unfold at_index. rewrite lookup_take_lt by lia. by rewrite lookup_drop.
Qed.

(** The padding contributes nothing. *)
Lemma sum_at_padded numbers k (P : nat → Prop) `{∀ i, Decision (P i)} :
  sum_on (numbers ++ replicate k zero) (filter P (seq 0 (length numbers + k)))
  = sum_on numbers (filter P (seq 0 (length numbers))).
Proof.
  rewrite seq_app, filter_app, sum_at_app. simpl.
  rewrite sum_at_app_l
    by (intros i [_ Hi%elem_of_seq]%list_elem_of_filter; lia).
  rewrite (sum_at_zero _ (filter P (seq (length numbers) k))).
  - apply (adder_zero_r adder zero).
  - intros i [_ Hi%elem_of_seq]%list_elem_of_filter. unfold at_index.
    rewrite lookup_app_r by lia.
    destruct (replicate k zero !! (i - length numbers)) as [z|] eqn:Hz; [|done].
    by apply lookup_replicate in Hz as [-> _].
Qed.

Lemma subset_sum2_spec partition_size q (numbers : list V) (subset : list nat) :
  0 < partition_size → length numbers = q * partition_size →
  subset_sum2 adder zero partition_size (power_sets_of adder zero partition_size numbers) subset
  = Return (sum_on numbers (filter (λ i, i ∈ subset) (seq 0 (length numbers)))).
Proof.
  intros Hps Hlen. unfold subset_sum2, power_sets_of.
  rewrite Hlen, range_step_aligned, !length_fmap, length_seq by done.
  set (pss := (λ i, power_set adder zero (take partition_size (drop i numbers)))
                <$> ((λ i, i * partition_size) <$> seq 0 q)).
  assert (∀ i, i < q → pss !! i
            = Some (power_set adder zero (take partition_size (drop (i * partition_size) numbers))))
    as Hpss.
  { intros i Hi. unfold pss. rewrite !list_lookup_fmap, lookup_seq_lt by done. done. }
  assert (∀ q', q' ≤ q →
    foldlM (λ o i, ps ← getitem pss i;
                   v ← getitem ps (index_in_power_set partition_size i subset);
                   Return (adder o v))
           zero (seq 0 q')
    = Return (sum_on numbers (filter (λ i, i ∈ subset) (seq 0 (q' * partition_size)))))
    as Hloop; [|by apply Hloop].
  intros q'. induction q' as [|q' IH]; intros Hq'; [done|].
  rewrite seq_S, foldlM_app, IH by lia. simpl.
  rewrite (getitem_Some _ _ _ (Hpss q' ltac:(lia))). simpl.
  set (slice := take partition_size (drop (q' * partition_size) numbers)).
  assert (length slice = partition_size) as Hslice.
  { unfold slice. rewrite length_take, length_drop. nia. }
  change (index_in_power_set partition_size q' subset)
    with (mask (λ j, q' * partition_size + j ∈ subset) partition_size).
  pose proof (power_set_lookup adder zero
                (λ j, q' * partition_size + j ∈ subset) slice) as Hlk.
  rewrite Hslice in Hlk. rewrite (getitem_Some _ _ _ Hlk). simpl.
  unfold slice. rewrite sum_at_slice by done.
  rewrite Nat.add_comm, seq_app, filter_app, sum_at_app. done.
Qed.

Lemma filter_seq_perm len (subset : list nat) :
  filter (λ i, i ∈ subset) (seq 0 len) ≡ₚ set_of (filter (λ i, i < len) subset).
Proof.
  apply NoDup_Permutation.
  - apply NoDup_filter, NoDup_seq.
  - apply NoDup_set_of.
  - intros i. rewrite elem_of_set_of, !list_elem_of_filter, elem_of_seq. naive_solver lia.
Qed.

(** [multisubset2] never raises: indices that are not positions of
    [numbers] are ignored. *)
Lemma multisubset2_spec numbers sets :
  multisubset2 adder zero numbers sets
  = Return (naive_sums adder zero numbers (filter (λ i, i < length numbers) <$> sets)).
Proof.
  unfold multisubset2, int_math_log. rewrite bool_decide_false by lia.
  cbn [mbind result_bind].
  set (partition_size := 1 + int_log (length sets + 1)).
  destruct (align_spec zero partition_size partition_size numbers) as (k & -> & Hk);
    [lia|lia|].
  apply Nat.Div0.mod_divides in Hk as [q Hq].
  set (padded := numbers ++ replicate k zero).
  assert (length padded = q * partition_size) as Hlen.
  { unfold padded. rewrite length_app, length_replicate. lia. }
  assert (∀ acc (l : list (list nat)),
    foldlM (λ subset_sums subset,
              o ← subset_sum2 adder zero partition_size
                    (power_sets_of adder zero partition_size padded) subset;
              Return (subset_sums ++ [o]))
           acc l
    = Return (acc ++ naive_sums adder zero numbers
                       (filter (λ i, i < length numbers) <$> l))) as Hloop;
    [|apply (Hloop [])].
  intros acc l. revert acc. induction l as [|subset l IH]; intros acc; simpl.
  - by rewrite app_nil_r.
  - rewrite (subset_sum2_spec partition_size q) by (done || lia). simpl.
    rewrite IH, <-app_assoc. do 2 f_equal. simpl. f_equal.
    rewrite adder_fold_sum_at by done. rewrite Hlen. unfold padded.
    replace (q * partition_size) with (length numbers + k) by lia.
    rewrite (sum_at_padded numbers k (λ i, i ∈ subset)).
    apply sum_at_perm; [done|]. apply filter_seq_perm.
Qed.

Lemma multisubset2_correct numbers sets :
  valid_indices numbers sets →
  multisubset2 adder zero numbers sets = Return (naive_sums adder zero numbers sets).
Proof.
  intros Hvalid. rewrite multisubset2_spec. do 2 f_equal.
  rewrite <-(list_fmap_id sets) at 2. apply list_fmap_ext.
  intros _ subset Hin%list_elem_of_lookup_2. apply filter_all.
  intros i Hi. by apply (Hvalid subset).
Qed.
End PowerSetCorrect.

(** ** Binary literals and bits *)

Lemma string_length_app (a b : string) :
  String.length (String.append a b) = String.length a + String.length b.
Proof. induction a as [|c a IH]; simpl; [done|]. by rewrite IH. Qed.

Lemma bin_digits_length p : String.length (bin_digits p) = Pos.size_nat p.
Proof.
  induction p as [p IH|p IH|]; simpl; [| |done];
    rewrite string_length_app, IH; simpl; lia.
Qed.

Lemma bitlen_pos p : bitlen (Z.pos p) = Pos.size_nat p.
Proof. unfold bitlen, bin. rewrite string_length_app, bin_digits_length. simpl. lia. Qed.

Lemma bitlen_neg p : bitlen (Z.neg p) = S (Pos.size_nat p).
Proof. unfold bitlen, bin. rewrite string_length_app, bin_digits_length. simpl. lia. Qed.

Lemma pos_lt_pow2_size p : (Z.pos p < 2 ^ Z.of_nat (Pos.size_nat p))%Z.
Proof.
  induction p as [p IH|p IH|]; [| |done];
    cbn [Pos.size_nat]; rewrite Nat2Z.inj_succ, Z.pow_succ_r by lia; lia.
Qed.

Lemma nonneg_lt_pow2_bitlen f : (0 ≤ f)%Z → (f < 2 ^ Z.of_nat (bitlen f))%Z.
Proof.
  destruct f as [|p|p]; [done| |lia]. intros _.
  rewrite bitlen_pos. apply pos_lt_pow2_size.
Qed.

(** [f & (1 << j)] is truthy exactly when bit [j] of [f] is set. *)
Lemma land_shiftl_testbit f j :
  Z.land f (Z.shiftl 1 (Z.of_nat j)) ≠ 0%Z ↔ Z.testbit f (Z.of_nat j) = true.
Proof.
  split.
  - intros Hne. destruct (Z.testbit f (Z.of_nat j)) eqn:Hbit; [done|].
    destruct Hne. apply Z.bits_inj'. intros k Hk.
    rewrite Z.land_spec, Z.bits_0, Z.shiftl_spec by done.
    destruct (decide (k = Z.of_nat j)) as [->|Hkj].
    + by rewrite Hbit.
    + rewrite andb_false_iff. right.
      destruct (decide (k < Z.of_nat j)%Z).
      * apply Z.testbit_neg_r. lia.
      * apply Z.bits_above_log2; simpl; lia.
  - intros Hbit Hzero.
    assert (Z.testbit (Z.land f (Z.shiftl 1 (Z.of_nat j))) (Z.of_nat j) = true) as Hj.
    { rewrite Z.land_spec, Hbit, Z.shiftl_spec, Z.sub_diag by lia. done. }
    rewrite Hzero, Z.bits_0 in Hj. done.
Qed.

Lemma bits_val_spec f j m :
  Z.of_nat (bits_val f j m) = ((f / 2 ^ Z.of_nat j) `mod` 2 ^ Z.of_nat m)%Z.
Proof.
  revert j. induction m as [|m IH]; intros j.
  - simpl. by rewrite Z.mod_1_r.
  - cbn [bits_val]. rewrite Nat2Z.inj_add, Nat2Z.inj_mul, IH.
    rewrite (Nat2Z.inj_succ m), Z.pow_succ_r by lia.
    rewrite Z.rem_mul_r by lia.
    rewrite (Nat2Z.inj_succ j), Z.pow_succ_r by lia.
    rewrite (Z.mul_comm 2 (2 ^ Z.of_nat j)), <-Z.div_div by lia.
    rewrite <-Z.testbit_spec' by lia.
    f_equal. by destruct (Z.testbit f (Z.of_nat j)).
Qed.

Lemma bits_val_small f m :
  (0 ≤ f < 2 ^ Z.of_nat m)%Z → bits_val f 0 m = Z.to_nat f.
Proof.
  intros Hf. apply Nat2Z.inj. rewrite bits_val_spec. simpl.
  rewrite Z.div_1_r, Z.mod_small by done. lia.
Qed.

(** ** The reducer *)

Lemma foldl_max_le x l y : y = x ∨ y ∈ l → y ≤ foldl Nat.max x l.
Proof.
  revert x y. induction l as [|z l IH]; intros x y; simpl.
  - intros [->|Hy]; [lia|]. by apply elem_of_nil in Hy.
  - intros [->|[->|Hy]%elem_of_cons].
    + etrans; [|apply IH; by left]. lia.
    + etrans; [|apply IH; by left]. lia.
    + apply IH. by right.
Qed.

Lemma max_of_maxbitlen factors :
  factors ≠ [] → max_of (bitlen <$> factors) = Return (maxbitlen factors).
Proof. destruct factors as [|f factors]; [done|]. intros _. done. Qed.

Lemma bitlen_le_maxbitlen f factors : f ∈ factors → bitlen f ≤ maxbitlen factors.
Proof.
  intros Hf. apply foldl_max_le. right. apply list_elem_of_fmap. eauto.
Qed.

(** Counting the pairs of a relation by rows or by columns. *)
Lemma sum_list_with_add {A} (f g : A → nat) l :
  sum_list_with (λ x, f x + g x) l = sum_list_with f l + sum_list_with g l.
Proof. induction l as [|x l IH]; simpl; lia. Qed.

Lemma length_filter_sum {A} (P : A → Prop) `{∀ x, Decision (P x)} (l : list A) :
  length (filter P l) = sum_list_with (λ x, if bool_decide (P x) then 1 else 0) l.
Proof.
  induction l as [|x l IH]; [done|].
  rewrite filter_cons. simpl. case_bool_decide; case_decide; simpl; try done; lia.
Qed.

Lemma double_count {A B} (P : A → B → Prop) `{∀ x y, Decision (P x y)}
    (l1 : list A) (l2 : list B) :
  sum_list_with (λ y, length (filter (λ x, P x y) l1)) l2
  = sum_list_with (λ x, length (filter (P x) l2)) l1.
Proof.
  induction l2 as [|y l2 IH]; simpl.
  - induction l1; simpl; [done|lia].
  - rewrite IH, length_filter_sum, <-sum_list_with_add.
    clear IH. induction l1 as [|x l1 IH1]; [done|]. simpl. rewrite IH1.
    rewrite filter_cons. case_bool_decide; case_decide; simpl; try done; lia.
Qed.

Lemma sum_list_with_take_index (g : Z → nat) factors len :
  len ≤ length factors →
  sum_list_with g (take len factors)
  = sum_list_with (λ i, g (factor_at factors i)) (seq 0 len).
Proof.
  revert factors. induction len as [|len IH]; intros factors Hlen; [done|].
  destruct factors as [|f factors]; simpl in *; [lia|].
  rewrite IH by lia. f_equal. rewrite <-fmap_S_seq.
  generalize (seq 0 len). intros l. induction l; simpl; [done|]. by f_equal.
Qed.

Lemma bit_subset_spec len factors j :
  len ≤ length factors →
  bit_subset len factors j = Return (filter (bit_set factors j) (seq 0 len)).
Proof.
  unfold bit_subset. induction len as [|len IH]; intros Hlen; [done|].
  rewrite seq_S, foldlM_app, IH by lia. simpl.
  destruct (lookup_lt_is_Some_2 factors len) as [f Hf]; [lia|].
  rewrite (getitem_Some _ _ _ Hf). simpl. f_equal.
  rewrite filter_app, filter_cons, filter_nil.
  assert (bit_set factors j len ↔ Z.land f (Z.shiftl 1 (Z.of_nat j)) ≠ 0%Z) as Hbit.
  { unfold bit_set, factor_at. rewrite Hf. simpl. symmetry. apply land_shiftl_testbit. }
  case_bool_decide; case_decide; try tauto.
  - unfold set_add. rewrite bool_decide_false; [done|].
    intros [_ Hin%elem_of_seq]%list_elem_of_filter. lia.
  - by rewrite app_nil_r.
Qed.

Lemma bit_subset_short len factors j :
  length factors < len → bit_subset len factors j = Raise IndexError.
Proof.
  intros Hlen. unfold bit_subset.
  replace len with (length factors + S (len - length factors - 1)) by lia.
  rewrite seq_app, foldlM_app.
  fold (bit_subset (length factors) factors j). rewrite bit_subset_spec by done.
  cbn [mbind result_bind seq foldlM]. by rewrite getitem_None.
Qed.

Lemma bit_subsets_spec len factors maxbitlen :
  len ≤ length factors →
  bit_subsets len factors maxbitlen = Return (bit_columns len factors (maxbitlen + 1)).
Proof.
  intros Hlen. unfold bit_subsets, bit_columns. generalize (maxbitlen + 1). intros m.
  induction m as [|m IH]; [done|].
  rewrite seq_S, foldlM_app, IH, fmap_app. simpl. by rewrite bit_subset_spec.
Qed.

Lemma bit_columns_length len factors m : length (bit_columns len factors m) = m.
Proof. unfold bit_columns. by rewrite length_fmap, length_seq. Qed.

Lemma bit_columns_valid {V} (numbers : list V) factors m :
  valid_indices numbers (bit_columns (length numbers) factors m).
Proof.
  intros subset i (j & -> & _)%list_elem_of_fmap [_ Hi%elem_of_seq]%list_elem_of_filter.
  lia.
Qed.

Lemma bit_columns_count len factors m :
  len ≤ length factors →
  index_count (bit_columns len factors m) = ones_total m (take len factors).
Proof.
  intros Hlen. unfold index_count, bit_columns, ones_total, ones_below.
  rewrite (sum_list_with_take_index _ _ _ Hlen).
  rewrite <-(double_count (λ i j, bit_set factors j i)).
  generalize (seq 0 m). intros l. induction l as [|j l IH]; [done|].
  rewrite fmap_cons. cbn [sum_list_with]. rewrite IH, set_of_NoDup_id; [done|].
  apply NoDup_filter, NoDup_seq.
Qed.

Section Lincomb.
Context {V : Type} (adder : V → V → V) (zero : V).
Context `{!AdditiveLaws adder zero}.

Local Abbreviation sum := (sum_list adder zero).
Local Abbreviation sum_on := (sum_at adder zero).
Local Abbreviation radd := (repeat_add adder zero).
Local Abbreviation at_ := (at_index zero).
Local Abbreviation partial := (partial adder zero).

Lemma repeat_add_S x k : radd x (S k) = adder (radd x k) x.
Proof. done. Qed.

Lemma repeat_add_1 x : radd x 1 = x.
Proof. unfold repeat_add. simpl. apply adder_zero. Qed.

Lemma repeat_add_add x a b : radd x (a + b) = adder (radd x a) (radd x b).
Proof.
  induction a as [|a IH].
  - simpl. by rewrite adder_zero.
  - rewrite Nat.add_succ_l, !repeat_add_S, IH.
    rewrite <-!adder_assoc. f_equal. apply adder_comm.
Qed.

Lemma sum_fmap_add (g1 g2 : nat → V) l :
  adder (sum (g1 <$> l)) (sum (g2 <$> l)) = sum ((λ i, adder (g1 i) (g2 i)) <$> l).
Proof.
  induction l as [|i l IH].
  - apply adder_zero.
  - rewrite !fmap_cons. unfold sum_list in *. cbn [foldr].
    rewrite <-IH, <-!adder_assoc. f_equal.
    rewrite !adder_assoc. f_equal. apply adder_comm.
Qed.

Lemma sum_at_filter numbers (P : nat → Prop) `{∀ i, Decision (P i)} l :
  sum_on numbers (filter P l)
  = sum ((λ i, radd (at_ numbers i) (if bool_decide (P i) then 1 else 0)) <$> l).
Proof.
  induction l as [|i l IH]; [done|].
  rewrite filter_cons, fmap_cons. simpl. case_bool_decide; case_decide; try done.
  - by rewrite sum_at_cons, IH, repeat_add_1.
  - by rewrite IH, adder_zero.
Qed.

Lemma weighted_sum_index numbers weights :
  length numbers ≤ length weights →
  weighted_sum adder zero numbers weights
  = sum ((λ i, radd (at_ numbers i) (default 0 (weights !! i)))
           <$> seq 0 (length numbers)).
Proof.
  unfold weighted_sum. rewrite (foldl_adder adder zero), adder_zero.
  revert weights. induction numbers as [|x numbers IH]; intros weights Hlen; [done|].
  destruct weights as [|w weights]; simpl in Hlen; [lia|].
  simpl. f_equal. rewrite IH by lia. rewrite <-fmap_S_seq, <-list_fmap_compose. done.
Qed.

Lemma partial_0 numbers factors j : partial numbers factors j 0 = zero.
Proof.
  unfold partial. generalize (seq 0 (length numbers)). intros l.
  induction l as [|i l IH]; [done|].
  rewrite fmap_cons. unfold sum_list in *. cbn [foldr]. rewrite IH.
  apply adder_zero.
Qed.

Lemma partial_step numbers factors j m :
  adder (adder (partial numbers factors (S j) m) (partial numbers factors (S j) m))
        (sum_on numbers (filter (bit_set factors j) (seq 0 (length numbers))))
  = partial numbers factors j (S m).
Proof.
  unfold partial. rewrite sum_at_filter, !sum_fmap_add by done.
  f_equal. apply list_fmap_ext. intros _ i _. cbn [bits_val].
  rewrite <-!repeat_add_add. f_equal.
  case_bool_decide as Hbit; unfold bit_set in Hbit.
  - rewrite Hbit. simpl. lia.
  - apply not_true_is_false in Hbit. rewrite Hbit. simpl. lia.
Qed.

Lemma recombine_spec numbers factors m :
  recombine adder zero (bit_columns (length numbers) factors m)
    (Some (naive_sums adder zero numbers (bit_columns (length numbers) factors m)))
  = Return (partial numbers factors 0 m, 2 * m).
Proof.
  unfold recombine. rewrite bit_columns_length.
  set (sums := naive_sums _ _ _ _).
  assert (∀ j, j < m → sums !! j
            = Some (sum_on numbers (filter (bit_set factors j) (seq 0 (length numbers)))))
    as Hsums.
  { intros j Hj. unfold sums, naive_sums, bit_columns.
    rewrite !list_lookup_fmap, lookup_seq_lt by done. simpl. f_equal.
    rewrite adder_fold_sum_at by done. f_equal.
    apply set_of_NoDup_id, NoDup_filter, NoDup_seq. }
  assert (∀ k j, j + k = m →
    foldlM (λ oc i, let (d, c) := call_adder adder oc.1 oc.1 oc.2 in
                    s ← subscript (Some sums) i;
                    Return (call_adder adder d s c))
           (zero, 0) (reverse (seq j k))
    = Return (partial numbers factors j k, 2 * k)) as Hloop; [|by apply Hloop].
  intros k. induction k as [|k IH]; intros j Hjk.
  - by rewrite partial_0.
  - cbn [seq]. rewrite reverse_cons, foldlM_app, IH by lia.
    cbn [mbind result_bind foldlM subscript fst snd].
    rewrite (getitem_Some _ _ _ (Hsums j ltac:(lia))).
    cbn [mbind result_bind call_adder fst snd]. f_equal. unfold call_adder.
    rewrite partial_step. f_equal. lia.
Qed.

(** What [lincomb] computes on lists of any integers: each factor acts
    through its lowest [maxbitlen + 1] bits. *)
Lemma lincomb_counted_spec numbers factors :
  numbers ≠ [] → length numbers ≤ length factors →
  (Z.of_nat (ones_total (maxbitlen factors + 1) (take (length numbers) factors))
   < Z.pos round_cap)%Z →
  lincomb_counted adder zero numbers factors
  = Return (weighted_sum adder zero numbers
              ((λ f, bits_val f 0 (maxbitlen factors + 1)) <$> factors),
            2 * (maxbitlen factors + 1)).
Proof.
  intros Hne Hlen Hcap. unfold lincomb_counted.
  change ((λ f, String.length (bin f) - 2) <$> factors) with (bitlen <$> factors).
  assert (factors ≠ []) as Hfactors.
  { intros ->. destruct numbers; [done|]. simpl in Hlen. lia. }
  rewrite (max_of_maxbitlen _ Hfactors), bind_ret.
  rewrite (bit_subsets_spec _ _ _ Hlen), bind_ret.
  rewrite (multisubset_correct adder zero numbers _ Hne (bit_columns_valid _ _ _)).
  - rewrite bind_ret, recombine_spec. do 2 f_equal.
    rewrite weighted_sum_index by (rewrite length_fmap; exact Hlen).
    unfold partial. f_equal. apply list_fmap_ext. intros _ i Hi%list_elem_of_lookup_2.
    apply elem_of_seq in Hi. f_equal. rewrite list_lookup_fmap. unfold factor_at.
    destruct (lookup_lt_is_Some_2 factors i) as [f ->]; [lia|]. reflexivity.
  - rewrite (bit_columns_count _ _ _ Hlen). exact Hcap.
Qed.
End Lincomb.

(** ** Facts the claims use *)

Lemma for_range_raises {S R} (body : S → result (R + S)) p s e :
  body s = Raise e → for_range body p s = Raise e.
Proof.
  intros Hbody. rewrite for_range_unary.
  destruct (Pos.to_nat p) as [|n] eqn:Hn; [lia|]. simpl. by rewrite Hbody.
Qed.

Lemma bits_val_mod f m :
  bits_val f 0 m = Z.to_nat (f `mod` 2 ^ Z.of_nat m).
Proof.
  apply Nat2Z.inj. rewrite bits_val_spec. simpl. rewrite Z.div_1_r.
  rewrite Z2Nat.id; [done|]. apply Z.mod_pos_bound. lia.
Qed.

Lemma lincomb_short_factors {V} (adder : V → V → V) (zero : V)
    (numbers : list V) (factors : list Z) :
  length factors < length numbers → factors ≠ [] →
  lincomb adder zero numbers factors = Raise IndexError.
Proof.
  intros Hlen Hne. unfold lincomb, lincomb_counted.
  change ((λ f, String.length (bin f) - 2) <$> factors) with (bitlen <$> factors).
  rewrite (max_of_maxbitlen _ Hne), bind_ret. unfold bit_subsets.
  rewrite Nat.add_1_r. cbn [seq foldlM]. by rewrite bit_subset_short.
Qed.

Lemma solvers_agree {V} (adder : V → V → V) (zero : V)
    `{!AdditiveLaws adder zero} (numbers : list V) (sets : list (list nat)) :
  numbers ≠ [] →
  valid_indices numbers sets →
  (Z.of_nat (index_count sets) < Z.pos round_cap)%Z →
  multisubset adder zero numbers sets
  = (multisubset2 adder zero numbers sets ≫= λ sums, Return (Some sums)).
Proof.
  intros Hne Hvalid Hcap.
  rewrite (multisubset_correct adder zero numbers sets Hne Hvalid Hcap).
  by rewrite (multisubset2_correct adder zero numbers sets Hvalid), bind_ret.
Qed.

(** ** An index that no merge can bring into range *)

Lemma foldlM_raises_only {A B} (f : A → B → result A) l e :
  (∀ a y, y ∈ l → f a y = Raise e ∨ ∃ a', f a y = Return a') →
  ∀ a, foldlM f a l = Raise e ∨ ∃ a', foldlM f a l = Return a'.
Proof.
  induction l as [|y l IH]; intros Hf a; simpl; [eauto|].
  destruct (Hf a y) as [->|[a' ->]]; [left|by left|]; simpl.
  apply IH. intros ???; apply Hf. by right.
Qed.

Lemma foldlM_must_raise {A B} (f : A → B → result A) l x e :
  x ∈ l →
  (∀ a, f a x = Raise e) →
  (∀ a y, y ∈ l → f a y = Raise e ∨ ∃ a', f a y = Return a') →
  ∀ a, foldlM f a l = Raise e.
Proof.
  induction l as [|y l IH]; intros Hx Hraise Hf a; [by apply elem_of_nil in Hx|].
  simpl. apply elem_of_cons in Hx as [<-|Hx]; [by rewrite Hraise|].
  destruct (Hf a y) as [->|[a' ->]]; [left|done|]. simpl.
  apply IH; [done..|]. intros ???; apply Hf. by right.
Qed.

Lemma getitem_raises_only {A} (l : list A) i :
  getitem l i = Raise IndexError ∨ ∃ x, getitem l i = Return x.
Proof. unfold getitem. destruct (l !! i); eauto. Qed.

Lemma setitem_raises_only {A} (l : list A) i v :
  setitem l i v = Raise IndexError ∨ ∃ l', setitem l i v = Return l'.
Proof. unfold setitem. case_bool_decide; eauto. Qed.

Lemma rewrite_subsets_or_raise {V} x y (nums : list V) subs out :
  rewrite_subsets x y nums subs out = Raise IndexError
  ∨ ∃ out', rewrite_subsets x y nums subs out
            = Return (omap (rewritten x y (length nums - 1)) subs, out').
Proof.
  revert out. induction subs as [|[key subset] rest IH]; intros out; [right; by eexists|].
  cbn [rewrite_subsets omap list_omap]. unfold rewritten at 1. fold (hit x y subset).
  fold (shrink x y subset). cbn [fst snd].
  destruct (hit x y subset); [destruct (bool_decide (shrink x y subset = []))|].
  - unfold getlast. destruct (list.last nums) as [v|]; [|by left]. rewrite bind_ret.
    destruct (setitem_raises_only out key v) as [->|[out1 ->]]; [by left|].
    rewrite bind_ret. apply IH.
  - destruct (IH out) as [->|[out' ->]]; [by left|]. right. by eexists.
  - destruct (IH out) as [->|[out' ->]]; [by left|]. right. by eexists.
Qed.

(** An index other than the merged pair stays where it is. *)
Lemma rewritten_keeps x y j (subs : list (nat * list nat)) (ks : nat * list nat) :
  ks ∈ subs →
  (∃ i, i ∈ ks.2 ∧ i ≠ x ∧ i ≠ y) →
  ∃ ks', ks' ∈ omap (rewritten x y j) subs
         ∧ ∀ i, i ∈ ks.2 → i ≠ x → i ≠ y → i ∈ ks'.2.
Proof.
  intros Hks (i0 & Hi0 & Hx0 & Hy0).
  assert (∀ i, i ∈ ks.2 → i ≠ x → i ≠ y → i ∈ shrink x y ks.2) as Hshrink.
  { intros i Hi Hx Hy. unfold shrink. rewrite !elem_of_set_remove. done. }
  unfold rewritten. destruct (hit x y ks.2) eqn:Hhit;
    [destruct (bool_decide (shrink x y ks.2 = [])) eqn:Hempty|].
  - apply bool_decide_eq_true in Hempty.
    specialize (Hshrink i0 Hi0 Hx0 Hy0). rewrite Hempty in Hshrink.
    by apply elem_of_nil in Hshrink.
  - exists (ks.1, set_add j (shrink x y ks.2)). split.
    + apply list_elem_of_omap. exists ks. split; [done|].
      unfold rewritten. by rewrite Hhit, Hempty.
    + intros i Hi Hx Hy. simpl. apply elem_of_set_add. right. by apply Hshrink.
  - exists ks. split; [|done].
    apply list_elem_of_omap. exists ks. split; [done|].
    unfold rewritten. by rewrite Hhit.
Qed.

Section FarIndex.
Context {V : Type} (adder : V → V → V) (zero : V).

Lemma merge_pair_far st used p rest :
  far st → p.1 < p.2 → pending st used (p :: rest) →
  merge_pair adder (st, used) p = Raise IndexError
  ∨ ∃ st' used',
      merge_pair adder (st, used) p = Return (st', used')
      ∧ far st' ∧ pending st' used' rest
      ∧ total_size (subsets st') ≤ total_size (subsets st)
      ∧ (p.1 ∉ used → p.2 ∉ used → total_size (subsets st') < total_size (subsets st)).
Proof.
  intros [Hnum Hnd (ks0 & i0 & Hks0 & Hi0 & Hfar)] Hlt Hpend. unfold merge_pair.
  destruct (bool_decide (p.1 ∈ used) || bool_decide (p.2 ∈ used)) eqn:Hused.
  { right. exists st, used. split_and!; [done|by split; eauto| |done|].
    - intros q Hq. apply Hpend. by right.
    - intros H1 H2.
      apply orb_true_iff in Hused as [?%bool_decide_eq_true|?%bool_decide_eq_true]; done. }
  apply orb_false_iff in Hused as [H1%bool_decide_eq_false H2%bool_decide_eq_false].
  destruct (numbers st !! p.1) as [a|] eqn:Ha; [|left; unfold getitem; by rewrite Ha].
  destruct (numbers st !! p.2) as [b|] eqn:Hb;
    [|left; unfold getitem; rewrite Ha, Hb; done].
  rewrite (getitem_Some _ _ _ Ha), bind_ret, (getitem_Some _ _ _ Hb), bind_ret.
  destruct (rewrite_subsets_or_raise p.1 p.2 (numbers st ++ [adder a b])
              (subsets st) (output st)) as [->|[out' ->]]; [by left|].
  right. rewrite bind_ret. cbn [fst snd]. eexists _, _. split; [done|].
  rewrite length_app. cbn [length]. rewrite Nat.add_sub.
  set (j := length (numbers st)).
  apply lookup_lt_Some in Ha as Hxj. apply lookup_lt_Some in Hb as Hyj. fold j in Hxj, Hyj.
  destruct (rewritten_size p.1 p.2 j (subsets st)) as [Hle Hdec]; [lia|done|].
  assert (total_size (omap (rewritten p.1 p.2 j) (subsets st)) < total_size (subsets st))
    as Hsize.
  { apply Hdec. apply Hpend; [left|done..]. }
  cbn [numbers subsets output]. split_and!; [| |lia|by intros].
  - split; cbn [numbers subsets output].
    + rewrite length_app. lia.
    + intros ks' (ks & Hks & Hrw)%list_elem_of_omap.
      pose proof (rewritten_cases p.1 p.2 j ks.1 ks.2 (Hnd _ Hks) ltac:(lia)) as Hc.
      rewrite <-surjective_pairing, Hrw in Hc.
      destruct Hc as [_ [[_ ->]|(_ & _ & -> & _)]]; [by apply Hnd|].
      apply NoDup_set_add, NoDup_shrink. by apply Hnd.
    + destruct (rewritten_keeps p.1 p.2 j (subsets st) ks0 Hks0) as (ks' & Hks' & Hkeep).
      { exists i0. split; [done|]. fold j in Hfar. lia. }
      exists ks', i0. split_and!; [done| |rewrite length_app; cbn [length]; fold j; lia].
      apply Hkeep; [done|fold j in Hfar; lia..].
  - intros q Hq Hq1 Hq2. cbn [subsets].
    rewrite !elem_of_set_add in Hq1, Hq2.
    destruct (Hpend q) as (ks & Hks & Hin1 & Hin2); [by right|naive_solver..|].
    destruct (rewritten_keeps p.1 p.2 j (subsets st) ks Hks) as (ks' & Hks' & Hkeep).
    { exists q.1. naive_solver. }
    exists ks'. split; [done|]. split; apply Hkeep; naive_solver.
Qed.

Lemma merge_loop_far pairs st used :
  far st → (∀ q, q ∈ pairs → q.1 < q.2) → pending st used pairs →
  foldlM (merge_pair adder) (st, used) pairs = Raise IndexError
  ∨ ∃ su, foldlM (merge_pair adder) (st, used) pairs = Return su
          ∧ far su.1 ∧ total_size (subsets su.1) ≤ total_size (subsets st).
Proof.
  revert st used. induction pairs as [|p pairs IH]; intros st used Hfar Hlt Hpend.
  - right. exists (st, used). by split_and!.
  - cbn [foldlM].
    destruct (merge_pair_far st used p pairs Hfar) as [->|(st' & used' & -> & Hfar' & Hpend' & Hle & _)];
      [apply Hlt; left|done|by left|].
    rewrite bind_ret.
    destruct (IH st' used' Hfar') as [->|(su & -> & ? & ?)];
      [intros; apply Hlt; by right|done|by left|].
    right. exists su. split_and!; [done..|lia].
Qed.

Lemma finish_far st :
  far st → finish adder (numbers st) (subsets st) (output st) = Raise IndexError.
Proof.
  intros [_ _ (ks & i & Hks & Hi & Hfar)]. unfold finish.
  assert (∀ (k : nat) out index,
    (a ← getitem out k; b ← getitem (numbers st) index; setitem out k (adder a b))
      = Raise IndexError
    ∨ ∃ out', (a ← getitem out k; b ← getitem (numbers st) index; setitem out k (adder a b))
              = Return out') as Hstep.
  { intros k out index.
    destruct (getitem_raises_only out k) as [->|[a ->]]; [by left|]. rewrite bind_ret.
    destruct (getitem_raises_only (numbers st) index) as [->|[b ->]]; [by left|].
    rewrite bind_ret. apply setitem_raises_only. }
  apply (foldlM_must_raise _ _ ks); [done| |].
  - intros out. apply (foldlM_must_raise _ _ i); [done| |by intros; apply Hstep].
    intros out'. destruct (getitem_raises_only out' ks.1) as [->|[a ->]]; [done|].
    rewrite bind_ret, getitem_None; [done|lia].
  - intros out ks' _. apply foldlM_raises_only. intros; apply Hstep.
Qed.

Lemma round_far st :
  far st →
  round adder st = Raise IndexError
  ∨ ∃ st', round adder st = Return (inr st')
           ∧ far st' ∧ total_size (subsets st') < total_size (subsets st).
Proof.
  intros Hfar. unfold round.
  destruct (pairs_by_count_spec (numbers st) (subsets st)) as (pairs & -> & Hpairs);
    [apply Hfar|]. rewrite bind_ret.
  destruct pairs as [|p pairs].
  - left. rewrite bool_decide_true by done. by rewrite finish_far.
  - rewrite bool_decide_false by done. cbn [foldlM].
    assert (pending st [] (p :: pairs)) as Hpend.
    { intros q Hq _ _. by apply Hpairs. }
    destruct (merge_pair_far st [] p pairs Hfar)
      as [->|(st1 & used1 & -> & Hfar1 & Hpend1 & _ & Hdec)];
      [apply Hpairs; left|done|by left|].
    rewrite bind_ret.
    destruct (merge_loop_far pairs st1 used1 Hfar1) as [->|(su & -> & ? & ?)];
      [intros; apply Hpairs; by right|done|by left|].
    right. rewrite bind_ret. eexists. split_and!; [done..|].
    assert (total_size (subsets st1) < total_size (subsets st)); [|lia].
    apply Hdec; apply not_elem_of_nil.
Qed.

Lemma for_range_nat_must_raise {S R} (body : S → result (R + S))
    (I : S → Prop) (measure : S → nat) e :
  (∀ s, I s → body s = Raise e
              ∨ ∃ s', body s = Return (inr s') ∧ I s' ∧ measure s' < measure s) →
  ∀ n s, I s → measure s < n → for_range_nat body n s = Raise e.
Proof.
  intros Hbody n. induction n as [|n IH]; intros s Hs Hm; [lia|].
  simpl. destruct (Hbody s Hs) as [->|(s' & -> & Hs' & Hlt)]; [done|]. simpl.
  apply IH; [done|lia].
Qed.

Lemma multisubset_far_index (nums : list V) (sets : list (list nat)) :
  nums ≠ [] →
  (∃ subset i, subset ∈ sets ∧ i ∈ subset ∧ length nums + index_count sets ≤ i) →
  (Z.of_nat (index_count sets) < Z.pos round_cap)%Z →
  multisubset adder zero nums sets = Raise IndexError.
Proof.
  intros Hne (subset & i & Hsubset & Hi & Hfar) Hcap. unfold multisubset.
  rewrite for_range_unary.
  rewrite (for_range_nat_must_raise (round adder) far (λ st, total_size (subsets st))
             IndexError round_far); [done| |].
  - split.
    + simpl. destruct nums; [done|simpl; lia].
    + intros ks (k & s & -> & _)%elem_of_lookup_imap. apply NoDup_set_of.
    + apply list_elem_of_lookup_1 in Hsubset as [k Hk].
      exists (k, set_of subset), i. split_and!.
      * apply elem_of_lookup_imap. eauto.
      * by apply elem_of_set_of.
      * rewrite init_size. done.
  - rewrite init_size. apply Nat2Z.inj_lt. by rewrite positive_nat_Z.
Qed.
End FarIndex.

(** ** The solvers write to what they allocated only *)

Module HeapFrame.
Import Heap.
Section Frame.
Context {V : Type} (adder : V → V → V) (zero : V).
Context (n0 : nat).

Local Abbreviation M := (@Heap.M V).
Local Abbreviation keeps m Q := (@keeps V n0 _ m Q).
Local Abbreviation fresh := (fresh n0).

Lemma keeps_ret {A} (a : A) (Q : A → Prop) : Q a → keeps (ret a) Q.
Proof. intros HQ h a' h' Hlen [= <- <-]. done. Qed.

Lemma keeps_bind {A B} (m : M A) (f : A → M B) (P : A → Prop) (Q : B → Prop) :
  keeps m P → (∀ a, P a → keeps (f a) Q) → keeps (bind m f) Q.
Proof.
  intros Hm Hf h b h' Hlen. unfold bind.
  destruct (m h) as [[a h1]|e] eqn:Hmh; [|done]. simpl. intros Hfa.
  destruct (Hm h a h1 Hlen Hmh) as (Hlen1 & Htake1 & HP).
  destruct (Hf a HP h1 b h' Hlen1 Hfa) as (Hlen2 & Htake2 & HQ).
  split_and!; [done|congruence|done].
Qed.

Lemma keeps_weaken {A} (m : M A) (P Q : A → Prop) :
  keeps m P → (∀ a, P a → Q a) → keeps m Q.
Proof. intros Hm HPQ h a h' Hlen Heq. destruct (Hm h a h' Hlen Heq) as (? & ? & ?). auto. Qed.

Lemma keeps_lift {A} (r : result A) : keeps (lift r) (λ _, True).
Proof. intros h a h' Hlen. unfold lift. destruct r; [|done]. by intros [= <- <-]. Qed.

Lemma keeps_alloc (o : obj) : keeps (alloc o) (λ l, n0 ≤ l).
Proof.
  intros h l h' Hlen [= <- <-]. rewrite length_app. split_and!; [lia| |done].
  by apply take_app_le.
Qed.

Lemma keeps_read l : keeps (read l) (λ _, True).
Proof.
  intros h o h' Hlen. unfold read. case_match; [|done].
  intros ?. by simplify_eq.
Qed.

Lemma keeps_write l o : n0 ≤ l → keeps (write l o) (λ _, True).
Proof.
  intros Hl h [] h' Hlen. unfold write. case_bool_decide; [|done]. intros [= <-].
  rewrite length_insert. split_and!; [done| |done]. by apply take_insert_ge.
Qed.

Lemma keeps_read_list l : keeps (read_list l) (λ _, True).
Proof.
  eapply keeps_bind; [apply keeps_read|]. intros [xs|s|rs] _;
    [by apply keeps_ret|apply keeps_lift..].
Qed.

Lemma keeps_read_set l : keeps (read_set l) (λ _, True).
Proof.
  eapply keeps_bind; [apply keeps_read|]. intros [xs|s|rs] _;
    [apply keeps_lift|by apply keeps_ret|apply keeps_lift].
Qed.

Lemma keeps_read_refs l : keeps (read_refs l) (λ _, True).
Proof.
  eapply keeps_bind; [apply keeps_read|]. intros [xs|s|rs] _;
    [apply keeps_lift..|by apply keeps_ret].
Qed.

Lemma keeps_for_each {A B} (f : A → B → M A) (I : A → Prop) l a :
  I a → (∀ a x, x ∈ l → I a → keeps (f a x) I) → keeps (for_each f a l) I.
Proof.
  revert a. induction l as [|x l IH]; intros a Ha Hf; simpl.
  - by apply keeps_ret.
  - eapply keeps_bind; [apply Hf; [left|done]|].
    intros a' Ha'. apply IH; [done|]. intros ????. apply Hf; [by right|done].
Qed.

Lemma keeps_copy_subsets refs : keeps (copy_subsets refs) fresh.
Proof.
  apply keeps_for_each; [by apply Forall_nil|].
  intros d ir _ Hd. unfold copy_entry.
  eapply keeps_bind; [apply keeps_read_set|]. intros s _.
  eapply keeps_bind; [apply keeps_alloc|]. intros l Hl.
  apply keeps_ret. apply Forall_app. split; [done|]. by apply Forall_singleton.
Qed.

Lemma keeps_items d : keeps (items d) (λ _, True).
Proof.
  apply keeps_for_each; [done|]. intros acc kl _ _. unfold items_entry.
  eapply keeps_bind; [apply keeps_read_set|]. intros s _. by apply keeps_ret.
Qed.

Lemma keeps_finish numbers output d :
  n0 ≤ output → keeps (finish adder numbers output d) (λ _, True).
Proof.
  intros Hout. apply keeps_for_each; [done|]. intros [] kl _ _.
  eapply keeps_bind; [apply keeps_read_set|]. intros subset _.
  apply keeps_for_each; [done|]. intros [] index _ _. unfold finish_index.
  eapply keeps_bind; [apply keeps_read_list|]. intros out _.
  eapply keeps_bind; [apply keeps_lift|]. intros a _.
  eapply keeps_bind; [apply keeps_read_list|]. intros xs _.
  eapply keeps_bind; [apply keeps_lift|]. intros b _.
  eapply keeps_bind; [apply keeps_lift|]. intros out' _.
  by apply keeps_write.
Qed.

Lemma keeps_rewrite_subsets maxx maxy numbers output d :
  n0 ≤ output → fresh d →
  keeps (rewrite_subsets maxx maxy numbers output d) fresh.
Proof.
  intros Hout Hd. apply keeps_for_each; [by apply Forall_nil|].
  intros d' kl Hkl Hd'. unfold rewrite_entry.
  assert (n0 ≤ kl.2) as Hl by (by eapply Forall_forall in Hd).
  assert (fresh (d' ++ [kl])) as Hkeep.
  { apply Forall_app. split; [done|]. by apply Forall_singleton. }
  eapply keeps_bind; [apply keeps_read_set|]. intros subset _.
  destruct (bool_decide (maxx ∈ subset) && bool_decide (maxy ∈ subset));
    [|by apply keeps_ret].
  eapply keeps_bind; [by apply keeps_write|]. intros _ _.
  eapply keeps_bind; [apply keeps_read_set|]. intros subset1 _.
  eapply keeps_bind; [by apply keeps_write|]. intros _ _.
  eapply keeps_bind; [apply keeps_read_set|]. intros subset2 _.
  case_bool_decide.
  - eapply keeps_bind; [apply keeps_read_list|]. intros xs _.
    eapply keeps_bind; [apply keeps_lift|]. intros v _.
    eapply keeps_bind; [apply keeps_read_list|]. intros out _.
    eapply keeps_bind; [apply keeps_lift|]. intros out' _.
    eapply keeps_bind; [by apply keeps_write|]. intros _ _.
    by apply keeps_ret.
  - eapply keeps_bind; [apply keeps_read_list|]. intros xs _.
    eapply keeps_bind; [by apply keeps_write|]. intros _ _.
    by apply keeps_ret.
Qed.

Lemma keeps_merge_pair numbers output du p :
  n0 ≤ numbers → n0 ≤ output → fresh du.1 →
  keeps (merge_pair adder numbers output du p) (λ du', fresh du'.1).
Proof.
  intros Hnum Hout Hd. unfold merge_pair.
  destruct (bool_decide (p.1 ∈ du.2) || bool_decide (p.2 ∈ du.2)); [by apply keeps_ret|].
  eapply keeps_bind; [apply keeps_read_list|]. intros xs _.
  eapply keeps_bind; [apply keeps_lift|]. intros a _.
  eapply keeps_bind; [apply keeps_lift|]. intros b _.
  eapply keeps_bind; [by apply keeps_write|]. intros _ _.
  eapply keeps_bind; [by apply keeps_rewrite_subsets|]. intros d' Hd'.
  by apply keeps_ret.
Qed.

Lemma keeps_round numbers output d :
  n0 ≤ numbers → n0 ≤ output → fresh d →
  keeps (round adder numbers output d)
        (λ r, match r with inl _ => True | inr d' => fresh d' end).
Proof.
  intros Hnum Hout Hd. unfold round.
  eapply keeps_bind; [apply keeps_read_list|]. intros xs _.
  eapply keeps_bind; [apply keeps_items|]. intros subsets _.
  eapply keeps_bind; [apply keeps_lift|]. intros pairs _.
  case_bool_decide.
  - eapply keeps_bind; [by apply keeps_finish|]. intros _ _. by apply keeps_ret.
  - eapply keeps_bind.
    + apply (keeps_for_each _ (λ du, fresh du.1)); [done|].
      intros du p _ Hdu. by apply keeps_merge_pair.
    + intros du Hdu. by apply keeps_ret.
Qed.

Lemma keeps_rounds numbers output n d h :
  n0 ≤ numbers → n0 ≤ output → fresh d → n0 ≤ length h →
  match for_range_nat (run_round adder numbers output) n (d, h) with
  | Return (inl rh) => n0 ≤ length rh.2 ∧ take n0 rh.2 = take n0 h
  | Return (inr dh) => n0 ≤ length dh.2 ∧ take n0 dh.2 = take n0 h
  | Raise _ => True
  end.
Proof.
  intros Hnum Hout. revert d h. induction n as [|n IH]; intros d h Hd Hlen; [done|].
  cbn [for_range_nat]. unfold run_round at 1. cbn [fst snd].
  pose proof (keeps_round numbers output d Hnum Hout Hd h) as Hround.
  destruct (round adder numbers output d h) as [[[r|d'] h1]|e]; [| |done].
  - destruct (Hround _ _ Hlen eq_refl) as (? & ? & _). done.
  - destruct (Hround _ _ Hlen eq_refl) as (Hlen1 & Htake1 & Hd'). cbn [continue].
    specialize (IH d' h1 Hd' Hlen1).
    destruct (for_range_nat _ n (d', h1)) as [[rh|dh]|e]; [| |done];
      destruct IH; split; congruence.
Qed.

Lemma keeps_multisubset numbers subsets :
  keeps (multisubset adder zero numbers subsets) (λ _, True).
Proof.
  unfold multisubset.
  eapply keeps_bind; [apply keeps_read_list|]. intros xs _.
  eapply keeps_bind; [apply keeps_alloc|]. intros nl Hnl.
  eapply keeps_bind; [apply keeps_read_refs|]. intros refs _.
  eapply keeps_bind; [apply keeps_copy_subsets|]. intros d Hd.
  eapply keeps_bind; [apply keeps_alloc|]. intros ol Hol.
  intros h r h' Hlen. rewrite for_range_unary.
  pose proof (keeps_rounds nl ol (Pos.to_nat round_cap) d h Hnl Hol Hd Hlen) as Hrounds.
  destruct (for_range_nat _ _ (d, h)) as [[rh|dh]|e]; [| |done];
    intros [= <- <-]; by destruct Hrounds.
Qed.

Lemma keeps_align fuel partition_size numbers :
  n0 ≤ numbers → keeps (align zero fuel partition_size numbers) (λ _, True).
Proof.
  intros Hnum. induction fuel as [|fuel IH]; simpl; [by apply keeps_ret|].
  eapply keeps_bind; [apply keeps_read_list|]. intros xs _.
  case_bool_decide; [|by apply keeps_ret].
  eapply keeps_bind; [by apply keeps_write|]. intros _ _. apply IH.
Qed.

Lemma keeps_multisubset2 numbers subsets :
  keeps (multisubset2 adder zero numbers subsets) (λ _, True).
Proof.
  unfold multisubset2.
  eapply keeps_bind; [apply keeps_read_refs|]. intros refs _.
  eapply keeps_bind; [apply keeps_lift|]. intros lg _.
  eapply keeps_bind; [apply keeps_read_list|]. intros xs _.
  eapply keeps_bind; [apply keeps_alloc|]. intros nl Hnl.
  eapply keeps_bind; [by apply keeps_align|]. intros _ _.
  eapply keeps_bind; [apply keeps_read_list|]. intros xs' _.
  eapply keeps_bind.
  - apply (keeps_for_each _ (λ _, True)); [done|]. intros sums r _ _. unfold sum_entry.
    eapply keeps_bind; [apply keeps_read_set|]. intros subset _.
    eapply keeps_bind; [apply keeps_lift|]. intros o _. by apply keeps_ret.
  - intros sums _. eapply keeps_weaken; [apply keeps_alloc|done].
Qed.
End Frame.
End HeapFrame.

(** ** The store model computes what the value model computes *)

Module HeapSim.
Section Simulation.
Context {V : Type} (adder : V → V → V) (zero : V).

Local Abbreviation M := (@Heap.M V).
Local Abbreviation store := (list (@Heap.obj V)).
Local Abbreviation loc := Heap.loc.
Local Abbreviation OList := Heap.OList.
Local Abbreviation OSet := Heap.OSet.
Local Abbreviation ORefs := Heap.ORefs.
Local Abbreviation bind := Heap.bind.
Local Abbreviation ret := Heap.ret.
Local Abbreviation lift := Heap.lift.
Local Abbreviation read := Heap.read.
Local Abbreviation write := Heap.write.
Local Abbreviation alloc := Heap.alloc.
Local Abbreviation read_list := Heap.read_list.
Local Abbreviation read_set := Heap.read_set.
Local Abbreviation read_refs := Heap.read_refs.
Local Abbreviation for_each := Heap.for_each.
Local Abbreviation shows := (@shows V).
Local Abbreviation rep := (@rep V).
Local Abbreviation copies := (@copies V).
Local Abbreviation called_on := (@called_on V).

Lemma bind_eq {A B} (m : M A) (f : A → M B) h a h' :
  m h = Return (a, h') → bind m f h = f a h'.
Proof. unfold Heap.bind. by intros ->. Qed.

Lemma bind_raise {A B} (m : M A) (f : A → M B) h e :
  m h = Raise e → bind m f h = Raise e.
Proof. unfold Heap.bind. by intros ->. Qed.

Lemma bind_assoc {A B C} (m : M A) (f : A → M B) (g : B → M C) h :
  bind (bind m f) g h = bind m (λ a, bind (f a) g) h.
Proof. unfold Heap.bind. by destruct (m h). Qed.

Lemma bind_lift {A B} (r : result A) (f : A → M B) h :
  bind (lift r) f h = match r with Return a => f a h | Raise e => Raise e end.
Proof. unfold Heap.bind, Heap.lift. by destruct r. Qed.

Lemma bind_ret_l {A B} (a : A) (f : A → M B) h : bind (ret a) f h = f a h.
Proof. done. Qed.

Lemma bind_unfold {A B} (m : M A) (f : A → M B) h :
  bind m f h = match m h with Return ah => f ah.1 ah.2 | Raise e => Raise e end.
Proof. done. Qed.

Ltac hsimpl := repeat (rewrite bind_assoc || rewrite bind_lift || rewrite bind_ret_l).

Lemma read_list_eq (h : store) l xs :
  h !! l = Some (OList xs) → read_list l h = Return (xs, h).
Proof. intros Hl. unfold Heap.read_list, Heap.bind, Heap.read. by rewrite Hl. Qed.

Lemma read_set_eq (h : store) l s :
  h !! l = Some (OSet s) → read_set l h = Return (s, h).
Proof. intros Hl. unfold Heap.read_set, Heap.bind, Heap.read. by rewrite Hl. Qed.

Lemma read_refs_eq (h : store) l rs :
  h !! l = Some (ORefs rs) → read_refs l h = Return (rs, h).
Proof. intros Hl. unfold Heap.read_refs, Heap.bind, Heap.read. by rewrite Hl. Qed.

Lemma write_eq (h : store) l o o' :
  h !! l = Some o' → write l o h = Return (tt, <[l:=o]> h).
Proof. intros Hl%lookup_lt_Some. unfold Heap.write. by rewrite bool_decide_true. Qed.

Lemma lift_eq {A} (r : result A) (h : store) :
  lift r h = match r with Return a => Return (a, h) | Raise e => Raise e end.
Proof. done. Qed.

Lemma shows_frame h h' d subs :
  shows h d subs → (∀ l, l ∈ d.*2 → h' !! l = h !! l) → shows h' d subs.
Proof.
  intros Hshows Hframe. induction Hshows as [|kl ks d subs [Hk Hl] _ IH]; [constructor|].
  constructor.
  - split; [done|]. rewrite Hframe; [done|]. simpl. left.
  - apply IH. intros l Hin. apply Hframe. simpl. by right.
Qed.

Lemma items_eq h d subs acc :
  shows h d subs →
  for_each Heap.items_entry acc d h = Return (acc ++ subs, h).
Proof.
  intros Hshows. revert acc. induction Hshows as [|kl ks d subs [Hk Hl] _ IH]; intros acc.
  - simpl. unfold Heap.ret. by rewrite app_nil_r.
  - cbn [Heap.for_each]. unfold Heap.items_entry at 1.
    erewrite bind_eq; [|erewrite bind_eq; [|by apply read_set_eq]; done].
    rewrite IH, <-app_assoc. simpl. rewrite Hk. by destruct ks.
Qed.

Lemma finish_subset_eq (h : store) nl ol nums k s out :
  nl ≠ ol → h !! nl = Some (OList nums) → h !! ol = Some (OList out) →
  for_each (Heap.finish_index adder nl ol k) tt s h
  = match foldlM (λ out index,
              a ← getitem out k; b ← getitem nums index; setitem out k (adder a b))
            out s with
    | Return out' => Return (tt, <[ol := OList out']> h)
    | Raise e => Raise e
    end.
Proof.
  intros Hne. revert h out. induction s as [|i s IH]; intros h out Hnl Hol.
  - simpl. unfold Heap.ret. by rewrite list_insert_id.
  - cbn [Heap.for_each foldlM]. unfold Heap.finish_index at 1. hsimpl.
    rewrite (bind_eq _ _ _ _ _ (read_list_eq h ol out Hol)). hsimpl.
    destruct (getitem out k) as [a|e]; [|done]. rewrite bind_ret. hsimpl.
    rewrite (bind_eq _ _ _ _ _ (read_list_eq h nl nums Hnl)). hsimpl.
    destruct (getitem nums i) as [b|e]; [|done]. rewrite bind_ret. hsimpl.
    destruct (setitem out k (adder a b)) as [out1|e]; [|done]. rewrite bind_ret.
    rewrite (bind_eq _ _ _ _ _ (write_eq h ol _ _ Hol)).
    rewrite (IH (<[ol:=OList out1]> h) out1).
    + destruct (foldlM _ out1 s); [|done]. by rewrite list_insert_insert_eq.
    + by rewrite list_lookup_insert_ne.
    + apply list_lookup_insert_eq. by eapply lookup_lt_Some.
Qed.
Lemma finish_eq (h : store) nl ol d nums subs out :
  nl ≠ ol → ol ∉ d.*2 →
  h !! nl = Some (OList nums) → h !! ol = Some (OList out) → shows h d subs →
  Heap.finish adder nl ol d h
  = match finish adder nums subs out with
    | Return out' => Return (tt, <[ol := OList out']> h)
    | Raise e => Raise e
    end.
Proof.
  intros Hne Hol_d Hnl Hol Hshows. unfold Heap.finish, finish.
  revert h out subs Hol_d Hnl Hol Hshows.
  induction d as [|kl d IH]; intros h out subs Hol_d Hnl Hol Hshows;
    inversion Hshows as [|? ks ? subs' [Hk Hl] Hrest]; subst.
  - simpl. unfold Heap.ret. by rewrite list_insert_id.
  - cbn [Heap.for_each foldlM]. hsimpl.
    rewrite (bind_eq _ _ _ _ _ (read_set_eq h _ _ Hl)).
    unfold Heap.bind at 1.
    rewrite (finish_subset_eq h nl ol nums kl.1 ks.2 out) by done. rewrite Hk.
    destruct (foldlM _ out ks.2) as [out1|e]; [|done]. rewrite bind_ret. cbn [fst snd].
    apply not_elem_of_cons in Hol_d as [Hne' Hol_d].
    rewrite (IH (<[ol:=OList out1]> h) out1 subs'); [|done| | |].
    + destruct (foldlM _ out1 subs'); [|done]. by rewrite list_insert_insert_eq.
    + by rewrite list_lookup_insert_ne.
    + apply list_lookup_insert_eq. by eapply lookup_lt_Some.
    + eapply shows_frame; [done|]. intros l Hin.
      apply list_lookup_insert_ne. by intros ->.
Qed.

(** One dictionary entry of the rewrite loop. *)
Lemma rewrite_entry_eq (h : store) x y nl ol nums out acc kl ks :
  nl ≠ ol → nl ≠ kl.2 → ol ≠ kl.2 →
  h !! nl = Some (OList nums) → h !! ol = Some (OList out) →
  kl.1 = ks.1 → h !! kl.2 = Some (OSet ks.2) →
  Heap.rewrite_entry x y nl ol acc kl h
  = if hit x y ks.2 then
      if bool_decide (shrink x y ks.2 = []) then
        match getlast nums ≫= λ v, setitem out ks.1 v with
        | Return out' =>
            Return (acc, <[ol := OList out']> (<[kl.2 := OSet (shrink x y ks.2)]> h))
        | Raise e => Raise e
        end
      else
        Return (acc ++ [kl],
                <[kl.2 := OSet (set_add (length nums - 1) (shrink x y ks.2))]> h)
    else Return (acc ++ [kl], h).
Proof.
  intros Hne Hnl_kl Hol_kl Hnl Hol Hk Hl. unfold Heap.rewrite_entry, hit.
  rewrite (bind_eq _ _ _ _ _ (read_set_eq h _ _ Hl)).
  destruct (bool_decide (x ∈ ks.2) && bool_decide (y ∈ ks.2)); [|done].
  rewrite (bind_eq _ _ _ _ _ (write_eq h _ _ _ Hl)).
  set (h1 := <[kl.2 := OSet (set_remove x ks.2)]> h).
  assert (h1 !! kl.2 = Some (OSet (set_remove x ks.2))) as Hl1.
  { apply list_lookup_insert_eq. by eapply lookup_lt_Some. }
  rewrite (bind_eq _ _ _ _ _ (read_set_eq h1 _ _ Hl1)).
  rewrite (bind_eq _ _ _ _ _ (write_eq h1 _ _ _ Hl1)).
  set (h2 := <[kl.2 := OSet (set_remove y (set_remove x ks.2))]> h1).
  assert (h2 = <[kl.2 := OSet (shrink x y ks.2)]> h) as Hh2.
  { unfold h2, h1. by rewrite list_insert_insert_eq. }
  assert (h2 !! kl.2 = Some (OSet (shrink x y ks.2))) as Hl2.
  { rewrite Hh2. apply list_lookup_insert_eq. by eapply lookup_lt_Some. }
  assert (h2 !! nl = Some (OList nums)) as Hnl2.
  { rewrite Hh2. by rewrite list_lookup_insert_ne. }
  assert (h2 !! ol = Some (OList out)) as Hol2.
  { rewrite Hh2. by rewrite list_lookup_insert_ne. }
  rewrite (bind_eq _ _ _ _ _ (read_set_eq h2 _ _ Hl2)).
  case_bool_decide.
  - rewrite (bind_eq _ _ _ _ _ (read_list_eq h2 _ _ Hnl2)), bind_lift.
    destruct (getlast nums) as [v|e]; [|done]. rewrite bind_ret.
    rewrite (bind_eq _ _ _ _ _ (read_list_eq h2 _ _ Hol2)), bind_lift, Hk.
    destruct (setitem out ks.1 v) as [out'|e]; [|done].
    rewrite (bind_eq _ _ _ _ _ (write_eq h2 _ _ _ Hol2)). by rewrite Hh2.
  - rewrite (bind_eq _ _ _ _ _ (read_list_eq h2 _ _ Hnl2)).
    rewrite (bind_eq _ _ _ _ _ (write_eq h2 _ _ _ Hl2)).
    unfold Heap.ret. rewrite Hh2. by rewrite list_insert_insert_eq.
Qed.
Lemma for_each_cons {A B} (f : A → B → M A) a x l (h : store) :
  for_each f a (x :: l) h
  = match f a x h with
    | Return ah => for_each f ah.1 l ah.2
    | Raise e => Raise e
    end.
Proof. done. Qed.

Lemma rewrite_subsets_eq x y nl ol (nums : list V) d :
  nl ≠ ol →
  ∀ subs (h : store) acc out,
    NoDup d.*2 → nl ∉ d.*2 → ol ∉ d.*2 →
    h !! nl = Some (OList nums) → h !! ol = Some (OList out) → shows h d subs →
    match rewrite_subsets x y nums subs out with
    | Return r =>
        ∃ d' h', for_each (Heap.rewrite_entry x y nl ol) acc d h = Return (acc ++ d', h')
                 ∧ h' !! nl = Some (OList nums) ∧ h' !! ol = Some (OList r.2)
                 ∧ shows h' d' r.1 ∧ d'.*2 `sublist_of` d.*2
                 ∧ (∀ l, l ≠ ol → l ∉ d.*2 → h' !! l = h !! l)
    | Raise e => for_each (Heap.rewrite_entry x y nl ol) acc d h = Raise e
    end.
Proof.
  intros Hne. induction d as [|kl d IH]; intros subs h acc out Hnd Hnl_d Hol_d Hnl Hol Hshows;
    inversion Hshows as [|? [key subset] ? rest [Hk Hl] Hrest]; subst.
  - simpl. exists [], h. rewrite app_nil_r. by split_and!.
  - cbn [fst snd] in Hk, Hl. rewrite fmap_cons in Hnd, Hnl_d, Hol_d.
    apply NoDup_cons in Hnd as [Hkl_d Hnd].
    apply not_elem_of_cons in Hnl_d as [Hnl_kl Hnl_d].
    apply not_elem_of_cons in Hol_d as [Hol_kl Hol_d].
    assert (kl.2 < length h) as Hlen by by eapply lookup_lt_Some.
    cbn [rewrite_subsets]. rewrite !for_each_cons.
    rewrite !(rewrite_entry_eq h x y nl ol nums out acc kl (key, subset)) by done.
    fold (hit x y subset). fold (shrink x y subset). cbn [fst snd].
    destruct (hit x y subset); [destruct (bool_decide (shrink x y subset = []))|].
    + destruct (getlast nums) as [v|e]; [|done]. rewrite !bind_ret.
      destruct (setitem out key v) as [out'|e]; [|done]. rewrite bind_ret. cbn [fst snd].
      set (h3 := <[ol:=OList out']> (<[kl.2:=OSet (shrink x y subset)]> h)).
      specialize (IH rest h3 acc out' Hnd Hnl_d Hol_d).
      destruct (rewrite_subsets x y nums rest out') as [r|e].
      * destruct IH as (d' & h' & -> & ? & ? & ? & ? & Hframe).
        { unfold h3. by rewrite !list_lookup_insert_ne. }
        { unfold h3. apply list_lookup_insert_eq. rewrite length_insert.
          by eapply lookup_lt_Some. }
        { eapply shows_frame; [done|]. intros l Hin. unfold h3.
          rewrite !list_lookup_insert_ne; [done|by intros <-..]. }
        exists d', h'. split_and!; [done..|by apply sublist_cons|].
        intros l Hl_ol [Hl_kl Hl_d]%not_elem_of_cons. rewrite Hframe by done.
        unfold h3. by rewrite !list_lookup_insert_ne.
      * apply IH.
        { unfold h3. by rewrite !list_lookup_insert_ne. }
        { unfold h3. apply list_lookup_insert_eq. rewrite length_insert.
          by eapply lookup_lt_Some. }
        { eapply shows_frame; [done|]. intros l Hin. unfold h3.
          rewrite !list_lookup_insert_ne; [done|by intros <-..]. }
    + cbn [fst snd].
      set (s' := set_add (length nums - 1) (shrink x y subset)).
      set (h3 := <[kl.2:=OSet s']> h).
      specialize (IH rest h3 (acc ++ [kl]) out Hnd Hnl_d Hol_d).
      destruct (rewrite_subsets x y nums rest out) as [r|e];
        [rewrite bind_ret|cbn [mbind result_bind]].
      * destruct IH as (d' & h' & -> & ? & ? & ? & ? & Hframe).
        { unfold h3. by rewrite list_lookup_insert_ne. }
        { unfold h3. by rewrite list_lookup_insert_ne. }
        { eapply shows_frame; [done|]. intros l Hin. unfold h3.
          rewrite list_lookup_insert_ne; [done|by intros <-]. }
        exists (kl :: d'), h'. rewrite <-app_assoc. cbn [fst snd].
        split_and!; [done..| |by apply sublist_skip|].
        -- constructor; [|done]. split; [done|]. cbn [snd].
           rewrite Hframe by done. unfold h3. by apply list_lookup_insert_eq.
        -- intros l Hl_ol [Hl_kl Hl_d]%not_elem_of_cons. rewrite Hframe by done.
           unfold h3. by rewrite list_lookup_insert_ne.
      * apply IH.
        { unfold h3. by rewrite list_lookup_insert_ne. }
        { unfold h3. by rewrite list_lookup_insert_ne. }
        { eapply shows_frame; [done|]. intros l Hin. unfold h3.
          rewrite list_lookup_insert_ne; [done|by intros <-]. }
    + cbn [fst snd].
      specialize (IH rest h (acc ++ [kl]) out Hnd Hnl_d Hol_d Hnl Hol Hrest).
      destruct (rewrite_subsets x y nums rest out) as [r|e];
        [rewrite bind_ret|by cbn [mbind result_bind]].
      destruct IH as (d' & h' & -> & ? & ? & ? & ? & Hframe).
      exists (kl :: d'), h'. rewrite <-app_assoc. cbn [fst snd].
      split_and!; [done..| |by apply sublist_skip|].
      * constructor; [|done]. split; [done|]. cbn [snd]. by rewrite Hframe.
      * intros l Hl_ol [Hl_kl Hl_d]%not_elem_of_cons. by rewrite Hframe.
Qed.

Lemma rep_nodup h nl ol d st :
  rep h nl ol d st → nl ≠ ol ∧ (nl ∉ d.*2) ∧ (ol ∉ d.*2) ∧ NoDup d.*2.
Proof.
  intros (_ & _ & _ & Hnd). apply NoDup_cons in Hnd as [Hnl Hnd].
  apply NoDup_cons in Hnd as [Hol Hnd]. apply not_elem_of_cons in Hnl as [? ?]. done.
Qed.

Lemma merge_pair_eq (h : store) nl ol d st used p :
  rep h nl ol d st →
  follows nl ol (merge_pair adder (st, used) p)
          (Heap.merge_pair adder nl ol (d, used) p h).
Proof.
  intros Hrep. destruct (rep_nodup _ _ _ _ _ Hrep) as (Hne & Hnl_d & Hol_d & Hnd).
  destruct Hrep as (Hnl & Hol & Hshows & Hall).
  unfold merge_pair, Heap.merge_pair. cbn [fst snd].
  destruct (bool_decide (p.1 ∈ used) || bool_decide (p.2 ∈ used)).
  { exists d, h. by split. }
  rewrite (bind_eq _ _ _ _ _ (read_list_eq h _ _ Hnl)), bind_lift.
  destruct (getitem (numbers st) p.1) as [a|e]; [|done]. rewrite bind_ret, bind_lift.
  destruct (getitem (numbers st) p.2) as [b|e]; [|done]. rewrite bind_ret.
  rewrite (bind_eq _ _ _ _ _ (write_eq h _ _ _ Hnl)).
  set (nums := numbers st ++ [adder a b]). set (h1 := <[nl:=OList nums]> h).
  pose proof (rewrite_subsets_eq p.1 p.2 nl ol nums d Hne (subsets st) h1 [] (output st)
                Hnd Hnl_d Hol_d) as Hrw.
  unfold Heap.rewrite_subsets, Heap.bind at 1.
  destruct (rewrite_subsets p.1 p.2 nums (subsets st) (output st)) as [r|e].
  - destruct Hrw as (d' & h' & -> & Hnl' & Hol' & Hshows' & Hsub & _).
    + unfold h1. apply list_lookup_insert_eq. by eapply lookup_lt_Some.
    + unfold h1. by rewrite list_lookup_insert_ne.
    + eapply shows_frame; [done|]. intros l Hin. unfold h1.
      rewrite list_lookup_insert_ne; [done|by intros <-].
    + rewrite bind_ret. cbn [fst snd app]. exists d', h'. split; [done|].
      split_and!; [done..|].
      apply NoDup_cons. split.
      * apply not_elem_of_cons. split; [done|]. intros Hin. apply Hnl_d.
        eapply elem_of_sublist; done.
      * apply NoDup_cons. split; [|by eapply sublist_NoDup].
        intros Hin. apply Hol_d. eapply elem_of_sublist; done.
  - rewrite Hrw; [done| | |].
    + unfold h1. apply list_lookup_insert_eq. by eapply lookup_lt_Some.
    + unfold h1. by rewrite list_lookup_insert_ne.
    + eapply shows_frame; [done|]. intros l Hin. unfold h1.
      rewrite list_lookup_insert_ne; [done|by intros <-].
Qed.

Lemma merge_loop_eq nl ol pairs :
  ∀ (h : store) d st used,
    rep h nl ol d st →
    follows nl ol (foldlM (merge_pair adder) (st, used) pairs)
            (for_each (Heap.merge_pair adder nl ol) (d, used) pairs h).
Proof.
  induction pairs as [|p pairs IH]; intros h d st used Hrep.
  - exists d, h. by split.
  - cbn [foldlM]. rewrite for_each_cons.
    pose proof (merge_pair_eq h nl ol d st used p Hrep) as Hstep.
    destruct (merge_pair adder (st, used) p) as [[st1 used1]|e].
    + destruct Hstep as (d1 & h1 & -> & Hrep1). rewrite bind_ret. cbn [fst snd].
      by apply IH.
    + by rewrite Hstep.
Qed.

Lemma round_eq (h : store) nl ol d st :
  rep h nl ol d st →
  match round adder st with
  | Return (inl out) =>
      ∃ h', Heap.round adder nl ol d h = Return (inl ol, h')
            ∧ h' !! ol = Some (OList out)
  | Return (inr st') =>
      ∃ d' h', Heap.round adder nl ol d h = Return (inr d', h') ∧ rep h' nl ol d' st'
  | Raise e => Heap.round adder nl ol d h = Raise e
  end.
Proof.
  intros Hrep. destruct (rep_nodup _ _ _ _ _ Hrep) as (Hne & Hnl_d & Hol_d & Hnd).
  pose proof Hrep as (Hnl & Hol & Hshows & Hall).
  unfold round, Heap.round.
  rewrite (bind_eq _ _ _ _ _ (read_list_eq h _ _ Hnl)).
  rewrite (bind_eq _ _ _ _ _ (items_eq h d _ [] Hshows)). rewrite app_nil_l, bind_lift.
  destruct (pairs_by_count (numbers st) (subsets st)) as [pairs|e]; [|done].
  rewrite bind_ret. case_bool_decide.
  - rewrite bind_unfold.
    rewrite (finish_eq h nl ol d (numbers st) (subsets st) (output st)) by done.
    destruct (finish adder (numbers st) (subsets st) (output st)) as [out|e]; [|done].
    rewrite bind_ret. cbn [fst snd]. eexists. split; [done|].
    apply list_lookup_insert_eq. by eapply lookup_lt_Some.
  - pose proof (merge_loop_eq nl ol pairs h d st [] Hrep) as Hloop.
    rewrite bind_unfold.
    destruct (foldlM (merge_pair adder) (st, []) pairs) as [[st' used']|e].
    + destruct Hloop as (d' & h' & -> & Hrep'). rewrite bind_ret. cbn [fst snd].
      by exists d', h'.
    + by rewrite Hloop.
Qed.

Lemma rounds_eq nl ol n :
  ∀ (h : store) d st,
    rep h nl ol d st →
    match for_range_nat (round adder) n st with
    | Return (inl out) =>
        ∃ h', for_range_nat (Heap.run_round adder nl ol) n (d, h) = Return (inl (ol, h'))
              ∧ h' !! ol = Some (OList out)
    | Return (inr st') =>
        ∃ d' h', for_range_nat (Heap.run_round adder nl ol) n (d, h) = Return (inr (d', h'))
                 ∧ rep h' nl ol d' st'
    | Raise e => for_range_nat (Heap.run_round adder nl ol) n (d, h) = Raise e
    end.
Proof.
  induction n as [|n IH]; intros h d st Hrep.
  - by exists d, h.
  - cbn [for_range_nat]. unfold Heap.run_round at 1 3 5. cbn [fst snd].
    pose proof (round_eq h nl ol d st Hrep) as Hround.
    destruct (round adder st) as [[out|st']|e].
    + destruct Hround as (h' & -> & ?). by exists h'.
    + destruct Hround as (d' & h' & -> & Hrep'). cbn [continue]. by apply IH.
    + by rewrite Hround.
Qed.
Lemma alloc_eq (o : Heap.obj) (h : store) : alloc o h = Return (length h, h ++ [o]).
Proof. done. Qed.

Lemma copies_imap (h0 : store) refs sets :
  Forall2 (λ r s, h0 !! r = Some (OSet s)) refs sets →
  copies h0 (imap (λ i r, (i, r)) refs) (imap (λ i s, (i, set_of s)) sets).
Proof.
  intros Hall.
  change (copies h0 (imap (λ i r, (id i, r)) refs) (imap (λ i s, (id i, set_of s)) sets)).
  generalize (@id nat). induction Hall as [|r s refs sets Hr _ IH]; intros f.
  - constructor.
  - rewrite !imap_cons. constructor; [split; [done|eauto]|]. apply (IH (f ∘ S)).
Qed.

Lemma copy_loop_eq (h0 : store) irs kss :
  copies h0 irs kss →
  ∀ ext acc, ∃ d',
    for_each Heap.copy_entry acc irs (h0 ++ ext)
      = Return (acc ++ d', h0 ++ ext ++ (OSet <$> kss.*2))
    ∧ d'.*2 = seq (length (h0 ++ ext)) (length kss)
    ∧ shows (h0 ++ ext ++ (OSet <$> kss.*2)) d' kss.
Proof.
  induction 1 as [|ir ks irs kss (Hk & s & Hs & Hks) _ IH]; intros ext acc.
  - exists []. rewrite !app_nil_r. split_and!; [done..|constructor].
  - rewrite for_each_cons. unfold Heap.copy_entry at 1.
    rewrite (bind_eq _ _ _ _ _ (read_set_eq (h0 ++ ext) _ _ (lookup_app_l_Some _ _ _ _ Hs))).
    rewrite (bind_eq _ _ _ _ _ (alloc_eq _ _)). unfold Heap.ret. cbn [fst snd].
    rewrite <-Hks, <-app_assoc.
    destruct (IH (ext ++ [OSet ks.2]) (acc ++ [(ir.1, length (h0 ++ ext))]))
      as (d' & Heq & Hlocs & Hshows).
    exists ((ir.1, length (h0 ++ ext)) :: d').
    rewrite fmap_cons. cbn [fmap list_fmap length seq].
    rewrite <-!app_assoc in *. cbn [app] in *. split_and!; [done| |].
    + cbn [snd]. f_equal. rewrite Hlocs. f_equal.
      rewrite !length_app. simpl. lia.
    + constructor; [|done]. split; [done|]. cbn [snd].
      rewrite app_assoc. apply list_lookup_middle. done.
Qed.

Lemma multisubset_refines (h : store) numbers subsets xs sets :
  called_on h numbers subsets xs sets →
  match multisubset adder zero xs sets with
  | Return (Some out) =>
      ∃ r h', Heap.multisubset adder zero numbers subsets h = Return (Some r, h')
              ∧ h' !! r = Some (OList out)
  | Return None =>
      ∃ h', Heap.multisubset adder zero numbers subsets h = Return (None, h')
  | Raise e => Heap.multisubset adder zero numbers subsets h = Raise e
  end.
Proof.
  intros (Hnum & refs & Hrefs & Hsets). unfold Heap.multisubset.
  rewrite (bind_eq _ _ _ _ _ (read_list_eq h _ _ Hnum)).
  rewrite (bind_eq _ _ _ _ _ (alloc_eq _ _)).
  rewrite (bind_eq _ _ _ _ _ (read_refs_eq _ _ _ (lookup_app_l_Some _ _ _ _ Hrefs))).
  destruct (copy_loop_eq h _ _ (copies_imap h refs sets Hsets) [OList xs] [])
    as (d & Hcopy & Hlocs & Hshows).
  rewrite app_nil_l in Hcopy.
  unfold Heap.copy_subsets. rewrite (bind_eq _ _ _ _ _ Hcopy).
  rewrite (bind_eq _ _ _ _ _ (alloc_eq _ _)).
  set (h2 := h ++ [OList xs] ++ _) in *.
  set (h3 := h2 ++ _).
  assert (length d = length sets) as Hd.
  { apply Forall2_length in Hshows. by rewrite Hshows, length_imap. }
  rewrite length_imap in Hlocs. rewrite length_app in Hlocs. cbn [length] in Hlocs.
  assert (rep h3 (length h) (length h2) d (init zero xs sets)) as Hrep.
  { split_and!.
    - unfold h3, h2. rewrite <-app_assoc. by apply list_lookup_middle.
    - unfold h3. rewrite Hd. by apply list_lookup_middle.
    - eapply shows_frame; [done|]. intros l Hl. unfold h3.
      apply lookup_app_l. rewrite Hlocs in Hl. apply elem_of_seq in Hl.
      unfold h2. rewrite !length_app, length_fmap, length_fmap, length_imap. simpl. lia.
    - assert (length h2 = length h + 1 + length sets) as Hlen2.
      { unfold h2. rewrite !length_app, length_fmap, length_fmap, length_imap. simpl. lia. }
      rewrite Hlocs, Hlen2. apply NoDup_cons. split.
      + rewrite not_elem_of_cons, elem_of_seq. lia.
      + apply NoDup_cons. split; [rewrite elem_of_seq; lia|apply NoDup_seq]. }
  unfold multisubset. rewrite !for_range_unary.
  pose proof (rounds_eq (length h) (length h2) (Pos.to_nat round_cap) h3 d _ Hrep) as Hsim.
  destruct (for_range_nat (round adder) _ _) as [[out|st']|e].
  - destruct Hsim as (h' & -> & ?). rewrite bind_ret. by exists (length h2), h'.
  - destruct Hsim as (d' & h' & -> & ?). rewrite bind_ret. by exists h'.
  - by rewrite Hsim.
Qed.

Lemma align_eq (h : store) nl fuel partition_size xs :
  h !! nl = Some (OList xs) →
  Heap.align zero fuel partition_size nl h
  = Return (tt, <[nl := OList (align zero fuel partition_size xs)]> h).
Proof.
  revert h xs. induction fuel as [|fuel IH]; intros h xs Hnl.
  - simpl. unfold Heap.ret. by rewrite list_insert_id.
  - cbn [Heap.align align].
    rewrite (bind_eq _ _ _ _ _ (read_list_eq h _ _ Hnl)).
    case_bool_decide.
    + rewrite (bind_eq _ _ _ _ _ (write_eq h _ _ _ Hnl)).
      rewrite (IH _ (xs ++ [zero])).
      * by rewrite list_insert_insert_eq.
      * apply list_lookup_insert_eq. by eapply lookup_lt_Some.
    + unfold Heap.ret. by rewrite list_insert_id.
Qed.

Lemma sum_loop_eq (h : store) partition_size power_sets refs sets :
  Forall2 (λ r s, h !! r = Some (OSet s)) refs sets →
  ∀ acc,
    for_each (Heap.sum_entry adder zero partition_size power_sets) acc refs h
    = match foldlM (λ subset_sums subset,
                      o ← subset_sum2 adder zero partition_size power_sets subset;
                      Return (subset_sums ++ [o]))
                   acc sets with
      | Return sums => Return (sums, h)
      | Raise e => Raise e
      end.
Proof.
  induction 1 as [|r s refs sets Hr _ IH]; intros acc; [done|].
  rewrite for_each_cons. cbn [foldlM]. unfold Heap.sum_entry at 1.
  rewrite (bind_eq _ _ _ _ _ (read_set_eq h _ _ Hr)), bind_lift.
  destruct (subset_sum2 adder zero partition_size power_sets s) as [o|e]; [|done].
  rewrite !bind_ret. unfold Heap.ret. cbn [fst snd]. apply IH.
Qed.

Lemma multisubset2_refines (h : store) numbers subsets xs sets :
  called_on h numbers subsets xs sets →
  match multisubset2 adder zero xs sets with
  | Return out =>
      ∃ r h', Heap.multisubset2 adder zero numbers subsets h = Return (r, h')
              ∧ h' !! r = Some (OList out)
  | Raise e => Heap.multisubset2 adder zero numbers subsets h = Raise e
  end.
Proof.
  intros (Hnum & refs & Hrefs & Hsets). unfold Heap.multisubset2, multisubset2.
  rewrite (bind_eq _ _ _ _ _ (read_refs_eq h _ _ Hrefs)), bind_lift.
  rewrite (Forall2_length _ _ _ Hsets).
  destruct (int_math_log (length sets + 1)) as [lg|e]; [|done]. rewrite bind_ret.
  rewrite (bind_eq _ _ _ _ _ (read_list_eq h _ _ Hnum)).
  rewrite (bind_eq _ _ _ _ _ (alloc_eq _ _)).
  set (partition_size := 1 + lg).
  assert ((h ++ [OList xs]) !! length h = Some (OList xs)) as Hnl
    by by apply list_lookup_middle.
  rewrite (bind_eq _ _ _ _ _ (align_eq _ _ partition_size partition_size _ Hnl)).
  rewrite insert_app_r_alt, Nat.sub_diag by done. cbn [insert list_insert].
  set (padded := align zero partition_size partition_size xs).
  set (h1 := h ++ [OList padded]).
  assert (h1 !! length h = Some (OList padded)) as Hnl1 by by apply list_lookup_middle.
  rewrite (bind_eq _ _ _ _ _ (read_list_eq _ _ _ Hnl1)).
  rewrite bind_unfold, (sum_loop_eq h1 _ _ refs sets).
  - destruct (foldlM _ [] sets) as [sums|e]; [|done]. cbn [fst snd].
    rewrite alloc_eq. eexists _, _. split; [done|]. by apply list_lookup_middle.
  - eapply Forall2_impl; [done|]. intros r s Hr. by apply lookup_app_l_Some.
Qed.
End Simulation.
End HeapSim.

(** * Further lemmas *)

(** ** Computations that call an adder with state *)

Section StatefulMonad.
Context {C : Type}.

Local Abbreviation M := (@Stateful.M C).

Lemma st_bind_assoc {A B D} (m : M A) (f : A → M B) (g : B → M D) c :
  Stateful.bind (Stateful.bind m f) g c
  = Stateful.bind m (λ a, Stateful.bind (f a) g) c.
Proof. unfold Stateful.bind. by destruct (m c). Qed.

Lemma st_bind_Return {A B} (m : M A) (f : A → M B) c b c' :
  Stateful.bind m f c = Return (b, c') →
  ∃ a c1, m c = Return (a, c1) ∧ f a c1 = Return (b, c').
Proof.
  unfold Stateful.bind. destruct (m c) as [[a c1]|e]; [|done]. simpl. eauto.
Qed.

Lemma st_lift_Return {A} (r : result A) (c : C) a c' :
  Stateful.lift r c = Return (a, c') → r = Return a ∧ c' = c.
Proof. unfold Stateful.lift. destruct r; naive_solver. Qed.

Lemma pure_ret {A} (a : A) : pure_of (C:=C) (Stateful.ret a) (Return a).
Proof. done. Qed.

Lemma pure_lift {A} (r : result A) : pure_of (C:=C) (Stateful.lift r) r.
Proof. intros c. unfold Stateful.lift. by destruct r. Qed.

Lemma pure_bind {A B} (m : M A) (f : A → M B) r g :
  pure_of m r → (∀ a, pure_of (f a) (g a)) → pure_of (Stateful.bind m f) (r ≫= g).
Proof.
  intros Hm Hf c. specialize (Hm c). unfold Stateful.bind.
  destruct (m c) as [[a c1]|e]; simpl in Hm; subst r; [|done]. apply Hf.
Qed.

Lemma pure_for_each {A B} (f : A → B → M A) g l a :
  (∀ a x, pure_of (f a x) (g a x)) →
  pure_of (Stateful.for_each f a l) (foldlM g a l).
Proof.
  intros Hf. revert a. induction l as [|x l IH]; intros a; [done|].
  simpl. apply pure_bind; [apply Hf|]. intros a'. apply IH.
Qed.
End StatefulMonad.

(** ** The values do not depend on the state of the adder *)

Section Erasure.
Context {V C : Type} (adder : V → V → C → V * C) (f : V → V → V) (zero : V).
Context (adder_value : ∀ x y c, (adder x y c).1 = f x y).

Lemma pure_finish nums subs out :
  pure_of (Stateful.finish adder nums subs out) (finish f nums subs out).
Proof.
  unfold Stateful.finish, finish. apply pure_for_each. intros out1 ks.
  apply pure_for_each. intros out2 index c.
  unfold Stateful.finish_index, Stateful.bind, Stateful.lift, Stateful.call.
  destruct (getitem out2 ks.1) as [a|e]; [|done]. simpl.
  destruct (getitem nums index) as [b|e]; [|done]. simpl.
  rewrite adder_value. by destruct (setitem out2 ks.1 (f a b)).
Qed.

Lemma pure_merge_pair su p :
  pure_of (Stateful.merge_pair adder su p) (merge_pair f su p).
Proof.
  intros c. destruct su as [st used]. unfold Stateful.merge_pair, merge_pair.
  cbn [fst snd].
  destruct (bool_decide (p.1 ∈ used) || bool_decide (p.2 ∈ used)); [done|].
  unfold Stateful.bind, Stateful.lift, Stateful.call.
  destruct (getitem (numbers st) p.1) as [a|e]; [|done]. simpl.
  destruct (getitem (numbers st) p.2) as [b|e]; [|done]. simpl.
  rewrite adder_value.
  by destruct (rewrite_subsets p.1 p.2 (numbers st ++ [f a b]) (subsets st) (output st)).
Qed.

Lemma pure_round st : pure_of (Stateful.round adder st) (round f st).
Proof.
  unfold Stateful.round, round. apply pure_bind; [apply pure_lift|]. intros pairs.
  case_bool_decide.
  - apply pure_bind; [apply pure_finish|]. intros out. apply pure_ret.
  - apply pure_bind; [apply pure_for_each, pure_merge_pair|]. intros su. apply pure_ret.
Qed.

Lemma pure_rounds n st c :
  match for_range_nat (round f) n st with
  | Return (inl out) =>
      ∃ c', for_range_nat (Stateful.run_round adder) n (st, c) = Return (inl (out, c'))
  | Return (inr st') =>
      ∃ c', for_range_nat (Stateful.run_round adder) n (st, c) = Return (inr (st', c'))
  | Raise e => for_range_nat (Stateful.run_round adder) n (st, c) = Raise e
  end.
Proof.
  revert st c. induction n as [|n IH]; intros st c; simpl; [by eexists|].
  pose proof (pure_round st c) as Hround.
  assert (Stateful.run_round adder (st, c)
          = match Stateful.round adder st c with
            | Return (inl out, c) => Return (inl (out, c))
            | Return (inr st, c) => Return (inr (st, c))
            | Raise e => Raise e
            end) as -> by done.
  destruct (Stateful.round adder st c) as [[[out|st'] c']|e]; simpl in Hround;
    rewrite <-Hround; simpl.
  - by eexists.
  - apply IH.
  - done.
Qed.

Lemma pure_multisubset nums sets :
  pure_of (Stateful.multisubset adder zero nums sets) (multisubset f zero nums sets).
Proof.
  intros c. unfold Stateful.multisubset, multisubset. rewrite !for_range_unary.
  pose proof (pure_rounds (Pos.to_nat round_cap) (init zero nums sets) c) as Hrounds.
  destruct (for_range_nat (round f) _ _) as [[out|st']|e].
  - destruct Hrounds as [c' ->]. done.
  - destruct Hrounds as [c' ->]. done.
  - by rewrite Hrounds.
Qed.

Lemma pure_collect {A B} (m : A → @Stateful.M C B) (g : A → B) l acc :
  (∀ x, pure_of (m x) (Return (g x))) →
  pure_of (Stateful.for_each
             (λ acc x, Stateful.bind (m x) (λ v, Stateful.ret (acc ++ [v]))) acc l)
          (Return (acc ++ (g <$> l))).
Proof.
  intros Hm. revert acc. induction l as [|x l IH]; intros acc c.
  - simpl. by rewrite app_nil_r.
  - cbn [Stateful.for_each]. unfold Stateful.bind at 1. unfold Stateful.bind at 1.
    specialize (Hm x c). destruct (m x c) as [[v c1]|e]; [|done].
    simpl in Hm. injection Hm as ->. cbn [Stateful.ret fst snd].
    rewrite (IH _ c1). by rewrite fmap_cons, <-app_assoc.
Qed.

Lemma pure_power_set values :
  pure_of (Stateful.power_set adder zero values) (Return (power_set f zero values)).
Proof.
  unfold Stateful.power_set, power_set. generalize [zero].
  induction values as [|value values IH]; intros nps c; [done|].
  cbn [Stateful.for_each foldl]. unfold Stateful.bind at 1.
  unfold Stateful.extend_power_set at 1. unfold Stateful.bind at 1.
  pose proof (pure_collect (λ n, Stateful.call adder n value) (λ n, f n value) nps []) as Hc.
  specialize (Hc ltac:(by intros n c0; unfold Stateful.call; simpl; rewrite adder_value) c).
  destruct (Stateful.for_each _ [] nps c) as [[sums c1]|e]; [|done].
  simpl in Hc. injection Hc as ->. cbn [Stateful.ret fst snd]. apply IH.
Qed.

Lemma pure_power_sets_of partition_size nums :
  pure_of (Stateful.power_sets_of adder zero partition_size nums)
          (Return (power_sets_of f zero partition_size nums)).
Proof.
  unfold Stateful.power_sets_of, power_sets_of.
  apply (pure_collect
           (λ i, Stateful.power_set adder zero (take partition_size (drop i nums)))
           (λ i, power_set f zero (take partition_size (drop i nums))) _ []).
  intros i. apply pure_power_set.
Qed.

Lemma pure_subset_sum2 partition_size power_sets subset :
  pure_of (Stateful.subset_sum2 adder zero partition_size power_sets subset)
          (subset_sum2 f zero partition_size power_sets subset).
Proof.
  unfold Stateful.subset_sum2, subset_sum2. apply pure_for_each. intros o i c.
  unfold Stateful.bind, Stateful.lift, Stateful.call.
  destruct (getitem power_sets i) as [ps|e]; [|done]. simpl.
  destruct (getitem ps _) as [v|e]; [|done]. simpl. by rewrite adder_value.
Qed.

Lemma pure_multisubset2 nums sets :
  pure_of (Stateful.multisubset2 adder zero nums sets) (multisubset2 f zero nums sets).
Proof.
  unfold Stateful.multisubset2, multisubset2.
  apply pure_bind; [apply pure_lift|]. intros lg c.
  unfold Stateful.bind at 1.
  pose proof (pure_power_sets_of (1 + lg) (align zero (1 + lg) (1 + lg) nums) c) as Hp.
  destruct (Stateful.power_sets_of _ _ _ _ c) as [[power_sets c1]|e]; [|done].
  simpl in Hp. injection Hp as ->. cbn [fst snd].
  apply pure_for_each. intros sums subset.
  apply pure_bind; [apply pure_subset_sum2|]. intros o. apply pure_ret.
Qed.

Lemma pure_recombine subset_sums l o k :
  pure_of (Stateful.for_each (Stateful.recombine_step adder subset_sums) o l)
          (foldlM (λ oc i, let (d, c) := call_adder f oc.1 oc.1 oc.2 in
                           s ← subscript subset_sums i;
                           Return (call_adder f d s c)) (o, k) l
           ≫= λ r, Return r.1).
Proof.
  revert o k. induction l as [|i l IH]; intros o k c; [done|].
  cbn [Stateful.for_each foldlM]. unfold Stateful.bind at 1.
  unfold Stateful.recombine_step at 1.
  unfold Stateful.bind, Stateful.call, Stateful.lift. cbn [fst snd call_adder].
  destruct (subscript subset_sums i) as [s|e]; [|done]. simpl.
  rewrite !adder_value. apply (IH _ _ _).
Qed.

Lemma pure_lincomb nums factors :
  pure_of (Stateful.lincomb adder zero nums factors) (lincomb f zero nums factors).
Proof.
  intros c. unfold Stateful.lincomb, lincomb, lincomb_counted.
  unfold Stateful.bind at 1. unfold Stateful.lift at 1.
  destruct (max_of _) as [m|e]; [|done]. rewrite bind_ret. cbn [fst snd].
  unfold Stateful.bind at 1. unfold Stateful.lift at 1.
  destruct (bit_subsets _ _ _) as [subsets|e]; [|done]. rewrite bind_ret. cbn [fst snd].
  unfold Stateful.bind at 1.
  pose proof (pure_multisubset nums subsets c) as Hm.
  destruct (Stateful.multisubset adder zero nums subsets c) as [[subset_sums c1]|e];
    simpl in Hm; rewrite <-Hm; [|done].
  rewrite bind_ret. cbn [fst snd]. apply pure_recombine.
Qed.
End Erasure.

(** ** Counting the calls of the adder *)

Section CostRules.
Context (rel : nat → nat → Prop).
Context (rel_refl : ∀ a, rel a a).
Context (rel_step : ∀ a b c k, rel a b → rel c (a + k) → rel c (b + k)).

Local Abbreviation costs := (costs rel).

Lemma costs_ret {A} (a : A) (Q : A → Prop) : Q a → costs (Stateful.ret a) 0 Q.
Proof. intros Ha c a' c' [= <- <-]. rewrite Nat.add_0_r. eauto. Qed.

Lemma costs_lift {A} (r : result A) : costs (Stateful.lift r) 0 (λ a, r = Return a).
Proof.
  intros c a c' [-> ->]%st_lift_Return. rewrite Nat.add_0_r. eauto.
Qed.

Lemma costs_bind {A B} (m : Stateful.M A) (f : A → Stateful.M B) k1 k2 P Q :
  costs m k1 P → (∀ a, P a → costs (f a) k2 Q) → costs (Stateful.bind m f) (k1 + k2) Q.
Proof.
  intros Hm Hf c b c' (a & c1 & Hma & Hfb)%st_bind_Return.
  destruct (Hm _ _ _ Hma) as [Hc1 Ha]. destruct (Hf a Ha _ _ _ Hfb) as [Hc' Hb].
  split; [|done]. rewrite Nat.add_assoc. by apply (rel_step c1).
Qed.

Lemma costs_weaken {A} (m : Stateful.M A) k k' (P Q : A → Prop) :
  costs m k P → k = k' → (∀ a, P a → Q a) → costs m k' Q.
Proof. intros Hm <- HPQ c a c' Hr. destruct (Hm _ _ _ Hr). eauto. Qed.

Lemma costs_for_each {A B} (f : A → B → Stateful.M A) (I : A → Prop) k l a :
  I a → (∀ a x, x ∈ l → I a → costs (f a x) k I) →
  costs (Stateful.for_each f a l) (length l * k) I.
Proof.
  revert a. induction l as [|x l IH]; intros a Ha Hf.
  - by apply costs_ret.
  - cbn [Stateful.for_each length]. apply (costs_weaken _ (k + length l * k) _ I I); [|lia|done].
    apply (costs_bind _ _ _ _ I); [apply Hf; [left|done]|].
    intros a' Ha'. apply IH; [done|]. intros a0 y Hy. apply Hf. by right.
Qed.

Lemma costs_for_each_sum {A B} (f : A → B → Stateful.M A) (I : A → Prop)
    (k : B → nat) l a :
  I a → (∀ a x, x ∈ l → I a → costs (f a x) (k x) I) →
  costs (Stateful.for_each f a l) (sum_list_with k l) I.
Proof.
  revert a. induction l as [|x l IH]; intros a Ha Hf.
  - by apply costs_ret.
  - cbn [Stateful.for_each sum_list_with].
    apply (costs_bind _ _ _ _ I); [apply Hf; [left|done]|].
    intros a' Ha'. apply IH; [done|]. intros a0 y Hy. apply Hf. by right.
Qed.

Lemma costs_collect {A B} (m : A → Stateful.M B) (P : B → Prop) k l acc :
  (∀ x, x ∈ l → costs (m x) k P) →
  Forall P acc →
  costs (Stateful.for_each
           (λ acc x, Stateful.bind (m x) (λ v, Stateful.ret (acc ++ [v]))) acc l)
        (length l * k)
        (λ r, length r = length acc + length l ∧ Forall P r).
Proof.
  revert acc. induction l as [|x l IH]; intros acc Hm Hacc.
  - apply costs_ret. split; [simpl; lia|done].
  - intros c r c' Hr. cbn [Stateful.for_each] in Hr.
    apply st_bind_Return in Hr as (acc' & c1 & Hstep & Hrest).
    apply st_bind_Return in Hstep as (v & c2 & Hv & [= <- <-]).
    destruct (Hm x ltac:(left) _ _ _ Hv) as [Hc Pv].
    destruct (IH (acc ++ [v])) with (c := c2) (a := r) (c' := c') as [Hc' [Hlen HP]].
    + intros y Hy. apply Hm. by right.
    + apply Forall_app. split; [done|]. by apply Forall_singleton.
    + done.
    + split; [|split; [|done]].
      * cbn [length]. replace (S (length l) * k) with (k + length l * k) by lia.
        rewrite Nat.add_assoc. by apply (rel_step c2).
      * rewrite Hlen, length_app. simpl. lia.
Qed.
End CostRules.

Lemma align_length {V} (zero : V) fuel partition_size (numbers : list V) :
  0 < partition_size →
  (partition_size - length numbers `mod` partition_size) `mod` partition_size ≤ fuel →
  length (align zero fuel partition_size numbers)
  = partition_count (length numbers) partition_size * partition_size.
Proof.
  intros Hps. unfold partition_count. revert numbers.
  induction fuel as [|fuel IH]; intros numbers Hfuel.
  - simpl.
    pose proof (Nat.mod_upper_bound (length numbers) partition_size ltac:(lia)) as Hub.
    pose proof (Nat.div_mod_eq (length numbers) partition_size) as Hdm.
    destruct (decide (length numbers `mod` partition_size = 0)) as [Hr|Hr].
    + rewrite <-(Nat.div_unique (length numbers + partition_size - 1) partition_size
                 (length numbers `div` partition_size) (partition_size - 1)); lia.
    + rewrite Nat.mod_small in Hfuel by lia. lia.
  - simpl. case_bool_decide as Hr.
    + rewrite IH.
      * rewrite length_app. simpl.
        pose proof (Nat.mod_upper_bound (length numbers) partition_size ltac:(lia)) as Hub.
        pose proof (Nat.div_mod_eq (length numbers) partition_size) as Hdm.
        set (q := length numbers `div` partition_size) in *.
        set (r := length numbers `mod` partition_size) in *.
        rewrite <-(Nat.div_unique (length numbers + 1 + partition_size - 1) partition_size
                   (q + 1) r) by lia.
        rewrite <-(Nat.div_unique (length numbers + partition_size - 1) partition_size
                   (q + 1) (r - 1)) by lia.
        done.
      * rewrite length_app. simpl.
        pose proof (Nat.mod_upper_bound (length numbers) partition_size ltac:(lia)) as Hub.
        pose proof (Nat.div_mod_eq (length numbers) partition_size) as Hdm.
        set (q := length numbers `div` partition_size) in *.
        set (r := length numbers `mod` partition_size) in *.
        rewrite (Nat.mod_small (partition_size - r)) in Hfuel by lia.
        destruct (decide (r + 1 = partition_size)) as [Heq|Hneq].
        -- rewrite <-(Nat.mod_unique (length numbers + 1) partition_size (q + 1) 0) by lia.
           rewrite Nat.sub_0_r, Nat.Div0.mod_same. lia.
        -- rewrite <-(Nat.mod_unique (length numbers + 1) partition_size q (r + 1)) by lia.
           rewrite Nat.mod_small by lia. lia.
    + pose proof (Nat.div_mod_eq (length numbers) partition_size) as Hdm.
      rewrite <-(Nat.div_unique (length numbers + partition_size - 1) partition_size
                 (length numbers `div` partition_size) (partition_size - 1)); lia.
Qed.

Section Costs.
Context {V : Type} (adder : V → V → nat → V * nat) (zero : V).
Context (rel : nat → nat → Prop).
Context (rel_refl : ∀ a, rel a a).
Context (rel_step : ∀ a b c k, rel a b → rel c (a + k) → rel c (b + k)).
Context (adder_cost : ∀ x y c, rel (adder x y c).2 (c + 1)).

Local Abbreviation costs := (costs rel).

Lemma costs_call x y : costs (Stateful.call adder x y) 1 (λ _, True).
Proof.
  intros c a c' [= Hr]. split; [|done].
  pose proof (adder_cost x y c) as Hc. by rewrite Hr in Hc.
Qed.

Lemma costs_extend nps value :
  costs (Stateful.extend_power_set adder nps value) (length nps)
        (λ r, length r = 2 * length nps).
Proof.
  unfold Stateful.extend_power_set.
  apply (costs_weaken rel _ (length nps * 1 + 0) _ (λ r, length r = 2 * length nps)
           (λ r, length r = 2 * length nps)); [|lia|done].
  apply (costs_bind rel rel_step _ _ _ _ (λ sums, length sums = length nps)).
  - eapply costs_weaken;
      [apply (costs_collect rel rel_refl rel_step (λ n, Stateful.call adder n value)
                (λ _, True) 1 nps [])|done|].
    + intros n _. apply costs_call.
    + done.
    + simpl. by intros r [-> _].
  - intros sums Hsums. apply (costs_ret rel rel_refl). rewrite length_app. lia.
Qed.

Lemma costs_power_set_from values nps :
  costs (Stateful.for_each (Stateful.extend_power_set adder) nps values)
        (length nps * (2 ^ length values - 1))
        (λ r, length r = length nps * 2 ^ length values).
Proof.
  revert nps. induction values as [|value values IH]; intros nps.
  - simpl. apply (costs_weaken rel _ 0 _ (λ r, r = nps)); [|lia|intros r ->; lia].
    by apply (costs_ret rel rel_refl).
  - cbn [Stateful.for_each length].
    assert (1 ≤ 2 ^ length values) as Hpow by (apply Nat.pow_lower_bound; lia).
    apply (costs_weaken rel _ (length nps + 2 * length nps * (2 ^ length values - 1)) _
             (λ r, length r = 2 * length nps * 2 ^ length values)).
    + apply (costs_bind rel rel_step _ _ _ _ (λ r, length r = 2 * length nps));
        [apply costs_extend|].
      intros nps' Hlen. rewrite <-Hlen. apply IH.
    + rewrite Nat.pow_succ_r'. nia.
    + intros r ->. rewrite Nat.pow_succ_r'. lia.
Qed.

Lemma costs_power_set values :
  costs (Stateful.power_set adder zero values) (2 ^ length values - 1)
        (λ r, length r = 2 ^ length values).
Proof.
  unfold Stateful.power_set.
  eapply costs_weaken; [apply costs_power_set_from|simpl; lia|].
  simpl. intros r ->. lia.
Qed.

Lemma costs_power_sets_of partition_size nums q :
  0 < partition_size → length nums = q * partition_size →
  costs (Stateful.power_sets_of adder zero partition_size nums)
        (q * (2 ^ partition_size - 1)) (λ power_sets, length power_sets = q).
Proof.
  intros Hps Hlen. unfold Stateful.power_sets_of.
  rewrite Hlen, (range_step_aligned q partition_size Hps).
  eapply costs_weaken;
    [apply (costs_collect rel rel_refl rel_step
              (λ i, Stateful.power_set adder zero (take partition_size (drop i nums)))
              (λ _, True) (2 ^ partition_size - 1) _ [])| |].
  - intros x (i & -> & Hi%elem_of_seq)%list_elem_of_fmap.
    eapply costs_weaken; [apply costs_power_set| |done].
    rewrite length_take, length_drop, Hlen. f_equal. f_equal. nia.
  - done.
  - by rewrite length_fmap, length_seq.
  - simpl. intros r [-> _]. by rewrite length_fmap, length_seq.
Qed.

Lemma costs_subset_sum2 partition_size power_sets subset :
  costs (Stateful.subset_sum2 adder zero partition_size power_sets subset)
        (length power_sets) (λ _, True).
Proof.
  unfold Stateful.subset_sum2.
  eapply costs_weaken;
    [apply (costs_for_each rel rel_refl rel_step _ (λ _, True) 1)| |done].
  - done.
  - intros o i _ _.
    apply (costs_bind rel rel_step _ _ 0 1 _ _ (costs_lift rel rel_refl _)). intros ps _.
    apply (costs_bind rel rel_step _ _ 0 1 _ _ (costs_lift rel rel_refl _)). intros v _.
    apply costs_call.
  - rewrite length_seq. lia.
Qed.

Lemma costs_multisubset2 nums sets :
  costs (Stateful.multisubset2 adder zero nums sets)
        (multisubset2_calls (length nums) (length sets))
        (λ sums, length sums = length sets).
Proof.
  unfold Stateful.multisubset2, multisubset2_calls, int_math_log.
  rewrite bool_decide_false by lia.
  set (partition_size := 1 + int_log (length sets + 1)).
  set (q := partition_count (length nums) partition_size).
  intros c sums c' Hr. unfold Stateful.bind at 1 in Hr.
  unfold Stateful.lift at 1 in Hr. cbn [fst snd] in Hr.
  fold partition_size in Hr. revert c sums c' Hr.
  apply (costs_weaken rel _ (q * (2 ^ partition_size - 1) + length sets * q) _
           (λ sums, length sums = length sets)); [|lia|done].
  apply (costs_bind rel rel_step _ _ _ _ (λ power_sets, length power_sets = q)).
  - apply costs_power_sets_of; [unfold partition_size; lia|].
    apply align_length; [unfold partition_size; lia|].
    pose proof (Nat.mod_upper_bound (partition_size - length nums `mod` partition_size)
                  partition_size). lia.
  - intros power_sets Hq.
    eapply costs_weaken;
      [apply (costs_collect rel rel_refl rel_step
                (Stateful.subset_sum2 adder zero partition_size power_sets)
                (λ _, True) q sets [])|done|].
    + intros subset _. rewrite <-Hq. apply costs_subset_sum2.
    + done.
    + simpl. by intros r [-> _].
Qed.
End Costs.

Lemma for_range_nat_invariant {S R} (body : S → result (R + S))
    (I : S → Prop) (Q : R → Prop) :
  (∀ s r, I s → body s = Return r →
          match r with inl r => Q r | inr s' => I s' end) →
  ∀ n s r, I s → for_range_nat body n s = Return r →
           match r with inl r => Q r | inr s' => I s' end.
Proof.
  intros Hbody n. induction n as [|n IH]; intros s r Hs Hr.
  - by injection Hr as <-.
  - simpl in Hr. destruct (body s) as [[r1|s1]|e] eqn:Hb; simpl in Hr; [| |done].
    + injection Hr as <-. by apply (Hbody s (inl r1)).
    + apply (IH s1); [|done]. by apply (Hbody s (inr s1)).
Qed.

(** ** The calls of a round of merges

    [measure] is any quantity of the subsets that a merge of a pair lowers
    when some subset holds the pair. *)

Lemma le_step a b c k : a ≤ b → c ≤ a + k → c ≤ b + k.
Proof. lia. Qed.

Section MergeCalls.
Context {V : Type} (adder : V → V → nat → V * nat).
Context (adder_cost : ∀ x y c, (adder x y c).2 ≤ c + 1).
Context (measure : list (nat * list nat) → nat).
Context (measure_merge : ∀ x y j subs,
  x ≠ y → (∀ ks, ks ∈ subs → NoDup ks.2) →
  (∃ ks, ks ∈ subs ∧ x ∈ ks.2 ∧ y ∈ ks.2) →
  measure (omap (rewritten x y j) subs) < measure subs).

Lemma merge_pair_calls st used p rest c st' used' c' :
  (∀ ks, ks ∈ subsets st → NoDup ks.2) → p.1 < p.2 → pending st used (p :: rest) →
  Stateful.merge_pair adder (st, used) p c = Return ((st', used'), c') →
  (∀ ks, ks ∈ subsets st' → NoDup ks.2)
  ∧ pending st' used' rest
  ∧ c' + measure (subsets st') ≤ c + measure (subsets st).
Proof.
  intros Hnd Hlt Hpend. unfold Stateful.merge_pair. cbn [fst snd].
  destruct (bool_decide (p.1 ∈ used) || bool_decide (p.2 ∈ used)) eqn:Hused.
  { intros [= <- <- <-]. split_and!; [done| |done].
    intros q Hq. apply Hpend. by right. }
  apply orb_false_iff in Hused as [H1%bool_decide_eq_false H2%bool_decide_eq_false].
  intros (a & c1 & [Ha ->]%st_lift_Return & Hr)%st_bind_Return.
  apply st_bind_Return in Hr as (b & c2 & [Hb ->]%st_lift_Return & Hr).
  apply st_bind_Return in Hr as (v & c3 & Hv & Hr).
  apply st_bind_Return in Hr as (r & c4 & [Hrw ->]%st_lift_Return & [= <- <- <-]).
  injection Hv as Hv. pose proof (adder_cost a b c) as Hc. rewrite Hv in Hc. simpl in Hc.
  destruct (rewrite_subsets_or_raise p.1 p.2 (numbers st ++ [v]) (subsets st) (output st))
    as [Hraise|[out' Heq]]; [congruence|].
  rewrite Heq in Hrw. injection Hrw as <-. cbn [fst snd numbers subsets output].
  set (j := length (numbers st ++ [v]) - 1).
  assert (measure (omap (rewritten p.1 p.2 j) (subsets st)) < measure (subsets st))
    as Hsize.
  { apply measure_merge; [lia|done|]. apply Hpend; [left|done..]. }
  split_and!; [| |lia].
  - intros ks' (ks & Hks & Hrw)%list_elem_of_omap.
    pose proof (rewritten_cases p.1 p.2 j ks.1 ks.2 (Hnd _ Hks) ltac:(lia)) as Hcases.
    rewrite <-surjective_pairing, Hrw in Hcases.
    destruct Hcases as [_ [[_ ->]|(_ & _ & -> & _)]]; [by apply Hnd|].
    apply NoDup_set_add, NoDup_shrink. by apply Hnd.
  - intros q Hq Hq1 Hq2. cbn [subsets].
    rewrite !elem_of_set_add in Hq1, Hq2.
    destruct (Hpend q) as (ks & Hks & Hin1 & Hin2); [by right|naive_solver..|].
    destruct (rewritten_keeps p.1 p.2 j (subsets st) ks Hks) as (ks' & Hks' & Hkeep).
    { exists q.1. naive_solver. }
    exists ks'. split; [done|]. split; apply Hkeep; naive_solver.
Qed.

Lemma merge_loop_calls pairs st used c su c' :
  (∀ ks, ks ∈ subsets st → NoDup ks.2) → (∀ q, q ∈ pairs → q.1 < q.2) →
  pending st used pairs →
  Stateful.for_each (Stateful.merge_pair adder) (st, used) pairs c = Return (su, c') →
  (∀ ks, ks ∈ subsets su.1 → NoDup ks.2)
  ∧ c' + measure (subsets su.1) ≤ c + measure (subsets st).
Proof.
  revert st used c. induction pairs as [|p pairs IH]; intros st used c Hnd Hlt Hpend.
  - intros [= <- <-]. done.
  - cbn [Stateful.for_each].
    intros ([st1 used1] & c1 & Hstep & Hrest)%st_bind_Return.
    destruct (merge_pair_calls st used p pairs c st1 used1 c1) as (Hnd1 & Hpend1 & Hle);
      [done|apply Hlt; left|done..|].
    destruct (IH st1 used1 c1 Hnd1) as [Hnd2 Hle2];
      [intros; apply Hlt; by right|done..|].
    split; [done|lia].
Qed.
End MergeCalls.

(** ** [multisubset] calls the adder at most once per index occurrence *)

Section GreedyCalls.
Context {V : Type} (adder : V → V → nat → V * nat) (zero : V).
Context (adder_cost : ∀ x y c, (adder x y c).2 ≤ c + 1).

Lemma costs_finish nums subs out :
  costs le (Stateful.finish adder nums subs out) (total_size subs) (λ _, True).
Proof.
  unfold Stateful.finish, total_size.
  apply (costs_for_each_sum le Nat.le_refl le_step _ (λ _, True)); [done|].
  intros out1 ks _ _.
  eapply costs_weaken;
    [apply (costs_for_each le Nat.le_refl le_step _ (λ _, True) 1)| |done].
  - done.
  - intros out2 index _ _. unfold Stateful.finish_index.
    apply (costs_bind le le_step _ _ 0 1 _ _ (costs_lift le Nat.le_refl _)). intros a _.
    apply (costs_bind le le_step _ _ 0 1 _ _ (costs_lift le Nat.le_refl _)). intros b _.
    apply (costs_bind le le_step _ _ 1 0 (λ _, True) _ (costs_call adder le adder_cost a b)).
    intros v _. eapply costs_weaken; [apply (costs_lift le Nat.le_refl)|done..].
  - lia.
Qed.

Lemma round_calls st c r c' :
  (∀ ks, ks ∈ subsets st → NoDup ks.2) →
  Stateful.round adder st c = Return (r, c') →
  match r with
  | inl _ => c' ≤ c + total_size (subsets st)
  | inr st' => (∀ ks, ks ∈ subsets st' → NoDup ks.2)
               ∧ c' + total_size (subsets st') ≤ c + total_size (subsets st)
  end.
Proof.
  intros Hnd. unfold Stateful.round.
  intros (pairs & c1 & [Hpairs ->]%st_lift_Return & Hr)%st_bind_Return.
  destruct (decide (length (numbers st) = 0)) as [Hlen|Hlen].
  { unfold pairs_by_count, int_math_log in Hpairs.
    by rewrite bool_decide_true in Hpairs. }
  destruct (pairs_by_count_spec (numbers st) (subsets st)) as (pairs' & Heq & Hspec); [lia|].
  rewrite Heq in Hpairs. injection Hpairs as ->.
  case_bool_decide.
  - apply st_bind_Return in Hr as (out & c2 & Hfin & [= <- <-]).
    by destruct (costs_finish _ _ _ _ _ _ Hfin).
  - apply st_bind_Return in Hr as (su & c2 & Hloop & [= <- <-]).
    apply (merge_loop_calls adder adder_cost total_size
             (λ x y j subs Hxy Hnd, proj2 (rewritten_size x y j subs Hxy Hnd))
             pairs st [] c su c2); [done| |by intros q Hq _ _; apply Hspec|done].
    intros q Hq. by apply Hspec.
Qed.

Lemma multisubset_calls_le nums sets c r c' :
  Stateful.multisubset adder zero nums sets c = Return (r, c') →
  c' ≤ c + index_count sets.
Proof.
  unfold Stateful.multisubset. rewrite for_range_unary. intros Hr.
  destruct (for_range_nat _ _ _) as [res|e] eqn:Hloop; [|done].
  apply (for_range_nat_invariant (Stateful.run_round adder)
    (λ sc : state * nat, (∀ ks, ks ∈ subsets sc.1 → NoDup ks.2)
                         ∧ sc.2 + total_size (subsets sc.1) ≤ c + index_count sets)
    (λ oc : list V * nat, oc.2 ≤ c + index_count sets)) in Hloop.
  - destruct res as [oc|sc]; injection Hr as <- <-; [done|]. destruct Hloop. lia.
  - intros [st c1] res1 [Hnd Hle]. unfold Stateful.run_round. cbn [fst snd] in *.
    destruct (Stateful.round adder st c1) as [[[out|st'] c2]|e1] eqn:Hround; [| |done];
      intros [= <-]; pose proof (round_calls _ _ _ _ Hnd Hround) as Hc; cbn [fst snd] in *.
    + lia.
    + split; [apply Hc|]. destruct Hc. lia.
  - cbn [fst snd]. rewrite (init_size zero nums sets). split; [|lia].
    intros ks (k & s & -> & _)%elem_of_lookup_imap. apply NoDup_set_of.
Qed.
End GreedyCalls.

(** ** The calls of [lincomb] *)

Section LincombCalls.
Context {V : Type} (adder : V → V → nat → V * nat) (zero : V).
Context (adder_cost : ∀ x y c, (adder x y c).2 ≤ c + 1).

Lemma lincomb_calls_le nums factors c o c' :
  length nums ≤ length factors → factors ≠ [] →
  Stateful.lincomb adder zero nums factors c = Return (o, c') →
  c' ≤ c + ones_total (maxbitlen factors + 1) (take (length nums) factors)
       + 2 * (maxbitlen factors + 1).
Proof.
  intros Hlen Hne. unfold Stateful.lincomb.
  change ((λ f, String.length (bin f) - 2) <$> factors) with (bitlen <$> factors).
  rewrite (max_of_maxbitlen _ Hne).
  intros (m & c1 & [[= <-] ->]%st_lift_Return & Hr)%st_bind_Return.
  rewrite (bit_subsets_spec _ _ _ Hlen) in Hr.
  apply st_bind_Return in Hr as (subsets & c1 & [[= <-] ->]%st_lift_Return & Hr).
  apply st_bind_Return in Hr as (subset_sums & c2 & Hsolve & Hr).
  apply (multisubset_calls_le adder zero adder_cost) in Hsolve.
  rewrite (bit_columns_count _ _ _ Hlen) in Hsolve.
  apply (costs_for_each le Nat.le_refl (le_step) _ (λ _, True) 2) in Hr as [Hr _].
  - rewrite length_reverse, length_seq, bit_columns_length in Hr. lia.
  - done.
  - intros o1 i _ _. unfold Stateful.recombine_step.
    apply (costs_bind le le_step _ _ 1 1 (λ _, True) _ (costs_call adder le adder_cost _ _)).
    intros d _.
    apply (costs_bind le le_step _ _ 0 1 _ _ (costs_lift le Nat.le_refl _)). intros s _.
    apply (costs_call adder le adder_cost).
Qed.
End LincombCalls.

(** ** What the tests draw *)

Section Draws.
Context {R : Type} (randrange : Z → R → Z * R).

Lemma draws_length n count r : length (draws randrange n count r).1 = count.
Proof.
  revert r. induction count as [|count IH]; intros r; [done|].
  simpl. destruct (randrange n r) as [x r1]. specialize (IH r1).
  destruct (draws randrange n count r1) as [xs r2]. simpl in *. by rewrite IH.
Qed.

Lemma draws_range n count r :
  (∀ r, (0 ≤ (randrange n r).1 < n)%Z) →
  Forall (λ x, (0 ≤ x < n)%Z) (draws randrange n count r).1.
Proof.
  intros Hrange. revert r. induction count as [|count IH]; intros r; [by constructor|].
  simpl. pose proof (Hrange r) as Hx. destruct (randrange n r) as [x r1].
  specialize (IH r1). destruct (draws randrange n count r1) as [xs r2]. simpl in *.
  by constructor.
Qed.

Lemma draw_subset_spec numcount r :
  NoDup (draw_subset randrange numcount r).1
  ∧ (∀ i, i ∈ (draw_subset randrange numcount r).1 → i < numcount)
  ∧ length (draw_subset randrange numcount r).1 ≤ numcount.
Proof.
  unfold draw_subset. induction numcount as [|n IH].
  - simpl. split_and!; [constructor| |done]. by intros i ?%elem_of_nil.
  - rewrite seq_S, foldl_app. simpl.
    destruct (foldl _ _ (seq 0 n)) as [s r1]. simpl in *.
    destruct IH as (Hnd & Hlt & Hlen). destruct (randrange 2 r1) as [x r2]. simpl.
    case_bool_decide.
    + split_and!.
      * by apply NoDup_set_add.
      * intros i [->|Hi%Hlt]%elem_of_set_add; lia.
      * unfold set_add. case_bool_decide; [lia|]. rewrite length_app. simpl. lia.
    + split_and!; [done| |lia]. intros i Hi%Hlt. lia.
Qed.

Lemma draw_subsets_spec numcount setcount r :
  length (draw_subsets randrange numcount setcount r).1 = setcount
  ∧ Forall (λ s, NoDup s ∧ (∀ i, i ∈ s → i < numcount) ∧ length s ≤ numcount)
           (draw_subsets randrange numcount setcount r).1.
Proof.
  revert r. induction setcount as [|n IH]; intros r; [by split; [|constructor]|].
  simpl. pose proof (draw_subset_spec numcount r) as Hs.
  destruct (draw_subset randrange numcount r) as [s r1]. specialize (IH r1).
  destruct (draw_subsets randrange numcount n r1) as [ss r2]. simpl in *.
  destruct IH as [-> IH]. split; [done|]. by constructor.
Qed.
End Draws.

Lemma index_count_le numcount (sets : list (list nat)) :
  Forall (λ s, NoDup s ∧ (∀ i, i ∈ s → i < numcount) ∧ length s ≤ numcount) sets →
  index_count sets ≤ length sets * numcount.
Proof.
  unfold index_count. induction 1 as [|s sets (Hnd & _ & Hlen) _ IH]; [done|].
  simpl. rewrite (set_of_NoDup_id s Hnd). lia.
Qed.

(** The assertion of [test_multisubset] holds of the naive sums. *)
Lemma check_naive_sums (numbers : list Z) (sets : list (list nat)) :
  Forall (λ s, NoDup s ∧ ∀ i, i ∈ s → i < length numbers) sets →
  check_subsets numbers (zip (naive_sums Z.add 0%Z numbers sets) sets) = None.
Proof.
  induction 1 as [|s sets [Hnd Hlt] _ IH]; [done|].
  unfold naive_sums. rewrite fmap_cons. cbn [zip zip_with check_subsets].
  unfold check_subset at 1. cbn [fst snd].
  assert (∀ picked,
            foldlM (λ picked x, n ← getitem numbers x; Return (picked ++ [n])) picked s
            = Return (picked ++ (at_index 0%Z numbers <$> s))) as Hpick.
  { clear Hnd IH. induction s as [|i s IHs]; intros picked.
    - simpl. by rewrite app_nil_r.
    - cbn [foldlM]. destruct (lookup_lt_is_Some_2 numbers i) as [n Hn]; [apply Hlt; left|].
      rewrite (getitem_Some _ _ _ Hn), !bind_ret, IHs.
      + by rewrite fmap_cons, (at_index_Some _ _ _ _ Hn), <-app_assoc.
      + intros j Hj. apply Hlt. by right. }
  rewrite Hpick. cbn [app]. rewrite bool_decide_true; [exact IH|].
  unfold adder_fold. rewrite (set_of_NoDup_id s Hnd).
  generalize 0%Z at 2 3. clear. induction s as [|i s IHs]; intros a; [done|].
  simpl. apply IHs.
Qed.

(** ** Factors below a power of two *)

Lemma size_nat_le p n : (Z.pos p < 2 ^ Z.of_nat n)%Z → Pos.size_nat p ≤ n.
Proof.
  revert n. induction p as [p IH|p IH|]; intros [|n] Hp; simpl in *; try lia.
  - apply le_n_S, IH. rewrite Nat2Z.inj_succ, Z.pow_succ_r in Hp; lia.
  - apply le_n_S, IH. rewrite Nat2Z.inj_succ, Z.pow_succ_r in Hp; lia.
Qed.

Lemma bitlen_le f n : 1 ≤ n → (0 ≤ f < 2 ^ Z.of_nat n)%Z → bitlen f ≤ n.
Proof.
  intros Hn [Hf Hlt]. destruct f as [|p|p]; [done| |lia].
  rewrite bitlen_pos. by apply size_nat_le.
Qed.

Lemma maxbitlen_le factors n :
  Forall (λ f, bitlen f ≤ n) factors → maxbitlen factors ≤ n.
Proof.
  unfold maxbitlen. intros Hall.
  assert (∀ x, x ≤ n → foldl Nat.max x (bitlen <$> factors) ≤ n) as Hmax; [|apply Hmax; lia].
  induction Hall as [|f factors Hf _ IH]; intros x Hx; [done|].
  simpl. apply IH. lia.
Qed.

Lemma ones_total_le m factors : ones_total m factors ≤ length factors * m.
Proof.
  unfold ones_total, ones_below. induction factors as [|f factors IH]; [done|].
  simpl. pose proof (length_filter (λ j, Z.testbit f (Z.of_nat j) = true) (seq 0 m)) as Hle.
  rewrite length_seq in Hle. lia.
Qed.

Lemma repeat_add_Z x n : repeat_add Z.add 0%Z x n = (x * Z.of_nat n)%Z.
Proof.
  unfold repeat_add. induction n as [|n IH]; simpl; [lia|].
  unfold repeat_add in IH. rewrite IH. lia.
Qed.

Lemma weighted_sum_Z (numbers factors : list Z) :
  Forall (λ f, (0 ≤ f)%Z) factors →
  weighted_sum Z.add 0%Z numbers (Z.to_nat <$> factors)
  = foldl Z.add 0%Z (zip_with Z.mul numbers factors).
Proof.
  intros Hpos. unfold weighted_sum. f_equal. revert numbers.
  induction Hpos as [|f factors Hf _ IH]; intros [|x numbers]; try done.
  rewrite fmap_cons. cbn [zip_with]. rewrite repeat_add_Z, IH, Z2Nat.id; done.
Qed.

Lemma lincomb_nonneg {V} (adder : V → V → V) (zero : V) `{!AdditiveLaws adder zero}
    (numbers : list V) (factors : list Z) :
  length numbers = length factors → factors ≠ [] →
  Forall (λ f, (0 ≤ f)%Z) factors →
  (Z.of_nat (ones_total (maxbitlen factors + 1) factors) < Z.pos round_cap)%Z →
  lincomb adder zero numbers factors
  = Return (weighted_sum adder zero numbers (Z.to_nat <$> factors)).
Proof.
  intros Hlen Hne Hpos Hcap. unfold lincomb.
  rewrite (lincomb_counted_spec adder zero).
  - rewrite bind_ret. simpl. do 2 f_equal. apply Forall_fmap_ext_1.
    rewrite Forall_forall in Hpos |- *. intros f Hin.
    pose proof (bitlen_le_maxbitlen f factors Hin) as Hle.
    apply bits_val_small. split; [by apply Hpos|].
    apply (Z.lt_le_trans _ (2 ^ Z.of_nat (bitlen f))).
    + apply nonneg_lt_pow2_bitlen. by apply Hpos.
    + apply Z.pow_le_mono_r; lia.
  - intros ->. by destruct factors.
  - lia.
  - by rewrite Hlen, firstn_all.
Qed.


(** ** Lemmas on the bit subsets and on membership *)

Lemma testbit_above_bitlen f n :
  (0 ≤ f)%Z → bitlen f ≤ n → Z.testbit f (Z.of_nat n) = false.
Proof.
  intros Hf Hn. destruct (decide (f = 0%Z)) as [->|Hne]; [apply Z.bits_0|].
  apply Z.bits_above_log2; [done|].
  apply Z.log2_lt_pow2; [lia|].
  apply (Z.lt_le_trans _ (2 ^ Z.of_nat (bitlen f))).
  - by apply nonneg_lt_pow2_bitlen.
  - apply Z.pow_le_mono_r; lia.
Qed.

Lemma index_in_power_set_ext partition_size i (s1 s2 : list nat) :
  (∀ j, j ∈ s1 ↔ j ∈ s2) →
  index_in_power_set partition_size i s1 = index_in_power_set partition_size i s2.
Proof.
  intros Hmem. unfold index_in_power_set.
  assert (∀ l idx,
    foldl (λ idx j, if bool_decide (i * partition_size + j ∈ s1)
                    then idx + 2 ^ j else idx) idx l
    = foldl (λ idx j, if bool_decide (i * partition_size + j ∈ s2)
                      then idx + 2 ^ j else idx) idx l) as Hfold; [|apply Hfold].
  induction l as [|j l IH]; intros idx; [done|].
  cbn [foldl]. rewrite (bool_decide_ext _ _ (Hmem (i * partition_size + j))). apply IH.
Qed.

Lemma foldlM_ext {A B} (f g : A → B → result A) l a :
  (∀ a x, x ∈ l → f a x = g a x) → foldlM f a l = foldlM g a l.
Proof.
  revert a. induction l as [|x l IH]; intros a Hfg; [done|].
  simpl. rewrite Hfg by left. destruct (g a x) as [a'|e]; [|done].
  simpl. apply IH. intros ???. apply Hfg. by right.
Qed.

Lemma filter_none {A} (P : A → Prop) `{∀ x, Decision (P x)} (l : list A) :
  (∀ x, x ∈ l → ¬ P x) → filter P l = [].
Proof.
  induction l as [|x l IH]; intros Hnone; [done|].
  rewrite filter_cons_False by (apply Hnone; left). apply IH. intros y Hy. apply Hnone. by right.
Qed.

Lemma for_range_returns {S R} (body : S → result (R + S)) p s r :
  body s = Return (inl r) → for_range body p s = Return (inl r).
Proof.
  intros Hbody. rewrite for_range_unary.
  destruct (Pos.to_nat p) as [|n] eqn:Hn; [lia|]. simpl. by rewrite Hbody.
Qed.

(** ** [lincomb] on factors that are all 0 *)

Lemma maxbitlen_zeros n : 1 ≤ n → maxbitlen (replicate n 0%Z) = 1.
Proof.
  intros Hn. apply Nat.le_antisymm.
  - apply maxbitlen_le, Forall_replicate. done.
  - apply (bitlen_le_maxbitlen 0%Z). destruct n; [lia|]. left.
Qed.

Lemma bit_columns_zeros len n m :
  bit_columns len (replicate n 0%Z) m = replicate m [].
Proof.
  unfold bit_columns.
  assert (∀ l : list nat,
    (λ j, filter (bit_set (replicate n 0%Z) j) (seq 0 len)) <$> l
    = replicate (length l) []) as Hall; [|by rewrite Hall, length_seq].
  intros l. induction l as [|j l IH]; [done|]. rewrite fmap_cons, IH. simpl. f_equal.
  apply filter_none. intros i _. unfold bit_set, factor_at.
  destruct (replicate n 0%Z !! i) as [f|] eqn:Hf; simpl.
  - apply lookup_replicate in Hf as [-> _]. by rewrite Z.bits_0.
  - by rewrite Z.bits_0.
Qed.

Lemma mock_lincomb_zeros (numbers : list Z) n :
  1 ≤ n → length numbers = n →
  Stateful.lincomb mock_adder 0%Z numbers (replicate n 0%Z) 0 = Return (0%Z, 0).
Proof.
  intros Hn Hlen. unfold Stateful.lincomb.
  change ((λ f, String.length (bin f) - 2) <$> replicate n 0%Z)
    with (bitlen <$> replicate n 0%Z).
  rewrite max_of_maxbitlen by (destruct n; [lia|done]).
  rewrite (maxbitlen_zeros n Hn).
  unfold Stateful.bind at 1. unfold Stateful.lift at 1. cbn [fst snd].
  rewrite bit_subsets_spec by (rewrite length_replicate; lia).
  rewrite bit_columns_zeros.
  unfold Stateful.bind at 1. unfold Stateful.lift at 1. cbn [fst snd].
  unfold Stateful.bind at 1.
  assert (Stateful.multisubset mock_adder 0%Z numbers (replicate (1 + 1) []) 0
          = Return (Some [0%Z; 0%Z], 0)) as ->; [|done].
  unfold Stateful.multisubset.
  rewrite (for_range_returns _ _ _ ([0%Z; 0%Z], 0)); [done|].
  unfold Stateful.run_round, Stateful.round. cbn [fst snd].
  unfold Stateful.bind at 1. unfold Stateful.lift at 1.
  unfold pairs_by_count, int_math_log. rewrite bool_decide_false by (simpl; lia).
  rewrite bind_ret. cbn [fst snd].
  replace (take _ _) with (@nil (nat * nat)); [done|].
  symmetry. apply take_nil.
Qed.

(** ** The exit branch without the laws of the adder *)

Lemma finish_naive {V} (adder : V → V → V) (zero : V) (nums : list V)
    (sets : list (list nat)) (rest : list V) :
  valid_indices nums sets →
  finish adder nums (imap (λ i s, (i, set_of s)) sets)
         (replicate (length sets) zero ++ rest)
  = Return (naive_sums adder zero nums sets ++ rest).
Proof.
  unfold finish. revert rest. induction sets as [|s sets IH] using rev_ind; intros rest Hvalid.
  - done.
  - rewrite imap_app, foldlM_app, length_app, Nat.add_1_r, replicate_S_end, <-app_assoc.
    rewrite IH by (intros s' i Hs'; apply Hvalid, elem_of_app; by left).
    rewrite bind_ret. cbn [imap foldlM fst snd]. rewrite Nat.add_0_r.
    rewrite (finish_subset adder zero nums (length sets) (set_of s) _ zero).
    + rewrite bind_ret. unfold naive_sums. rewrite fmap_app, <-app_assoc. simpl.
      f_equal. rewrite <-(length_fmap (adder_fold adder zero nums) sets) at 1.
      by rewrite insert_app_r_alt, Nat.sub_diag.
    + rewrite lookup_app_r by (unfold naive_sums; rewrite length_fmap; lia).
      unfold naive_sums. by rewrite length_fmap, Nat.sub_diag.
    + intros i Hi. apply (proj1 (elem_of_set_of _ _)) in Hi.
      apply (Hvalid s); [|done]. apply elem_of_app. right. left.
Qed.

(** ** The output keeps its length *)

Lemma foldlM_preserves {A B} (P : A → Prop) (f : A → B → result A) l a a' :
  P a → (∀ a x a', P a → f a x = Return a' → P a') →
  foldlM f a l = Return a' → P a'.
Proof.
  intros Ha Hf. revert a Ha. induction l as [|x l IH]; intros a Ha; simpl.
  - by intros [= <-].
  - destruct (f a x) as [a1|e] eqn:Hfx; [|done]. simpl. apply IH. by apply (Hf a x).
Qed.

Lemma setitem_length {A} (l l' : list A) i v :
  setitem l i v = Return l' → length l' = length l.
Proof.
  unfold setitem. case_bool_decide; [|done]. intros [= <-]. apply length_insert.
Qed.

Section OutputLength.
Context {V : Type} (adder : V → V → V) (zero : V).

Lemma finish_length nums subs (out out' : list V) :
  finish adder nums subs out = Return out' → length out' = length out.
Proof.
  unfold finish. intros Hfin.
  apply (foldlM_preserves (λ o : list V, length o = length out) _ _ _ _ eq_refl) in Hfin;
    [done|].
  intros o1 ks o2 Hlen Hinner.
  apply (foldlM_preserves (λ o : list V, length o = length out) _ _ _ _ Hlen) in Hinner;
    [done|].
  intros o3 index o4 Hlen3.
  destruct (getitem o3 ks.1) as [a|e]; [|done]. rewrite bind_ret.
  destruct (getitem nums index) as [b|e]; [|done]. rewrite bind_ret.
  intros Hset%setitem_length. congruence.
Qed.

Lemma rewrite_subsets_length x y (nums : list V) subs out r :
  rewrite_subsets x y nums subs out = Return r → length r.2 = length out.
Proof.
  revert out r. induction subs as [|[key subset] rest IH]; intros out r.
  - by intros [= <-].
  - cbn [rewrite_subsets].
    destruct (bool_decide (x ∈ subset) && bool_decide (y ∈ subset));
      [destruct (bool_decide (set_remove y (set_remove x subset) = []))|].
    + destruct (getlast nums) as [v|e]; [|done]. rewrite bind_ret.
      destruct (setitem out key v) as [out1|e] eqn:Hset; [|done]. rewrite bind_ret.
      intros Hr%IH. apply setitem_length in Hset. congruence.
    + destruct (rewrite_subsets x y nums rest out) as [r1|e] eqn:Hrest; [|done].
      rewrite bind_ret. intros [= <-]. simpl. by apply IH.
    + destruct (rewrite_subsets x y nums rest out) as [r1|e] eqn:Hrest; [|done].
      rewrite bind_ret. intros [= <-]. simpl. by apply IH.
Qed.

Lemma merge_pair_length su p su' :
  merge_pair adder su p = Return su' → length (output su'.1) = length (output su.1).
Proof.
  destruct su as [st used]. unfold merge_pair.
  destruct (bool_decide (p.1 ∈ used) || bool_decide (p.2 ∈ used)); [by intros [= <-]|].
  destruct (getitem (numbers st) p.1) as [a|e]; [|done]. rewrite bind_ret.
  destruct (getitem (numbers st) p.2) as [b|e]; [|done]. rewrite bind_ret.
  destruct (rewrite_subsets _ _ _ _ _) as [r|e] eqn:Hrw; [|done]. rewrite bind_ret.
  intros [= <-]. simpl. by apply rewrite_subsets_length in Hrw.
Qed.

Lemma round_length st r :
  round adder st = Return r →
  match r with
  | inl out => length out = length (output st)
  | inr st' => length (output st') = length (output st)
  end.
Proof.
  unfold round. destruct (pairs_by_count _ _) as [pairs|e]; [|done]. rewrite bind_ret.
  case_bool_decide.
  - destruct (finish _ _ _ _) as [out|e] eqn:Hfin; [|done]. rewrite bind_ret.
    intros [= <-]. by apply finish_length in Hfin.
  - destruct (foldlM _ _ _) as [su|e] eqn:Hloop; [|done]. rewrite bind_ret.
    intros [= <-].
    apply (foldlM_preserves
             (λ su : state * list nat, length (output su.1) = length (output st))
             _ _ (st, []) _ eq_refl) in Hloop; [done|].
    intros su1 p su2 Hlen Hstep%merge_pair_length. congruence.
Qed.

Lemma multisubset_length nums sets out :
  multisubset adder zero nums sets = Return (Some out) → length out = length sets.
Proof.
  unfold multisubset. rewrite for_range_unary.
  destruct (for_range_nat _ _ _) as [res|e] eqn:Hloop; [|done]. rewrite bind_ret.
  apply (for_range_nat_invariant (round adder)
           (λ st, length (output st) = length sets)
           (λ out, length out = length sets)) in Hloop.
  - destruct res; [|done]. by intros [= <-].
  - intros st r Hlen Hround%round_length. destruct r; congruence.
  - simpl. apply length_replicate.
Qed.

Lemma multisubset2_length nums sets sums :
  multisubset2 adder zero nums sets = Return sums → length sums = length sets.
Proof.
  unfold multisubset2. destruct (int_math_log _) as [lg|e]; [|done]. rewrite bind_ret.
  generalize (power_sets_of adder zero (1 + lg) (align zero (1 + lg) (1 + lg) nums)).
  intros power_sets.
  assert (∀ acc,
    foldlM (λ subset_sums subset,
              o ← subset_sum2 adder zero (1 + lg) power_sets subset;
              Return (subset_sums ++ [o])) acc sets = Return sums →
    length sums = length acc + length sets) as Hloop; [|apply (Hloop [])].
  induction sets as [|s sets IH]; intros acc.
  - intros [= <-]. simpl. lia.
  - cbn [foldlM]. destruct (subset_sum2 _ _ _ _ _) as [o|e]; [|done]. rewrite bind_ret.
    intros Hr%IH. rewrite length_app in Hr. simpl in *. lia.
Qed.
End OutputLength.

(** ** The list a solver returns is a new object *)

Section FreshResult.
Context {V : Type} (adder : V → V → V) (zero : V).
Context (n0 : nat).

Lemma heap_bind_Return {A B} (m : @Heap.M V A) (f : A → Heap.M B) h b h' :
  Heap.bind m f h = Return (b, h') →
  ∃ a h1, m h = Return (a, h1) ∧ f a h1 = Return (b, h').
Proof.
  unfold Heap.bind. destruct (m h) as [[a h1]|e]; [|done]. simpl. eauto.
Qed.

Lemma round_result numbers output d (h : list (@Heap.obj V)) r h' :
  Heap.round adder numbers output d h = Return (inl r, h') → r = output.
Proof.
  unfold Heap.round.
  intros (xs & h1 & _ & Hr)%heap_bind_Return.
  apply heap_bind_Return in Hr as (subs & h2 & _ & Hr).
  apply heap_bind_Return in Hr as (pairs & h3 & _ & Hr).
  case_bool_decide.
  - by apply heap_bind_Return in Hr as (? & h4 & _ & [= <- <-]).
  - by apply heap_bind_Return in Hr as (? & h4 & _ & [=]).
Qed.

Lemma rounds_result numbers output n (dh : list (nat * Heap.loc) * list (@Heap.obj V)) rh :
  for_range_nat (Heap.run_round adder numbers output) n dh = Return (inl rh) →
  rh.1 = output.
Proof.
  intros Hloop.
  apply (for_range_nat_invariant (Heap.run_round adder numbers output)
           (λ _, True) (λ rh, rh.1 = output)) in Hloop; [done| |done].
  intros [d h] r _. unfold Heap.run_round. cbn [fst snd].
  destruct (Heap.round adder numbers output d h) as [[[l|d'] h1]|e] eqn:Hround; [| |done].
  - intros [= <-]. simpl. by apply round_result in Hround.
  - by intros [= <-].
Qed.

Lemma multisubset_result_fresh numbers subsets :
  keeps n0 (Heap.multisubset adder zero numbers subsets)
        (λ r, ∀ l, r = Some l → n0 ≤ l).
Proof.
  unfold Heap.multisubset.
  eapply HeapFrame.keeps_bind; [apply HeapFrame.keeps_read_list|]. intros xs _.
  eapply HeapFrame.keeps_bind; [apply HeapFrame.keeps_alloc|]. intros nl Hnl.
  eapply HeapFrame.keeps_bind; [apply HeapFrame.keeps_read_refs|]. intros refs _.
  eapply HeapFrame.keeps_bind; [apply HeapFrame.keeps_copy_subsets|]. intros d Hd.
  eapply HeapFrame.keeps_bind; [apply HeapFrame.keeps_alloc|]. intros ol Hol.
  intros h r h' Hlen. rewrite for_range_unary.
  pose proof (HeapFrame.keeps_rounds adder n0 nl ol (Pos.to_nat round_cap) d h
                Hnl Hol Hd Hlen) as Hrounds.
  destruct (for_range_nat _ _ (d, h)) as [[rh|dh]|e] eqn:Hloop; [| |done];
    intros [= <- <-]; destruct Hrounds; split_and!; try done.
  intros l [= <-]. by rewrite (rounds_result _ _ _ _ _ Hloop).
Qed.

Lemma multisubset2_result_fresh numbers subsets :
  keeps n0 (Heap.multisubset2 adder zero numbers subsets) (λ r, n0 ≤ r).
Proof.
  unfold Heap.multisubset2.
  eapply HeapFrame.keeps_bind; [apply HeapFrame.keeps_read_refs|]. intros refs _.
  eapply HeapFrame.keeps_bind; [apply HeapFrame.keeps_lift|]. intros lg _.
  eapply HeapFrame.keeps_bind; [apply HeapFrame.keeps_read_list|]. intros xs _.
  eapply HeapFrame.keeps_bind; [apply HeapFrame.keeps_alloc|]. intros nl Hnl.
  eapply HeapFrame.keeps_bind; [by apply HeapFrame.keeps_align|]. intros _ _.
  eapply HeapFrame.keeps_bind; [apply HeapFrame.keeps_read_list|]. intros xs' _.
  eapply HeapFrame.keeps_bind; [|intros sums _; apply HeapFrame.keeps_alloc].
  apply (HeapFrame.keeps_for_each _ _ (λ _, True)); [done|].
  intros sums r _ _. unfold Heap.sum_entry.
  eapply HeapFrame.keeps_bind; [apply HeapFrame.keeps_read_set|]. intros subset _.
  eapply HeapFrame.keeps_bind; [apply HeapFrame.keeps_lift|]. intros o _.
  by apply HeapFrame.keeps_ret.
Qed.
End FreshResult.

(** ** The subset of the highest bit position *)

Lemma top_column_empty len (factors : list Z) n :
  Forall (λ f, (0 ≤ f)%Z) factors → maxbitlen factors ≤ n →
  filter (bit_set factors n) (seq 0 len) = [].
Proof.
  intros Hpos Hn. apply filter_none. intros i _. unfold bit_set, factor_at.
  destruct (factors !! i) as [f|] eqn:Hf; simpl; [|by rewrite Z.bits_0].
  apply list_elem_of_lookup_2 in Hf. rewrite Forall_forall in Hpos.
  rewrite testbit_above_bitlen; [done|by apply Hpos|].
  pose proof (bitlen_le_maxbitlen f factors Hf). lia.
Qed.

(** ** What the solvers can raise *)

Lemma for_range_nat_raises_only {S R} (body : S → result (R + S)) (I : S → Prop) e :
  (∀ s, I s → body s = Raise e
              ∨ (∃ r, body s = Return (inl r))
              ∨ (∃ s', body s = Return (inr s') ∧ I s')) →
  ∀ n s, I s → for_range_nat body n s = Raise e ∨ ∃ r, for_range_nat body n s = Return r.
Proof.
  intros Hbody n. induction n as [|n IH]; intros s Hs; [right; by eexists|].
  simpl. destruct (Hbody s Hs) as [->|[[r ->]|(s' & -> & Hs')]]; simpl.
  - by left.
  - right. by eexists.
  - by apply IH.
Qed.

Section Raises.
Context {V : Type} (adder : V → V → V) (zero : V).

Lemma finish_or_raise nums subs (out : list V) :
  finish adder nums subs out = Raise IndexError
  ∨ ∃ out', finish adder nums subs out = Return out'.
Proof.
  unfold finish. apply foldlM_raises_only. intros out1 ks _.
  apply foldlM_raises_only. intros out2 index _.
  destruct (getitem_raises_only out2 ks.1) as [->|[a ->]]; [by left|]. rewrite bind_ret.
  destruct (getitem_raises_only nums index) as [->|[b ->]]; [by left|]. rewrite bind_ret.
  apply setitem_raises_only.
Qed.

Lemma merge_pair_or_raise su p :
  merge_pair adder su p = Raise IndexError
  ∨ ∃ su', merge_pair adder su p = Return su'
           ∧ length (numbers su.1) ≤ length (numbers su'.1).
Proof.
  destruct su as [st used]. unfold merge_pair.
  destruct (bool_decide (p.1 ∈ used) || bool_decide (p.2 ∈ used)); [right; by eexists|].
  destruct (getitem_raises_only (numbers st) p.1) as [->|[a ->]]; [by left|].
  rewrite bind_ret.
  destruct (getitem_raises_only (numbers st) p.2) as [->|[b ->]]; [by left|].
  rewrite bind_ret.
  destruct (rewrite_subsets_or_raise p.1 p.2 (numbers st ++ [adder a b])
              (subsets st) (output st)) as [->|[out' ->]]; [by left|].
  right. rewrite bind_ret. eexists. split; [done|]. simpl. rewrite length_app. lia.
Qed.

Lemma merge_loop_or_raise pairs su :
  foldlM (merge_pair adder) su pairs = Raise IndexError
  ∨ ∃ su', foldlM (merge_pair adder) su pairs = Return su'
           ∧ length (numbers su.1) ≤ length (numbers su'.1).
Proof.
  revert su. induction pairs as [|p pairs IH]; intros su; [right; by eexists|].
  cbn [foldlM]. destruct (merge_pair_or_raise su p) as [->|(su1 & -> & Hle)]; [by left|].
  rewrite bind_ret. destruct (IH su1) as [->|(su2 & -> & Hle2)]; [by left|].
  right. eexists. split; [done|lia].
Qed.

Lemma round_or_raise st :
  0 < length (numbers st) →
  round adder st = Raise IndexError
  ∨ (∃ out, round adder st = Return (inl out))
  ∨ (∃ st', round adder st = Return (inr st') ∧ 0 < length (numbers st')).
Proof.
  intros Hlen. unfold round.
  destruct (pairs_by_count_spec (numbers st) (subsets st) Hlen) as (pairs & -> & _).
  rewrite bind_ret. case_bool_decide.
  - destruct (finish_or_raise (numbers st) (subsets st) (output st)) as [->|[out ->]];
      [by left|]. right. left. by eexists.
  - destruct (merge_loop_or_raise pairs (st, [])) as [->|(su & -> & Hle)]; [by left|].
    right. right. eexists. split; [done|]. simpl in Hle. lia.
Qed.

Lemma power_sets_of_lengths partition_size (nums : list V) q :
  0 < partition_size → length nums = q * partition_size →
  Forall (λ ps, length ps = 2 ^ partition_size)
         (power_sets_of adder zero partition_size nums).
Proof.
  intros Hps Hlen. unfold power_sets_of.
  rewrite Hlen, (range_step_aligned q partition_size Hps).
  apply Forall_fmap, Forall_fmap, Forall_forall. intros i Hi%elem_of_seq. simpl.
  rewrite power_set_length, length_take, length_drop, Hlen. f_equal. nia.
Qed.

Lemma subset_sum2_returns partition_size power_sets subset :
  Forall (λ ps, length ps = 2 ^ partition_size) power_sets →
  ∃ v : V, subset_sum2 adder zero partition_size power_sets subset = Return v.
Proof.
  intros Hall. unfold subset_sum2.
  destruct (foldlM_invariant (λ _ : V, True)
              (λ o i, ps ← getitem power_sets i;
                      v ← getitem ps (index_in_power_set partition_size i subset);
                      Return (adder o v))
              (seq 0 (length power_sets)) zero) as (v & Hv & _); [done| |by eexists].
  intros o i Hi%elem_of_seq _.
  destruct (lookup_lt_is_Some_2 power_sets i) as [ps Hps]; [lia|].
  rewrite (getitem_Some _ _ _ Hps), bind_ret.
  rewrite Forall_forall in Hall. pose proof (Hall ps (list_elem_of_lookup_2 _ _ _ Hps)) as Hlen.
  destruct (lookup_lt_is_Some_2 ps (index_in_power_set partition_size i subset)) as [v Hv].
  { rewrite Hlen. apply (mask_lt (λ j, i * partition_size + j ∈ subset)). }
  rewrite (getitem_Some _ _ _ Hv), bind_ret. by eexists.
Qed.
End Raises.

(** ** The operations the mock adder counts in [multisubset] *)

Lemma rewritten_spare x y j (subs : list (nat * list nat)) :
  x ≠ y → (∀ ks, ks ∈ subs → NoDup ks.2) →
  spare (omap (rewritten x y j) subs) ≤ spare subs
  ∧ ((∃ ks, ks ∈ subs ∧ x ∈ ks.2 ∧ y ∈ ks.2) →
     spare (omap (rewritten x y j) subs) < spare subs).
Proof.
  intros Hxy. unfold spare.
  induction subs as [|[k s] subs IH]; intros Hnd.
  - split; [done|]. intros (? & []%elem_of_nil & _).
  - destruct IH as [IH1 IH2]; [intros; apply Hnd; by right|].
    assert (NoDup s) as Hs by (apply (Hnd (k, s)); left).
    pose proof (rewritten_cases x y j k s Hs Hxy) as Hc.
    cbn [omap list_omap]. destruct (rewritten x y j (k, s)) as [ks'|]; simpl.
    + destruct Hc as [_ [[Hhit ->]|(Hhit & Hne & Heq & Hlt)]].
      * split; [lia|]. intros ([k' s'] & [?|Hin]%elem_of_cons & Hx & Hy); simplify_eq.
        -- assert (hit x y s = true) by by apply hit_spec. congruence.
        -- assert (sum_list_with (λ ks, length ks.2 - 1) (omap (rewritten x y j) subs)
                   < sum_list_with (λ ks, length ks.2 - 1) subs) by (apply IH2; eauto).
           lia.
      * assert (1 ≤ length ks'.2) as Hpos.
        { rewrite Heq. unfold set_add. case_bool_decide.
          - destruct (shrink x y s); [done|simpl; lia].
          - rewrite length_app. simpl. lia. }
        split; intros; lia.
    + destruct Hc as (_ & _ & Hperm%Permutation_length). simpl in Hperm.
      split; intros; lia.
Qed.

Lemma mock_finish_subset (nums : list Z) k s out a c out' c' :
  out !! k = Some a →
  Stateful.for_each (Stateful.finish_index mock_adder nums k) out s c = Return (out', c') →
  c' ≤ c + (if bool_decide (a = 0%Z) then length s - 1 else length s)
  ∧ ∀ k', k' ≠ k → out' !! k' = out !! k'.
Proof.
  revert out a c. induction s as [|i s IH]; intros out a c Hk.
  - intros [= <- <-]. split; [case_bool_decide; simpl; lia|done].
  - cbn [Stateful.for_each].
    intros (out1 & c1 & Hstep & Hrest)%st_bind_Return.
    unfold Stateful.finish_index in Hstep.
    apply st_bind_Return in Hstep as (a0 & c2 & [Ha ->]%st_lift_Return & Hstep).
    apply st_bind_Return in Hstep as (b & c3 & [Hb ->]%st_lift_Return & Hstep).
    apply st_bind_Return in Hstep as (v & c4 & [= <- <-] & [Hset ->]%st_lift_Return).
    rewrite (getitem_Some _ _ _ Hk) in Ha. injection Ha as <-.
    unfold setitem in Hset. case_bool_decide as Hlt; [|done]. injection Hset as <-.
    destruct (IH (<[k:=(a + b)%Z]> out) (a + b)%Z _ (list_lookup_insert_eq _ _ _ Hlt) Hrest)
      as [Hle Hframe].
    split.
    + simpl in *. repeat case_bool_decide; simpl in *; lia.
    + intros k' Hk'. rewrite Hframe by done. by rewrite list_lookup_insert_ne.
Qed.

Lemma mock_finish_spare (nums : list Z) subs out c out' c' :
  NoDup subs.*1 → (∀ ks, ks ∈ subs → out !! ks.1 = Some 0%Z) →
  Stateful.finish mock_adder nums subs out c = Return (out', c') →
  c' ≤ c + spare subs.
Proof.
  unfold Stateful.finish, spare. revert out c.
  induction subs as [|[k s] subs IH]; intros out c Hnd Hzero.
  - intros [= <- <-]. simpl. lia.
  - cbn [Stateful.for_each sum_list_with fst snd].
    intros (out1 & c1 & Hsub & Hrest)%st_bind_Return.
    simpl in Hnd. apply NoDup_cons in Hnd as [Hk Hnd].
    destruct (mock_finish_subset nums k s out 0%Z c out1 c1) as [Hle Hframe];
      [apply (Hzero (k, s)); left|done|].
    rewrite bool_decide_true in Hle by done.
    apply IH in Hrest; [lia|done|].
    intros [k' s'] Hin. simpl. rewrite Hframe.
    + apply (Hzero (k', s')). by right.
    + intros ->. apply Hk. apply list_elem_of_fmap. by exists (k, s').
Qed.

Lemma mock_adder_cost x y c : (mock_adder x y c).2 ≤ c + 1.
Proof. unfold mock_adder. simpl. case_match; lia. Qed.

Lemma mock_round_spare target n st c r c' :
  inv Z.add 0%Z target n st →
  Stateful.round mock_adder st c = Return (r, c') →
  match r with
  | inl _ => c' ≤ c + spare (subsets st)
  | inr st' => c' + spare (subsets st') ≤ c + spare (subsets st)
  end.
Proof.
  intros Hinv. unfold Stateful.round.
  intros (pairs & c1 & [Hpairs ->]%st_lift_Return & Hr)%st_bind_Return.
  destruct (pairs_by_count_spec (numbers st) (subsets st)) as (pairs' & Heq & Hspec);
    [apply Hinv|].
  rewrite Heq in Hpairs. injection Hpairs as ->.
  assert (∀ ks, ks ∈ subsets st → NoDup ks.2) as Hnd.
  { intros [k s] Hks. by destruct (inv_live _ _ _ _ _ Hinv _ _ Hks) as (_ & ? & _). }
  case_bool_decide.
  - apply st_bind_Return in Hr as (out & c2 & Hfin & [= <- <-]).
    apply (mock_finish_spare _ _ _ _ _ _ (inv_keys _ _ _ _ _ Hinv)) in Hfin; [done|].
    intros [k s] Hks. by destruct (inv_live _ _ _ _ _ Hinv _ _ Hks) as (_ & _ & _ & ? & _).
  - apply st_bind_Return in Hr as (su & c2 & Hloop & [= <- <-]).
    apply (merge_loop_calls mock_adder mock_adder_cost spare
             (λ x y j subs Hxy Hnd', proj2 (rewritten_spare x y j subs Hxy Hnd'))
             pairs st [] c su c2); [done| |by intros q Hq _ _; apply Hspec|done].
    intros q Hq. by apply Hspec.
Qed.

Lemma init_spare {V} (zero : V) (nums : list V) sets :
  spare (subsets (init zero nums sets)) = naive_additions sets.
Proof.
  unfold init, spare, naive_additions. simpl.
  change (λ (i : nat) (subset : list nat), (i, set_of subset))
    with (λ (i : nat) (subset : list nat), (id i, set_of subset)).
  generalize (@id nat).
  induction sets as [|s l IH]; intros f; simpl; [done|].
  f_equal. apply (IH (f ∘ Datatypes.S)).
Qed.

Lemma mock_multisubset_spare (nums : list Z) sets c r c' :
  nums ≠ [] → valid_indices nums sets →
  Stateful.multisubset mock_adder 0%Z nums sets c = Return (r, c') →
  c' ≤ c + naive_additions sets.
Proof.
  intros Hne Hvalid. unfold Stateful.multisubset. rewrite for_range_unary. intros Hr.
  destruct (for_range_nat _ _ _) as [res|e] eqn:Hloop; [|done].
  apply (for_range_nat_invariant (Stateful.run_round mock_adder)
    (λ sc : state * nat,
       inv Z.add 0%Z (target Z.add 0%Z nums sets) (length sets) sc.1
       ∧ sc.2 + spare (subsets sc.1) ≤ c + naive_additions sets)
    (λ oc : list Z * nat, oc.2 ≤ c + naive_additions sets)) in Hloop.
  - destruct res as [oc|sc]; injection Hr as <- <-; [done|]. destruct Hloop. lia.
  - intros [st c1] res1 [Hinv Hle]. unfold Stateful.run_round. cbn [fst snd] in *.
    pose proof (pure_round mock_adder Z.add ltac:(done) st c1) as Hpure.
    destruct (Stateful.round mock_adder st c1) as [[[out|st'] c2]|e1] eqn:Hround; [| |done];
      intros [= <-]; pose proof (mock_round_spare _ _ _ _ _ _ Hinv Hround) as Hc;
      cbn [fst snd] in *.
    + lia.
    + split; [|lia]. simpl in Hpure.
      destruct (round_spec Z.add 0%Z _ _ st Hinv) as [(out & Heq & _)|(st'' & Heq & ? & _)];
        rewrite Heq in Hpure; by simplify_eq.
  - cbn [fst snd]. rewrite (init_spare 0%Z nums sets). split; [|lia].
    by apply (init_inv Z.add 0%Z).
Qed.

(** ** The solvers when the rounds may run out *)

Lemma for_range_nat_cases {S R} (body : S → result (R + S))
    (I : S → Prop) (Q : R → Prop) :
  (∀ s, I s → (∃ r, body s = Return (inl r) ∧ Q r)
              ∨ (∃ s', body s = Return (inr s') ∧ I s')) →
  ∀ n s, I s →
    (∃ r, for_range_nat body n s = Return (inl r) ∧ Q r)
    ∨ (∃ s', for_range_nat body n s = Return (inr s') ∧ I s').
Proof.
  intros Hbody n. induction n as [|n IH]; intros s Hs; [right; by eexists|].
  simpl. destruct (Hbody s Hs) as [(r & -> & Hr)|(s' & -> & Hs')]; simpl.
  - left. by eexists.
  - by apply IH.
Qed.

Lemma multisubset_cases {V} (adder : V → V → V) (zero : V) `{!AdditiveLaws adder zero}
    (nums : list V) (sets : list (list nat)) :
  nums ≠ [] → valid_indices nums sets →
  multisubset adder zero nums sets = Return (Some (naive_sums adder zero nums sets))
  ∨ multisubset adder zero nums sets = Return None.
Proof.
  intros Hne Hvalid. unfold multisubset. rewrite for_range_unary.
  destruct (for_range_nat_cases (round adder)
              (inv adder zero (target adder zero nums sets) (length sets))
              (λ out, length out = length sets
                      ∧ ∀ k, k < length sets
                             → out !! k = Some (target adder zero nums sets k)))
    with (n := Pos.to_nat round_cap) (s := init zero nums sets)
    as [(out & -> & Hlen & Hout)|(st' & -> & _)].
  - intros st Hst.
    destruct (round_spec adder zero _ _ st Hst) as [(out & ? & ?)|(st' & ? & ? & _)]; eauto.
  - by apply init_inv.
  - left. simpl. do 2 f_equal. apply list_eq. intros k.
    destruct (decide (k < length sets)) as [Hk|Hk].
    + rewrite Hout by done. unfold target, naive_sums.
      destruct (lookup_lt_is_Some_2 sets k Hk) as [s Hs].
      by rewrite list_lookup_fmap, Hs.
    + rewrite !lookup_ge_None_2; [done|unfold naive_sums; rewrite length_fmap; lia|lia].
  - by right.
Qed.

Section RecombineCalls.
Context {V : Type} (adder : V → V → V) (zero : V).

Lemma recombine_loop_calls subset_sums l oc r :
  foldlM (λ oc i, let (d, c) := call_adder adder oc.1 oc.1 oc.2 in
                  s ← subscript subset_sums i;
                  Return (call_adder adder d s c)) oc l = Return r →
  r.2 = oc.2 + 2 * length l.
Proof.
  revert oc. induction l as [|i l IH]; intros oc.
  - intros [= <-]. simpl. lia.
  - cbn [foldlM call_adder]. destruct (subscript subset_sums i) as [s|e]; [|done].
    rewrite bind_ret. intros Hr%IH. simpl in *. lia.
Qed.

Lemma recombine_calls subsets subset_sums r :
  recombine adder zero subsets subset_sums = Return r → r.2 = 2 * length subsets.
Proof.
  unfold recombine. intros Hr%recombine_loop_calls.
  by rewrite length_reverse, length_seq in Hr.
Qed.

Lemma recombine_none subsets :
  subsets ≠ [] → recombine adder zero subsets None = Raise TypeError.
Proof.
  intros Hne. unfold recombine. destruct subsets as [|s subsets]; [done|].
  cbn [length]. by rewrite seq_S, reverse_app.
Qed.
End RecombineCalls.

Lemma bit_subsets_length len factors maxbitlen subsets :
  bit_subsets len factors maxbitlen = Return subsets → length subsets = maxbitlen + 1.
Proof.
  unfold bit_subsets.
  assert (∀ l acc,
            foldlM (λ subsets j, s ← bit_subset len factors j; Return (subsets ++ [s]))
                   acc l = Return subsets →
            length subsets = length acc + length l) as Hloop.
  2:{ intros Hr%Hloop. by rewrite length_seq in Hr. }
  induction l as [|j l IH]; intros acc.
  - intros [= <-]. simpl. lia.
  - cbn [foldlM]. destruct (bit_subset len factors j) as [s|e]; [|done]. rewrite bind_ret.
    intros Hr%IH. rewrite length_app in Hr. simpl in *. lia.
Qed.

Lemma lincomb_counted_calls {V} (adder : V → V → V) (zero : V)
    (nums : list V) (factors : list Z) r :
  lincomb_counted adder zero nums factors = Return r →
  r.2 = 2 * (maxbitlen factors + 1).
Proof.
  unfold lincomb_counted.
  change ((λ f, String.length (bin f) - 2) <$> factors) with (bitlen <$> factors).
  destruct factors as [|f factors]; [done|].
  rewrite (max_of_maxbitlen (f :: factors)) by done. rewrite bind_ret.
  destruct (bit_subsets _ _ _) as [subsets|e] eqn:Hsub; [|done]. rewrite bind_ret.
  destruct (multisubset _ _ _ _) as [subset_sums|e]; [|done]. rewrite bind_ret.
  intros Hr%recombine_calls. by rewrite (bit_subsets_length _ _ _ _ Hsub) in Hr.
Qed.

Lemma lincomb_counted_cases {V} (adder : V → V → V) (zero : V)
    `{!AdditiveLaws adder zero} (nums : list V) (factors : list Z) :
  nums ≠ [] → length nums ≤ length factors →
  lincomb_counted adder zero nums factors
  = Return (weighted_sum adder zero nums
              ((λ f, bits_val f 0 (maxbitlen factors + 1)) <$> factors),
            2 * (maxbitlen factors + 1))
  ∨ lincomb_counted adder zero nums factors = Raise TypeError.
Proof.
  intros Hne Hlen. unfold lincomb_counted.
  change ((λ f, String.length (bin f) - 2) <$> factors) with (bitlen <$> factors).
  assert (factors ≠ []) as Hfactors.
  { intros ->. destruct nums; [done|]. simpl in Hlen. lia. }
  rewrite (max_of_maxbitlen _ Hfactors), bind_ret.
  rewrite (bit_subsets_spec _ _ _ Hlen), bind_ret.
  destruct (multisubset_cases adder zero nums
              (bit_columns (length nums) factors (maxbitlen factors + 1)) Hne
              (bit_columns_valid _ _ _)) as [-> | ->]; rewrite bind_ret.
  - left. rewrite (recombine_spec adder zero). do 2 f_equal.
    rewrite (weighted_sum_index adder zero) by (rewrite length_fmap; exact Hlen).
    unfold partial. f_equal. apply list_fmap_ext. intros _ i Hi%list_elem_of_lookup_2.
    apply elem_of_seq in Hi. f_equal. rewrite list_lookup_fmap. unfold factor_at.
    destruct (lookup_lt_is_Some_2 factors i) as [f ->]; [lia|]. reflexivity.
  - right. apply recombine_none. unfold bit_columns.
    rewrite Nat.add_1_r, seq_S, fmap_app. by destruct (_ <$> seq 0 (maxbitlen factors)).
Qed.

(** ** Every pair of a subset is ranked *)

Lemma foldl_reaches {A B} (P : A → Prop) (f : A → B → A) l x a :
  x ∈ l → (∀ a, P (f a x)) → (∀ a y, P a → P (f a y)) → P (foldl f a l).
Proof.
  intros Hx Hat Hkeep. revert a. induction l as [|y l IH]; intros a.
  - by apply elem_of_nil in Hx.
  - simpl. apply elem_of_cons in Hx as [<-|Hx].
    + apply foldl_invariant; [apply Hat|]. intros a' y _. apply Hkeep.
    + by apply IH.
Qed.

Lemma bump_key_in p pc : p ∈ (bump p pc).*1.
Proof.
  induction pc as [|[q c] pc IH]; simpl; [left|].
  case_bool_decide as Hq; simpl; [subst; left|by right].
Qed.

Lemma bump_keys_mono p pc q : q ∈ pc.*1 → q ∈ (bump p pc).*1.
Proof.
  induction pc as [|[q' c] pc IH]; simpl; [by intros ?%elem_of_nil|].
  case_bool_decide; simpl; rewrite !elem_of_cons; naive_solver.
Qed.

Lemma count_pairs_complete subs ks x y :
  ks ∈ subs → x ∈ ks.2 → y ∈ ks.2 → x < y → (x, y) ∈ (count_pairs subs).*1.
Proof.
  intros Hks Hx Hy Hlt. unfold count_pairs.
  assert (∀ x' pc (l : list nat),
            (x, y) ∈ pc.*1 →
            (x, y) ∈ (foldl (λ pc y', if bool_decide (x' < y') then bump (x', y') pc else pc)
                            pc l).*1) as Hinner.
  { intros x' pc l Hpc. apply foldl_invariant; [done|].
    intros pc' y' _ Hpc'. case_bool_decide; [by apply bump_keys_mono|done]. }
  assert (∀ pc (l l' : list nat),
            (x, y) ∈ pc.*1 →
            (x, y) ∈ (foldl (λ pc x', foldl (λ pc y', if bool_decide (x' < y')
                                                      then bump (x', y') pc else pc) pc l')
                            pc l).*1) as Hmiddle.
  { intros pc l l' Hpc. apply foldl_invariant; [done|]. intros pc' x' _ Hpc'. by apply Hinner. }
  apply (foldl_reaches (λ pc : list ((nat * nat) * nat), (x, y) ∈ pc.*1) _ _ ks); [done| |].
  - intros pc.
    apply (foldl_reaches (λ pc : list ((nat * nat) * nat), (x, y) ∈ pc.*1) _ _ x); [done| |].
    + intros pc1.
      apply (foldl_reaches (λ pc : list ((nat * nat) * nat), (x, y) ∈ pc.*1) _ _ y); [done| |].
      * intros pc2. rewrite bool_decide_true by done. apply bump_key_in.
      * intros pc2 y' Hpc2. case_bool_decide; [by apply bump_keys_mono|done].
    + intros pc1 x' Hpc1. by apply Hinner.
  - intros pc ks' Hpc. by apply Hmiddle.
Qed.

Lemma int_log_pos n : 3 ≤ n → 1 ≤ int_log n.
Proof.
  intros Hn. unfold int_log, exp_ceilings. rewrite filter_cons_True by lia. simpl. lia.
Qed.

Lemma pairs_by_count_nonempty {V} (nums : list V) subs ks x y :
  3 ≤ length nums → ks ∈ subs → x ∈ ks.2 → y ∈ ks.2 → x < y →
  ∃ p rest, pairs_by_count nums subs = Return (p :: rest).
Proof.
  intros Hlen Hks Hx Hy Hlt. unfold pairs_by_count, int_math_log.
  rewrite bool_decide_false by lia. rewrite bind_ret.
  pose proof (count_pairs_complete subs ks x y Hks Hx Hy Hlt) as Hin.
  rewrite <-(sorted_by_count_perm (count_pairs subs)) in Hin.
  pose proof (int_log_pos _ Hlen) as Hlog.
  destruct ((sorted_by_count (count_pairs subs)).*1) as [|p ranked];
    [by apply elem_of_nil in Hin|].
  destruct (length nums * int_log (length nums)) as [|k] eqn:Hk; [nia|].
  simpl. by eexists _, _.
Qed.

(** ** Subsets that take one round each *)

Lemma star_rewritten m k idx (ks : nat * list nat) :
  ks.2 = [] ∨ (∃ j, j < m ∧ ks.2 = [0; S j]) →
  rewritten 0 (S k) idx ks = if bool_decide (ks.2 = [0; S k]) then None else Some ks.
Proof.
  destruct ks as [key s]. unfold rewritten, hit, shrink, set_remove. cbn [fst snd].
  intros [->|(j & _ & ->)].
  - rewrite (bool_decide_false ([] = [0; S k])) by done.
    rewrite (bool_decide_false (0 ∈ [])) by (by intros ?%elem_of_nil). done.
  - rewrite (bool_decide_true (0 ∈ [0; S j])) by left.
    destruct (decide (j = k)) as [->|Hjk].
    + rewrite (bool_decide_true (S k ∈ [0; S k])) by (right; left).
      rewrite (bool_decide_true ([0; S k] = [0; S k])) by done. cbn [andb].
      rewrite filter_cons_False by naive_solver.
      rewrite filter_cons_True by done. rewrite filter_nil.
      rewrite filter_cons_False by naive_solver. rewrite filter_nil.
      by rewrite bool_decide_true.
    + rewrite (bool_decide_false (S k ∈ [0; S j])).
      * cbn [andb]. rewrite bool_decide_false; [done|]. intros [= ?]. lia.
      * rewrite !elem_of_cons, elem_of_nil. lia.
Qed.

Lemma omap_all_kept {A} (f : A → option A) (l : list A) :
  (∀ x, x ∈ l → f x = Some x) → omap f l = l.
Proof.
  induction l as [|x l IH]; intros Hf; [done|].
  cbn [omap list_omap]. rewrite Hf by left. simpl. f_equal. apply IH.
  intros y Hy. apply Hf. by right.
Qed.

Lemma star_merge m k idx subs :
  starlike m subs →
  starlike m (omap (rewritten 0 (S k) idx) subs)
  ∧ total_size subs ≤ total_size (omap (rewritten 0 (S k) idx) subs) + 2.
Proof.
  unfold starlike, total_size. induction subs as [|ks subs IH].
  - intros _. simpl. split_and!; [constructor..| |lia]. by intros ? ?%elem_of_nil.
  - intros (Hkeys & Hsets & Hall). rewrite fmap_cons in Hkeys. rewrite fmap_cons in Hsets.
    apply NoDup_cons in Hkeys as [Hk Hkeys]. apply NoDup_cons in Hsets as [Hs Hsets].
    assert (∀ ks', ks' ∈ subs →
              ks'.1 ≤ m ∧ (ks'.2 = [] ∨ ∃ j, j < m ∧ ks'.2 = [0; S j])) as Hall'.
    { intros ks' Hin. apply Hall. by right. }
    destruct (IH (conj Hkeys (conj Hsets Hall'))) as ((Hkeys1 & Hsets1 & Hall1) & Hsize).
    destruct (Hall ks ltac:(left)) as [Hkm Hshape].
    cbn [omap list_omap]. rewrite (star_rewritten m k idx ks Hshape).
    case_bool_decide as Heq.
    + rewrite omap_all_kept.
      * split; [done|]. simpl. rewrite Heq. simpl. lia.
      * intros ks' Hin. destruct (Hall' ks' Hin) as [_ Hshape'].
        rewrite (star_rewritten m k idx ks' Hshape'), bool_decide_false; [done|].
        intros Heq'. apply Hs. apply list_elem_of_fmap. exists ks'. split; [congruence|done].
    + split; [|simpl; lia]. split_and!.
      * rewrite fmap_cons. apply NoDup_cons. split; [|done].
        intros Hin. apply Hk.
        eapply elem_of_sublist; [exact Hin|].
        apply omap_keys_sublist. intros ab ab'. apply rewritten_key.
      * rewrite fmap_cons. apply NoDup_cons. split; [|done].
        intros (ks' & Hks' & (ks0 & Hks0 & Hrw)%list_elem_of_omap)%list_elem_of_fmap.
        destruct (Hall' ks0 Hks0) as [_ Hshape0].
        rewrite (star_rewritten m k idx ks0 Hshape0) in Hrw.
        case_bool_decide; [done|]. injection Hrw as <-.
        apply Hs. apply list_elem_of_fmap. by exists ks0.
      * intros ks' [->|Hin]%elem_of_cons; [done|by apply Hall1].
Qed.

Lemma merge_skipped {V} (adder : V → V → V) (st : @state V) used rest :
  (∀ q, q ∈ rest → q.1 ∈ used ∨ q.2 ∈ used) →
  foldlM (merge_pair adder) (st, used) rest = Return (st, used).
Proof.
  induction rest as [|q rest IH]; intros Hused; [done|].
  cbn [foldlM].
  assert (merge_pair adder (st, used) q = Return (st, used)) as ->.
  { unfold merge_pair.
    assert (bool_decide (q.1 ∈ used) || bool_decide (q.2 ∈ used) = true) as ->; [|done].
    apply orb_true_iff.
    destruct (Hused q ltac:(left)); [left|right]; by apply bool_decide_eq_true. }
  rewrite bind_ret. apply IH. intros q' Hq'. apply Hused. by right.
Qed.

Lemma star_sets_elem m s :
  s ∈ star_sets m → s = [] ∨ ∃ j, j < m ∧ s = [0; S j].
Proof.
  unfold star_sets. intros [(j & -> & Hj%elem_of_seq)%list_elem_of_fmap|Hs]%elem_of_app.
  - right. exists j. split; [lia|done].
  - left. by apply list_elem_of_singleton in Hs.
Qed.

Lemma star_sets_last m : star_sets m !! m = Some [].
Proof.
  unfold star_sets. rewrite lookup_app_r by (by rewrite length_fmap, length_seq).
  by rewrite length_fmap, length_seq, Nat.sub_diag.
Qed.

Section StarRounds.
Context {V : Type} (adder : V → V → V) (zero : V) (m : nat).

Lemma star_pair (subs : list (nat * list nat)) (q : nat * nat) :
  starlike m subs → q.1 < q.2 →
  (∃ ks, ks ∈ subs ∧ q.1 ∈ ks.2 ∧ q.2 ∈ ks.2) →
  ∃ k, k < m ∧ q = (0, S k).
Proof.
  intros (_ & _ & Hall) Hlt (ks & Hks & H1 & H2).
  destruct (Hall ks Hks) as [_ [Hnil|(j & Hj & Heq)]].
  - rewrite Hnil in H1. by apply elem_of_nil in H1.
  - rewrite Heq in H1, H2. rewrite !elem_of_cons, elem_of_nil in H1, H2.
    exists j. split; [done|]. destruct q as [q1 q2]. simpl in *. f_equal; lia.
Qed.

Lemma star_round st :
  2 ≤ m → star_state m st → 0 < total_size (subsets st) →
  ∃ st', round adder st = Return (inr st')
         ∧ star_state m st'
         ∧ total_size (subsets st) ≤ total_size (subsets st') + 2.
Proof.
  intros Hm [Hstar Hnum Hout] Hsize.
  assert (∃ ks j, ks ∈ subsets st ∧ j < m ∧ ks.2 = [0; S j]) as (ks & j & Hks & Hj & Hshape).
  { destruct Hstar as (_ & _ & Hall). unfold total_size in Hsize.
    induction (subsets st) as [|ks subs IH]; [simpl in Hsize; lia|].
    destruct (Hall ks ltac:(left)) as [_ [Hnil|(j & Hj & Heq)]].
    - destruct IH as (ks' & j & Hin & ?).
      + intros ks' Hin. apply Hall. by right.
      + simpl in Hsize. rewrite Hnil in Hsize. simpl in Hsize. lia.
      + exists ks', j. split; [by right|done].
    - exists ks, j. split; [left|done]. }
  destruct (pairs_by_count_nonempty (numbers st) (subsets st) ks 0 (S j))
    as (p & rest & Hpairs); [lia|done|rewrite Hshape; left|rewrite Hshape; right; left|lia|].
  destruct (pairs_by_count_spec (numbers st) (subsets st)) as (pairs & Heq & Hspec); [lia|].
  rewrite Hpairs in Heq. injection Heq as <-.
  unfold round. rewrite Hpairs, bind_ret, bool_decide_false by done.
  destruct (Hspec p ltac:(left)) as [Hlt Hex].
  destruct (star_pair (subsets st) p Hstar Hlt Hex) as (k & Hk & ->).
  cbn [foldlM].
  destruct (lookup_lt_is_Some_2 (numbers st) 0) as [a Ha]; [lia|].
  destruct (lookup_lt_is_Some_2 (numbers st) (S k)) as [b Hb]; [lia|].
  destruct (rewrite_subsets_spec 0 (S k) (numbers st ++ [adder a b]) (adder a b)
              (subsets st) (output st)) as (out' & Hrw & Hlen' & _).
  { apply last_snoc. }
  { apply Hstar. }
  { intros ks' Hin. destruct Hstar as (_ & _ & Hall). destruct (Hall ks' Hin). lia. }
  assert (merge_pair adder (st, []) (0, S k)
          = Return (State (numbers st ++ [adder a b])
                      (omap (rewritten 0 (S k) (length (numbers st ++ [adder a b]) - 1))
                         (subsets st)) out',
                    set_add (S k) (set_add 0 []))) as ->.
  { unfold merge_pair. cbn [fst snd].
    rewrite (bool_decide_false (0 ∈ [])) by (by intros ?%elem_of_nil).
    rewrite (bool_decide_false (S k ∈ [])) by (by intros ?%elem_of_nil). cbn [orb].
    rewrite (getitem_Some _ _ _ Ha), bind_ret, (getitem_Some _ _ _ Hb), bind_ret.
    by rewrite Hrw, bind_ret. }
  rewrite bind_ret.
  rewrite merge_skipped.
  - rewrite bind_ret. cbn [fst]. eexists. split; [done|].
    destruct (star_merge m k (length (numbers st ++ [adder a b]) - 1) (subsets st) Hstar)
      as [Hstar' Hle].
    split; [|exact Hle]. split; cbn [numbers subsets output]; [done| |congruence].
    rewrite length_app. lia.
  - intros q Hq. left. destruct (Hspec q ltac:(by right)) as [Hlt' Hex'].
    destruct (star_pair (subsets st) q Hstar Hlt' Hex') as (k' & _ & ->). cbn [fst].
    rewrite !elem_of_set_add. right. by left.
Qed.

Lemma star_rounds n st :
  2 ≤ m → star_state m st → 2 * n ≤ total_size (subsets st) →
  ∃ st', for_range_nat (round adder) n st = Return (inr st').
Proof.
  intros Hm. revert st. induction n as [|n IH]; intros st Hst Hsize; [by eexists|].
  destruct (star_round st Hm Hst) as (st' & Hround & Hst' & Hle); [lia|].
  simpl. rewrite Hround. simpl. apply IH; [done|lia].
Qed.

Lemma star_init (nums : list V) :
  length nums = S m → star_state m (init zero nums (star_sets m)).
Proof.
  intros Hlen. split; unfold init; cbn [numbers subsets output].
  - pose proof (init_keys zero nums (star_sets m)) as Hkeys. cbn [init subsets] in Hkeys.
    assert ((imap (λ i subset, (i, set_of subset)) (star_sets m)).*2 = star_sets m) as Hsets.
    { rewrite fmap_imap. rewrite (imap_ext _ (λ _ s, s)).
      - clear. generalize (star_sets m). intros l. generalize 0.
        induction l as [|x l IH]; intros i; [done|]. simpl. f_equal.
        rewrite <-(IH (S i)) at 2. apply imap_ext. done.
      - intros i s Hs. simpl. apply set_of_NoDup_id.
        apply list_elem_of_lookup_2 in Hs.
        destruct (star_sets_elem m s Hs) as [->|(j & _ & ->)]; [constructor|].
        apply NoDup_cons. split; [rewrite list_elem_of_singleton; lia|].
        apply NoDup_singleton. }
    split_and!.
    + rewrite Hkeys. apply NoDup_seq.
    + rewrite Hsets. unfold star_sets. apply NoDup_app. split_and!.
      * apply NoDup_fmap_2; [|apply NoDup_seq]. by intros i j [= ->].
      * intros s (j & -> & _)%list_elem_of_fmap [=]%list_elem_of_singleton.
      * apply NoDup_singleton.
    + intros ks Hks. split.
      * assert (ks.1 ∈ seq 0 (length (star_sets m))) as Hk.
        { rewrite <-Hkeys. apply list_elem_of_fmap. by exists ks. }
        apply elem_of_seq in Hk. unfold star_sets in Hk.
        rewrite length_app, length_fmap, length_seq in Hk. simpl in Hk. lia.
      * assert (ks.2 ∈ star_sets m) as Hs.
        { rewrite <-Hsets. apply list_elem_of_fmap. by exists ks. }
        by apply star_sets_elem.
  - lia.
  - unfold star_sets. rewrite length_replicate, length_app, length_fmap, length_seq. simpl. lia.
Qed.

Lemma star_index_count : index_count (star_sets m) = 2 * m.
Proof.
  unfold index_count, star_sets. rewrite sum_list_with_app. simpl.
  assert (∀ l : list nat,
            sum_list_with (λ s, length (set_of s)) ((λ j, [0; S j]) <$> l) = 2 * length l)
    as Hsum; [|rewrite Hsum, length_seq; lia].
  induction l as [|j l IH]; [done|]. rewrite fmap_cons. cbn [sum_list_with length].
  rewrite IH. assert (length (set_of [0; S j]) = 2) as ->; [|lia].
  rewrite set_of_NoDup_id; [done|].
  apply NoDup_cons. split; [rewrite list_elem_of_singleton; lia|apply NoDup_singleton].
Qed.

Lemma multisubset_star (nums : list V) :
  Pos.to_nat round_cap ≤ m → length nums = S m →
  multisubset adder zero nums (star_sets m) = Return None.
Proof.
  intros Hcap Hlen. unfold multisubset. rewrite for_range_unary.
  assert (2 ≤ m) as Hm by (unfold round_cap in Hcap; lia).
  destruct (star_rounds (Pos.to_nat round_cap) (init zero nums (star_sets m)) Hm
              (star_init nums Hlen)) as [st' ->]; [|done].
  rewrite init_size, star_index_count. lia.
Qed.

Lemma star_valid (nums : list V) :
  length nums = S m → valid_indices nums (star_sets m).
Proof.
  intros Hlen s i Hs Hi.
  destruct (star_sets_elem m s Hs) as [->|(j & Hj & ->)]; [by apply elem_of_nil in Hi|].
  rewrite !elem_of_cons, elem_of_nil in Hi. lia.
Qed.
End StarRounds.

(** ** Factors whose bit subsets take one round each *)

Lemma filter_seq_singleton (P : nat → Prop) `{∀ x, Decision (P x)} a n k :
  a ≤ k < a + n → (∀ i, a ≤ i < a + n → (P i ↔ i = k)) → filter P (seq a n) = [k].
Proof.
  revert a. induction n as [|n IH]; intros a Hk HP; [lia|].
  cbn [seq]. destruct (decide (a = k)) as [->|Hne].
  - rewrite filter_cons_True by (apply HP; lia). f_equal.
    apply filter_none. intros i Hi%elem_of_seq Hpi. apply HP in Hpi; lia.
  - rewrite filter_cons_False by (intros Hpa; apply HP in Hpa; lia).
    apply IH; [lia|]. intros i Hi. apply HP. lia.
Qed.

Lemma star_factors_length m : length (star_factors m) = S m.
Proof. unfold star_factors. cbn [length]. by rewrite length_fmap, length_seq. Qed.

Lemma star_factors_nonneg m : Forall (λ f, (0 ≤ f)%Z) (star_factors m).
Proof.
  unfold star_factors. constructor.
  - rewrite Z.ones_equiv. pose proof (Z.pow_pos_nonneg 2 (Z.of_nat m)). lia.
  - apply Forall_fmap, Forall_forall. intros j _. simpl. apply Z.pow_nonneg. lia.
Qed.

Lemma star_factors_maxbitlen m : 1 ≤ m → maxbitlen (star_factors m) = m.
Proof.
  intros Hm. apply Nat.le_antisymm.
  - apply maxbitlen_le. unfold star_factors. constructor.
    + apply bitlen_le; [done|]. rewrite Z.ones_equiv.
      pose proof (Z.pow_pos_nonneg 2 (Z.of_nat m)). lia.
    + apply Forall_fmap, Forall_forall. intros j Hj%elem_of_seq. simpl.
      apply bitlen_le; [done|]. split; [apply Z.pow_nonneg; lia|].
      apply Z.pow_lt_mono_r; lia.
  - etrans; [|apply (bitlen_le_maxbitlen (Z.ones (Z.of_nat m))); left].
    assert (0 ≤ Z.ones (Z.of_nat m))%Z as Hpos.
    { rewrite Z.ones_equiv. pose proof (Z.pow_pos_nonneg 2 (Z.of_nat m)). lia. }
    pose proof (nonneg_lt_pow2_bitlen _ Hpos) as Hlt. rewrite Z.ones_equiv in Hlt at 1.
    destruct (decide (m ≤ bitlen (Z.ones (Z.of_nat m)))) as [|Hless]; [done|].
    assert (2 ^ Z.of_nat (bitlen (Z.ones (Z.of_nat m))) < 2 ^ Z.of_nat m)%Z
      by (apply Z.pow_lt_mono_r; lia).
    lia.
Qed.

Lemma star_factors_columns m :
  1 ≤ m → bit_columns (S m) (star_factors m) (m + 1) = star_sets m.
Proof.
  intros Hm. unfold bit_columns, star_sets. rewrite Nat.add_1_r.
  set (column := λ j, filter (bit_set (star_factors m) j) (seq 0 (S m))).
  rewrite seq_S, fmap_app. subst column. cbn beta.
  f_equal.
  - apply list_fmap_ext. intros _ j Hj%list_elem_of_lookup_2. apply elem_of_seq in Hj.
    cbn [seq]. rewrite filter_cons_True.
    + f_equal. apply filter_seq_singleton; [lia|]. intros i Hi.
      unfold bit_set, factor_at, star_factors.
      destruct i as [|i]; [lia|]. rewrite lookup_cons.
      rewrite list_lookup_fmap, lookup_seq_lt by lia. simpl.
      rewrite Z.pow2_bits_eqb by lia. rewrite Z.eqb_eq. lia.
    + unfold bit_set, factor_at, star_factors. simpl. apply Z.ones_spec_low. lia.
  - rewrite list_fmap_singleton. f_equal.
    apply top_column_empty; [apply star_factors_nonneg|].
    by rewrite star_factors_maxbitlen.
Qed.

Lemma lincomb_star {V} (adder : V → V → V) (zero : V) (m : nat) (nums : list V) :
  Pos.to_nat round_cap ≤ m → length nums = S m →
  lincomb adder zero nums (star_factors m) = Raise TypeError.
Proof.
  intros Hcap Hlen. unfold lincomb, lincomb_counted.
  change ((λ f, String.length (bin f) - 2) <$> star_factors m)
    with (bitlen <$> star_factors m).
  assert (1 ≤ m) as Hm by (unfold round_cap in Hcap; lia).
  rewrite max_of_maxbitlen by done. rewrite bind_ret.
  rewrite bit_subsets_spec by (rewrite star_factors_length; lia). rewrite bind_ret.
  rewrite star_factors_maxbitlen, Hlen, star_factors_columns by done.
  rewrite (multisubset_star adder zero m nums Hcap Hlen), bind_ret.
  rewrite recombine_none; [done|]. unfold star_sets. by destruct (_ <$> seq 0 m).
Qed.

(** * The claims *)

(** C1. The failing input of the claim that [multisubset] returns the sums
    for every elements list: no elements and no subsets.  The naive sums are
    the empty list, the call raises. *)
Theorem multisubset_no_elements_no_subsets :
  naive_sums Z.add 0%Z [] [] = []
  ∧ multisubset Z.add 0%Z [] [] = Raise ValueError.
Proof. split; vm_compute; reflexivity. Qed.




(** C3. The failing input of the claim that the two solvers agree on every
    input: on no elements and no subsets [multisubset2] returns the empty
    list of sums and [multisubset] raises. *)
Theorem solvers_differ_on_no_elements :
  multisubset2 Z.add 0%Z [] [] = Return []
  ∧ multisubset Z.add 0%Z [] [] = Raise ValueError.
Proof. split; vm_compute; reflexivity. Qed.




(** C5, the claim as stated fails: index 3 is no position of the three
    elements and index 5 none of the two, and both solvers return sums. *)
Lemma solvers_accept_out_of_range_index :
  multisubset Z.add 0%Z [2; 3; 5]%Z [[0; 1]; [3]] = Return (Some [5; 5]%Z)
  ∧ multisubset2 Z.add 0%Z [2; 3]%Z [[5]] = Return [0%Z].
Proof. split; vm_compute; reflexivity. Qed.

(** C5, amended. Neither solver checks an index.  [multisubset2] never fails
    on one that is out of range: it returns, for every subset, the
    adder-fold of the elements at the subset's indices that are in range.
    [multisubset] fails, with Python's [IndexError], when some index is so
    large that no merge can bring it into range: at least the number of
    elements plus the number of index occurrences in the subsets. *)
Theorem out_of_range_index_behaviour {V} (adder : V → V → V) (zero : V)
    `{!AdditiveLaws adder zero} (numbers : list V) (sets : list (list nat)) :
  (∃ subset i, subset ∈ sets ∧ i ∈ subset ∧ length numbers ≤ i) →
  multisubset2 adder zero numbers sets
  = Return (naive_sums adder zero numbers (filter (λ i, i < length numbers) <$> sets))
  ∧ (numbers ≠ [] →
     (∃ subset i, subset ∈ sets ∧ i ∈ subset ∧ length numbers + index_count sets ≤ i) →
     (Z.of_nat (index_count sets) < Z.pos round_cap)%Z →
     multisubset adder zero numbers sets = Raise IndexError).
Proof.
  intros _. split; [by apply multisubset2_spec|]. apply multisubset_far_index.
Qed.

Lemma out_of_range_index_behaviour_witness :
  multisubset2 Z.add 0%Z [2; 3]%Z [[5]]
  = Return (naive_sums Z.add 0%Z [2; 3]%Z (filter (λ i, i < 2) <$> [[5]]))
  ∧ multisubset Z.add 0%Z [2; 3]%Z [[5]] = Raise IndexError.
Proof.
  destruct (out_of_range_index_behaviour Z.add 0%Z [2; 3]%Z [[5]]) as [H2 H1].
  { exists [5], 5. split_and!; [left|left|simpl; lia]. }
  split; [exact H2|]. apply H1.
  - discriminate.
  - exists [5], 5. split_and!; [left|left|vm_compute; lia].
  - vm_compute. reflexivity.
Defined.

(** C6, the claim as stated fails: the factor -1 is accepted, and a value is
    returned. *)
Lemma lincomb_accepts_negative_factor :
  (-1 < 0)%Z ∧ lincomb Z.add 0%Z [2]%Z [-1]%Z = Return 14%Z.
Proof. split; [lia|]. vm_compute. reflexivity. Qed.

(** C6, amended. [lincomb] has no check of the sign of a factor.  With as
    many factors as elements, some of them negative, the call returns: every
    factor [f] acts as the number its lowest [B + 1] two's-complement bits
    spell, [f mod 2^(B + 1)], [B] the largest [len(bin(f)) - 2]. *)
Theorem lincomb_negative_factor {V} (adder : V → V → V) (zero : V)
    `{!AdditiveLaws adder zero} (numbers : list V) (factors : list Z) :
  length numbers = length factors →
  Exists (λ f, (f < 0)%Z) factors →
  (Z.of_nat (ones_total (maxbitlen factors + 1) factors) < Z.pos round_cap)%Z →
  lincomb adder zero numbers factors
  = Return (weighted_sum adder zero numbers
              ((λ f, Z.to_nat (f `mod` 2 ^ Z.of_nat (maxbitlen factors + 1))) <$> factors)).
Proof.
  intros Hlen Hneg Hcap. unfold lincomb.
  rewrite (lincomb_counted_spec adder zero).
  - rewrite bind_ret. simpl. do 2 f_equal. apply list_fmap_ext.
    intros _ f _. apply bits_val_mod.
  - intros ->. destruct factors; [by apply Exists_nil in Hneg|done].
  - lia.
  - by rewrite Hlen, firstn_all.
Qed.

Lemma lincomb_negative_factor_witness :
  lincomb Z.add 0%Z [2]%Z [-1]%Z
  = Return (weighted_sum Z.add 0%Z [2]%Z
              ((λ f, Z.to_nat (f `mod` 2 ^ Z.of_nat (maxbitlen [-1]%Z + 1))) <$> [-1]%Z)).
Proof.
  apply (lincomb_negative_factor Z.add 0%Z).
  - reflexivity.
  - left. lia.
  - vm_compute. reflexivity.
Defined.

(** C7, the claim as stated fails: with more factors than elements the call
    returns a value. *)
Lemma lincomb_accepts_surplus_factors :
  length [2]%Z ≠ length [1; 1]%Z
  ∧ lincomb Z.add 0%Z [2]%Z [1; 1]%Z = Return 2%Z.
Proof. split; [discriminate|]. vm_compute. reflexivity. Qed.

(** C7, amended. [lincomb] has no check of the lengths.  With fewer factors
    than elements (at least one) the call fails, with Python's [IndexError],
    when the comprehension reads the factor of the first element that has
    none.  With more non-negative factors than elements (at least one) the
    call returns: the surplus factors only enlarge [B], and the result is the
    combination of the elements with the first factors. *)
Theorem lincomb_length_mismatch {V} (adder : V → V → V) (zero : V)
    `{!AdditiveLaws adder zero} (numbers : list V) (factors : list Z) :
  length numbers ≠ length factors →
  numbers ≠ [] → factors ≠ [] →
  Forall (λ f, (0 ≤ f)%Z) factors →
  (Z.of_nat (ones_total (maxbitlen factors + 1) (take (length numbers) factors))
   < Z.pos round_cap)%Z →
  lincomb adder zero numbers factors
  = if bool_decide (length factors < length numbers) then Raise IndexError
    else Return (weighted_sum adder zero numbers (Z.to_nat <$> factors)).
Proof.
  intros Hlen Hnum Hfac Hpos Hcap. case_bool_decide as Hshort.
  - by apply lincomb_short_factors.
  - unfold lincomb. rewrite (lincomb_counted_spec adder zero); [|done|lia|done].
    rewrite bind_ret. simpl. do 2 f_equal. apply Forall_fmap_ext_1.
    rewrite Forall_forall in Hpos |- *. intros f Hf.
    apply bits_val_small. split; [by apply Hpos|].
    eapply Z.lt_le_trans; [apply nonneg_lt_pow2_bitlen; by apply Hpos|].
    apply Z.pow_le_mono_r; [lia|]. pose proof (bitlen_le_maxbitlen f factors Hf). lia.
Qed.

Lemma lincomb_length_mismatch_witness :
  lincomb Z.add 0%Z [2; 3]%Z [1]%Z = Raise IndexError
  ∧ lincomb Z.add 0%Z [2]%Z [1; 1]%Z
    = Return (weighted_sum Z.add 0%Z [2]%Z (Z.to_nat <$> [1; 1]%Z)).
Proof.
  split.
  - apply (lincomb_length_mismatch Z.add 0%Z [2; 3]%Z [1]%Z).
    + discriminate.
    + discriminate.
    + discriminate.
    + repeat constructor; lia.
    + vm_compute. reflexivity.
  - apply (lincomb_length_mismatch Z.add 0%Z [2]%Z [1; 1]%Z).
    + discriminate.
    + discriminate.
    + discriminate.
    + repeat constructor; lia.
    + vm_compute. reflexivity.
Defined.




(** C9. Whatever the store holds and whichever objects the caller passes
    for [numbers] and [subsets]: when [multisubset] or [multisubset2]
    returns, every object that was in the store at the call, the caller's
    [numbers], the caller's list of subsets and its sets among them, is
    what it was. *)
Theorem solvers_leave_arguments_unchanged {V} (adder : V → V → V) (zero : V)
    (numbers subsets : Heap.loc) (h : list (@Heap.obj V)) :
  (∀ r h', Heap.multisubset adder zero numbers subsets h = Return (r, h') →
           take (length h) h' = h)
  ∧ (∀ r h', Heap.multisubset2 adder zero numbers subsets h = Return (r, h') →
             take (length h) h' = h).
Proof.
  split; intros r h' Hcall.
  - destruct (HeapFrame.keeps_multisubset adder zero (length h) numbers subsets
                h r h' (le_n _) Hcall) as (_ & -> & _).
    by apply take_ge.
  - destruct (HeapFrame.keeps_multisubset2 adder zero (length h) numbers subsets
                h r h' (le_n _) Hcall) as (_ & -> & _).
    by apply take_ge.
Qed.

Lemma solvers_leave_arguments_unchanged_witness :
  let h := [Heap.OList [2; 3; 5]%Z; Heap.OSet [0; 1]; Heap.OSet [1; 2];
            Heap.OSet [0; 1; 2]; Heap.ORefs [1; 2; 3]] in
  (∃ r h', Heap.multisubset Z.add 0%Z 0 4 h = Return (r, h') ∧ take (length h) h' = h)
  ∧ (∃ r h', Heap.multisubset2 Z.add 0%Z 0 4 h = Return (r, h') ∧ take (length h) h' = h).
Proof.
  intros h. split.
  - eexists _, _. split; [vm_compute; reflexivity|].
    apply (proj1 (solvers_leave_arguments_unchanged Z.add 0%Z 0 4 h) (Some 9)).
    vm_compute. reflexivity.
  - eexists _, _. split; [vm_compute; reflexivity|].
    apply (proj2 (solvers_leave_arguments_unchanged Z.add 0%Z 0 4 h) 6).
    vm_compute. reflexivity.
Defined.

(** C10. On the empty elements list [multisubset] raises the math domain
    error of [math.log(0)] whatever the subsets are: the cutoff of the first
    round is evaluated before anything could be returned. *)
Theorem multisubset_empty_elements_raises {V} (adder : V → V → V) (zero : V)
    (sets : list (list nat)) :
  multisubset adder zero [] sets = Raise ValueError.
Proof. unfold multisubset. by rewrite (for_range_raises _ _ _ ValueError). Qed.

(** * Further properties of the module *)

(** X1. [lincomb] called without elements or without factors raises
    [ValueError]: with no factors [max] has nothing to take the maximum of,
    with no elements the solver takes the logarithm of 0. *)
Theorem lincomb_nothing_to_combine {V} (adder : V → V → V) (zero : V)
    (numbers : list V) (factors : list Z) :
  numbers = [] ∨ factors = [] →
  lincomb adder zero numbers factors = Raise ValueError.
Proof.
  intros Hempty. destruct factors as [|f factors]; [done|].
  destruct Hempty as [->|?]; [|done].
  unfold lincomb, lincomb_counted.
  change ((λ f, String.length (bin f) - 2) <$> f :: factors) with (bitlen <$> f :: factors).
  rewrite (max_of_maxbitlen (f :: factors)) by done. rewrite bind_ret.
  rewrite (bit_subsets_spec 0 (f :: factors)) by (simpl; lia). rewrite bind_ret.
  unfold multisubset. by rewrite (for_range_raises _ _ _ ValueError).
Qed.

Lemma lincomb_nothing_to_combine_witness :
  lincomb Z.add 0%Z [] [3; 4]%Z = Raise ValueError.
Proof. apply lincomb_nothing_to_combine. by left. Defined.

(** X2. The subsets [lincomb] builds for non-negative factors number one more
    than the largest [len(bin(f)) - 2], and the last of them, the one of the
    highest bit position, is empty: no factor has that bit. *)
Theorem lincomb_top_subset_empty (len : nat) (factors : list Z) :
  len ≤ length factors → factors ≠ [] →
  Forall (λ f, (0 ≤ f)%Z) factors →
  ∃ subsets, bit_subsets len factors (maxbitlen factors) = Return subsets
             ∧ length subsets = maxbitlen factors + 1
             ∧ list.last subsets = Some [].
Proof.
  intros Hlen Hne Hpos. rewrite (bit_subsets_spec _ _ _ Hlen).
  eexists. split; [done|]. split; [apply bit_columns_length|].
  unfold bit_columns. rewrite Nat.add_1_r, seq_S, fmap_app, list_fmap_singleton, last_snoc. f_equal.
  simpl. by apply top_column_empty.
Qed.

Lemma lincomb_top_subset_empty_witness :
  ∃ subsets, bit_subsets 3 [6; 1; 2]%Z (maxbitlen [6; 1; 2]%Z) = Return subsets
             ∧ length subsets = maxbitlen [6; 1; 2]%Z + 1
             ∧ list.last subsets = Some [].
Proof.
  apply lincomb_top_subset_empty.
  - simpl. lia.
  - discriminate.
  - repeat constructor; lia.
Defined.

(** X3. [multisubset2] reads a subset through the test [in subset] only: two
    lists of subsets with the same members, position by position, get the
    same sums, whatever the adder is and whether or not the indices are in
    range. *)
Theorem multisubset2_membership_only {V} (adder : V → V → V) (zero : V)
    (numbers : list V) (sets1 sets2 : list (list nat)) :
  Forall2 (λ s1 s2, ∀ i, i ∈ s1 ↔ i ∈ s2) sets1 sets2 →
  multisubset2 adder zero numbers sets1 = multisubset2 adder zero numbers sets2.
Proof.
  intros Hmem. unfold multisubset2. rewrite (Forall2_length _ _ _ Hmem).
  destruct (int_math_log (length sets2 + 1)) as [lg|e]; [|done]. rewrite !bind_ret.
  generalize (power_sets_of adder zero (1 + lg) (align zero (1 + lg) (1 + lg) numbers)).
  intros power_sets.
  assert (∀ sums,
    foldlM (λ subset_sums subset,
              o ← subset_sum2 adder zero (1 + lg) power_sets subset;
              Return (subset_sums ++ [o])) sums sets1
    = foldlM (λ subset_sums subset,
                o ← subset_sum2 adder zero (1 + lg) power_sets subset;
                Return (subset_sums ++ [o])) sums sets2) as Hloop; [|apply Hloop].
  induction Hmem as [|s1 s2 sets1 sets2 Hs _ IH]; intros sums; [done|].
  cbn [foldlM].
  assert (subset_sum2 adder zero (1 + lg) power_sets s1
          = subset_sum2 adder zero (1 + lg) power_sets s2) as ->.
  { unfold subset_sum2. apply foldlM_ext. intros o i _.
    by rewrite (index_in_power_set_ext _ _ _ _ Hs). }
  destruct (subset_sum2 adder zero (1 + lg) power_sets s2) as [o|e]; [|done].
  rewrite !bind_ret. apply IH.
Qed.

Lemma multisubset2_membership_only_witness :
  multisubset2 Z.add 0%Z [2; 3; 5]%Z [[0; 1; 1]; [2]]
  = multisubset2 Z.add 0%Z [2; 3; 5]%Z [[1; 0]; [2; 2]].
Proof.
  apply multisubset2_membership_only.
  constructor; [|constructor; [|constructor]];
    intros i; rewrite !elem_of_cons, !elem_of_nil; naive_solver.
Defined.

(** X4. The values the solvers and [lincomb] compute do not depend on what
    the adder does to its own state: with an adder whose returned value is
    [f x y] whatever its state, each of them raises what it raises with the
    plain function [f], or returns what it returns with [f]. *)
Theorem adder_state_is_not_observed {V C} (adder : V → V → C → V * C)
    (f : V → V → V) (zero : V) (numbers : list V) (sets : list (list nat))
    (factors : list Z) (c : C) :
  (∀ x y c, (adder x y c).1 = f x y) →
  erase (Stateful.multisubset adder zero numbers sets c) = multisubset f zero numbers sets
  ∧ erase (Stateful.multisubset2 adder zero numbers sets c)
    = multisubset2 f zero numbers sets
  ∧ erase (Stateful.lincomb adder zero numbers factors c) = lincomb f zero numbers factors.
Proof.
  intros Hvalue. split_and!.
  - by apply pure_multisubset.
  - by apply pure_multisubset2.
  - by apply pure_lincomb.
Qed.

Lemma adder_state_is_not_observed_witness :
  erase (Stateful.multisubset mock_adder 0%Z [2; 3; 5]%Z [[0; 1]; [1; 2]] 7)
  = multisubset Z.add 0%Z [2; 3; 5]%Z [[0; 1]; [1; 2]]
  ∧ erase (Stateful.multisubset2 mock_adder 0%Z [2; 3; 5]%Z [[0; 1]; [1; 2]] 7)
    = multisubset2 Z.add 0%Z [2; 3; 5]%Z [[0; 1]; [1; 2]]
  ∧ erase (Stateful.lincomb mock_adder 0%Z [2; 3; 5]%Z [6; 1; 2]%Z 7)
    = lincomb Z.add 0%Z [2; 3; 5]%Z [6; 1; 2]%Z.
Proof. apply adder_state_is_not_observed. reflexivity. Defined.

(** X5. With an adder that counts its calls, or some of them, [multisubset]
    on a non-empty elements list and valid subsets returns the naive sums and
    leaves the counter at most the number of index occurrences higher: it
    never calls the adder more often than the naive fold does. *)
Theorem multisubset_calls_at_most_naive {V} (adder : V → V → nat → V * nat)
    (f : V → V → V) (zero : V) `{!AdditiveLaws f zero}
    (numbers : list V) (sets : list (list nat)) (c : nat) :
  (∀ x y c, (adder x y c).1 = f x y) →
  (∀ x y c, (adder x y c).2 ≤ c + 1) →
  numbers ≠ [] →
  valid_indices numbers sets →
  (Z.of_nat (index_count sets) < Z.pos round_cap)%Z →
  ∃ c', Stateful.multisubset adder zero numbers sets c
        = Return (Some (naive_sums f zero numbers sets), c')
        ∧ c' ≤ c + index_count sets.
Proof.
  intros Hvalue Hcost Hne Hvalid Hcap.
  pose proof (pure_multisubset adder f zero Hvalue numbers sets c) as Hpure.
  rewrite (multisubset_correct f zero numbers sets Hne Hvalid Hcap) in Hpure.
  destruct (Stateful.multisubset adder zero numbers sets c) as [[r c']|e] eqn:Hrun; [|done].
  injection Hpure as ->. exists c'. split; [done|].
  exact (multisubset_calls_le adder zero Hcost numbers sets c _ c' Hrun).
Qed.

Lemma multisubset_calls_at_most_naive_witness :
  ∃ c', Stateful.multisubset mock_adder 0%Z [2; 3; 5]%Z [[0; 1]; [1; 2]; [0; 1; 2]] 0
        = Return (Some (naive_sums Z.add 0%Z [2; 3; 5]%Z [[0; 1]; [1; 2]; [0; 1; 2]]), c')
        ∧ c' ≤ 0 + index_count [[0; 1]; [1; 2]; [0; 1; 2]].
Proof.
  apply (multisubset_calls_at_most_naive mock_adder Z.add 0%Z).
  - reflexivity.
  - intros x y c. unfold mock_adder. simpl. case_match; lia.
  - discriminate.
  - intros subset i Hsubset Hi. simpl.
    repeat (apply elem_of_cons in Hsubset as [->|Hsubset]);
      [..|by apply elem_of_nil in Hsubset];
      repeat (apply elem_of_cons in Hi as [->|Hi]); try lia;
      by apply elem_of_nil in Hi.
  - vm_compute. reflexivity.
Defined.

(** X6. With an adder that counts every call, [multisubset2] returns, on
    every input, and has made exactly as many calls as the power sets and
    the lookups need: with [p] partitions of size [s], [p * (2^s - 1)] for
    the power sets and [p] for each subset. *)
Theorem multisubset2_calls_exactly {V} (adder : V → V → nat → V * nat)
    (f : V → V → V) (zero : V) `{!AdditiveLaws f zero}
    (numbers : list V) (sets : list (list nat)) (c : nat) :
  (∀ x y c, adder x y c = (f x y, c + 1)) →
  Stateful.multisubset2 adder zero numbers sets c
  = Return (naive_sums f zero numbers (filter (λ i, i < length numbers) <$> sets),
            c + multisubset2_calls (length numbers) (length sets)).
Proof.
  intros Hadder.
  pose proof (pure_multisubset2 adder f zero
                ltac:(by intros; rewrite Hadder) numbers sets c) as Hpure.
  rewrite (multisubset2_spec f zero numbers sets) in Hpure.
  destruct (Stateful.multisubset2 adder zero numbers sets c) as [[sums c']|e] eqn:Hrun;
    [|done].
  injection Hpure as ->.
  destruct (costs_multisubset2 adder zero eq ltac:(done) ltac:(by intros; subst)
              ltac:(by intros; rewrite Hadder) numbers sets c _ c' Hrun) as [-> _].
  done.
Qed.

Lemma multisubset2_calls_exactly_witness :
  Stateful.multisubset2 (λ x y c, ((x + y)%Z, c + 1)) 0%Z [2; 3; 5]%Z
                        [[0; 1]; [1; 2]; [0; 1; 2]] 0
  = Return (naive_sums Z.add 0%Z [2; 3; 5]%Z
              (filter (λ i, i < 3) <$> [[0; 1]; [1; 2]; [0; 1; 2]]),
            0 + multisubset2_calls 3 3).
Proof. apply (multisubset2_calls_exactly (λ x y c, ((x + y)%Z, c + 1)) Z.add 0%Z). done. Defined.

(** X7. With an adder that counts its calls, or some of them, [lincomb] on
    as many non-negative factors as elements, at least one, returns the
    weighted sum and leaves the counter at most the number of one-bits of
    the factors plus two calls per bit subset higher. *)
Theorem lincomb_calls_at_most {V} (adder : V → V → nat → V * nat)
    (f : V → V → V) (zero : V) `{!AdditiveLaws f zero}
    (numbers : list V) (factors : list Z) (c : nat) :
  (∀ x y c, (adder x y c).1 = f x y) →
  (∀ x y c, (adder x y c).2 ≤ c + 1) →
  length numbers = length factors →
  factors ≠ [] →
  Forall (λ f, (0 ≤ f)%Z) factors →
  (Z.of_nat (ones_total (maxbitlen factors + 1) factors) < Z.pos round_cap)%Z →
  ∃ c', Stateful.lincomb adder zero numbers factors c
        = Return (weighted_sum f zero numbers (Z.to_nat <$> factors), c')
        ∧ c' ≤ c + ones_total (maxbitlen factors + 1) factors
                 + 2 * (maxbitlen factors + 1).
Proof.
  intros Hvalue Hcost Hlen Hne Hpos Hcap.
  pose proof (pure_lincomb adder f zero Hvalue numbers factors c) as Hpure.
  rewrite (lincomb_nonneg f zero numbers factors Hlen Hne Hpos Hcap) in Hpure.
  destruct (Stateful.lincomb adder zero numbers factors c) as [[o c']|e] eqn:Hrun; [|done].
  injection Hpure as ->. exists c'. split; [done|].
  pose proof (lincomb_calls_le adder zero Hcost numbers factors c _ c'
                ltac:(lia) Hne Hrun) as Hle.
  by rewrite Hlen, firstn_all in Hle.
Qed.

Lemma lincomb_calls_at_most_witness :
  ∃ c', Stateful.lincomb mock_adder 0%Z [2; 3; 5]%Z [6; 1; 2]%Z 0
        = Return (weighted_sum Z.add 0%Z [2; 3; 5]%Z (Z.to_nat <$> [6; 1; 2]%Z), c')
        ∧ c' ≤ 0 + ones_total (maxbitlen [6; 1; 2]%Z + 1) [6; 1; 2]%Z
                 + 2 * (maxbitlen [6; 1; 2]%Z + 1).
Proof.
  apply (lincomb_calls_at_most mock_adder Z.add 0%Z).
  - reflexivity.
  - intros x y c. unfold mock_adder. simpl. case_match; lia.
  - reflexivity.
  - discriminate.
  - repeat constructor; lia.
  - vm_compute. reflexivity.
Defined.

(** X8. [test_multisubset] passes whatever the generator draws: for at
    least one element, and fewer than 9999999 possible index occurrences, the
    solver returns and every assertion holds. *)
Theorem test_multisubset_passes {R} (randrange : Z → R → Z * R)
    (numcount setcount : nat) (r : R) :
  1 ≤ numcount →
  (Z.of_nat (setcount * numcount) < Z.pos round_cap)%Z →
  test_multisubset randrange numcount setcount r = None.
Proof.
  intros Hnum Hcap. unfold test_multisubset.
  pose proof (draws_length randrange (10 ^ 20) numcount r) as Hlen.
  destruct (draws randrange (10 ^ 20) numcount r) as [numbers r1]. simpl in Hlen.
  destruct (draw_subsets_spec randrange numcount setcount r1) as [Hsets Hall].
  destruct (draw_subsets randrange numcount setcount r1) as [sets r2]. simpl in Hsets, Hall.
  unfold make_mock_adder.
  pose proof (pure_multisubset mock_adder Z.add 0%Z ltac:(done) numbers sets 0) as Hpure.
  rewrite (multisubset_correct Z.add 0%Z numbers sets) in Hpure.
  - destruct (Stateful.multisubset mock_adder 0%Z numbers sets 0) as [[o c]|e]; [|done].
    injection Hpure as ->. apply check_naive_sums.
    eapply Forall_impl; [exact Hall|]. intros s (Hnd & Hlt & _). by rewrite Hlen.
  - intros ->. simpl in Hlen. lia.
  - intros s i Hs Hi. rewrite Forall_forall in Hall.
    destruct (Hall s Hs) as (_ & Hlt & _). rewrite Hlen. by apply Hlt.
  - pose proof (index_count_le numcount sets Hall). lia.
Qed.

Lemma test_multisubset_passes_witness :
  test_multisubset (λ n r, ((Z.of_nat r * 7919 + 13) `mod` n, S r)%Z) 5 4 0 = None.
Proof.
  apply test_multisubset_passes.
  - lia.
  - vm_compute. reflexivity.
Defined.

(** X9. Both tests need an element: called with [numcount = 0],
    [test_multisubset] ends in the [ValueError] of [math.log(0)] and
    [test_lincomb] in the [ValueError] of [max] of no factors, before any
    assertion or print. *)
Theorem tests_without_elements_raise {R} (randrange : Z → R → Z * R)
    (format_2f : nat → nat → String.string) (setcount bitlength : nat) (r : R) :
  test_multisubset randrange 0 setcount r = Some (Uncaught ValueError)
  ∧ test_lincomb randrange format_2f 0 bitlength r = ([], Some (Uncaught ValueError)).
Proof.
  split; [|done]. unfold test_multisubset. cbn [draws].
  destruct (draw_subsets randrange 0 setcount r) as [sets r1]. unfold make_mock_adder.
  pose proof (pure_multisubset mock_adder Z.add 0%Z ltac:(done) [] sets 0) as Hpure.
  unfold multisubset in Hpure. rewrite (for_range_raises _ _ _ ValueError) in Hpure by done.
  destruct (Stateful.multisubset mock_adder 0%Z [] sets 0) as [[o c]|e]; [done|].
  by injection Hpure as ->.
Qed.

(** X10. [test_lincomb] passes whatever a generator that draws in range
    draws: for at least one element and a bit length of at least 1, within
    the round bound of the solver, the assertion holds, nothing is raised and
    the three lines are printed. *)
Theorem test_lincomb_passes {R} (randrange : Z → R → Z * R)
    (format_2f : nat → nat → String.string) (numcount bitlength : nat) (r : R) :
  (∀ n r, (0 < n)%Z → (0 ≤ (randrange n r).1 < n)%Z) →
  1 ≤ numcount → 1 ≤ bitlength →
  (Z.of_nat (numcount * (bitlength + 1)) < Z.pos round_cap)%Z →
  (test_lincomb randrange format_2f numcount bitlength r).2 = None
  ∧ length (test_lincomb randrange format_2f numcount bitlength r).1 = 3.
Proof.
  intros Hrange Hnum Hbits Hcap. unfold test_lincomb.
  pose proof (draws_length randrange (10 ^ 20) numcount r) as Hlen.
  destruct (draws randrange (10 ^ 20) numcount r) as [numbers r1]. simpl in Hlen.
  pose proof (draws_length randrange (2 ^ Z.of_nat bitlength) numcount r1) as Hlen'.
  pose proof (draws_range randrange (2 ^ Z.of_nat bitlength) numcount r1
                ltac:(intros; apply Hrange; lia)) as Hall.
  destruct (draws randrange (2 ^ Z.of_nat bitlength) numcount r1) as [factors r2].
  simpl in Hlen', Hall. unfold make_mock_adder.
  assert (Forall (λ f, (0 ≤ f)%Z) factors) as Hpos.
  { eapply Forall_impl; [exact Hall|]. simpl. lia. }
  assert (maxbitlen factors ≤ bitlength) as Hmax.
  { apply maxbitlen_le. eapply Forall_impl; [exact Hall|]. intros f Hf. by apply bitlen_le. }
  pose proof (ones_total_le (maxbitlen factors + 1) factors) as Hones.
  pose proof (pure_lincomb mock_adder Z.add 0%Z ltac:(done) numbers factors 0) as Hpure.
  rewrite (lincomb_nonneg Z.add 0%Z numbers factors) in Hpure;
    [|congruence|intros ->; simpl in Hlen'; lia|done|nia].
  destruct (Stateful.lincomb mock_adder 0%Z numbers factors 0) as [[o counter]|e]; [|done].
  injection Hpure as ->. rewrite (weighted_sum_Z numbers factors Hpos).
  rewrite bool_decide_true by done. rewrite bool_decide_false by lia. done.
Qed.

Lemma test_lincomb_passes_witness :
  let randrange := (λ n r, ((Z.of_nat r * 7919 + 13) `mod` n, S r)%Z) in
  let format_2f := (λ a b : nat, String.append (pretty a) (String.append "/" (pretty b))) in
  (test_lincomb randrange format_2f 3 4 0).2 = None
  ∧ length (test_lincomb randrange format_2f 3 4 0).1 = 3.
Proof.
  intros randrange format_2f. apply test_lincomb_passes.
  - intros n r Hn. apply Z.mod_pos_bound. lia.
  - lia.
  - lia.
  - vm_compute. reflexivity.
Defined.

(** X11. [test_lincomb] with [bitlength = 0] and at least one element always
    ends in [ZeroDivisionError]: every factor drawn is 0, the mock adder
    counts no call on zeros, so both counts printed are 0 and the
    optimization factor divides by 0. *)
Theorem test_lincomb_zero_bitlength {R} (randrange : Z → R → Z * R)
    (format_2f : nat → nat → String.string) (numcount : nat) (r : R) :
  (∀ n r, (0 < n)%Z → (0 ≤ (randrange n r).1 < n)%Z) →
  1 ≤ numcount →
  test_lincomb randrange format_2f numcount 0 r
  = (["Naive operation count: 0"; "Optimized operation count: 0"]%string,
     Some ZeroDivisionError).
Proof.
  intros Hrange Hnum. unfold test_lincomb.
  pose proof (draws_length randrange (10 ^ 20) numcount r) as Hlen.
  destruct (draws randrange (10 ^ 20) numcount r) as [numbers r1]. simpl in Hlen.
  pose proof (draws_length randrange (2 ^ Z.of_nat 0) numcount r1) as Hlen'.
  pose proof (draws_range randrange (2 ^ Z.of_nat 0) numcount r1
                ltac:(intros; apply Hrange; simpl; lia)) as Hall.
  destruct (draws randrange (2 ^ Z.of_nat 0) numcount r1) as [factors r2].
  simpl in Hlen', Hall. unfold make_mock_adder.
  assert (factors = replicate numcount 0%Z) as ->.
  { rewrite <-Hlen'. clear Hlen'. induction Hall as [|f factors Hf _ IH]; [done|].
    simpl. f_equal; [lia|done]. }
  rewrite (mock_lincomb_zeros numbers numcount Hnum Hlen).
  assert (foldl Z.add 0%Z (zip_with Z.mul numbers (replicate numcount 0%Z)) = 0%Z) as ->.
  { clear. revert numbers. induction numcount as [|n IH]; intros [|x numbers]; try done.
    simpl. rewrite Z.mul_0_r. apply IH. }
  rewrite bool_decide_true by done.
  assert (foldl Nat.add 0 ((λ f, count_ones (bin f)) <$> replicate numcount 0%Z) = 0) as ->.
  { clear. induction numcount as [|n IH]; [done|]. exact IH. }
  done.
Qed.

Lemma test_lincomb_zero_bitlength_witness :
  let randrange := (λ n r, ((Z.of_nat r * 7919 + 13) `mod` n, S r)%Z) in
  let format_2f := (λ a b : nat, String.append (pretty a) (String.append "/" (pretty b))) in
  test_lincomb randrange format_2f 3 0 0
  = (["Naive operation count: 0"; "Optimized operation count: 0"]%string,
     Some ZeroDivisionError).
Proof.
  intros randrange format_2f. apply test_lincomb_zero_bitlength.
  - intros n r Hn. apply Z.mod_pos_bound. lia.
  - lia.
Defined.

(** X12. The cutoff [len(numbers) * int(math.log(len(numbers)))] is 0 for
    one and for two elements, so [multisubset] merges no pair then: it
    folds every subset in its first round.  For an associative and
    commutative adder with identity [zero] it returns the sums of the subsets,
    however many index occurrences the subsets hold: the rounds cannot run
    out. *)
Theorem multisubset_small_is_naive_fold {V} (adder : V → V → V) (zero : V)
    `{!AdditiveLaws adder zero} (nums : list V) (sets : list (list nat)) :
  1 ≤ length nums ≤ 2 →
  valid_indices nums sets →
  multisubset adder zero nums sets = Return (Some (naive_sums adder zero nums sets)).
Proof.
  intros Hlen Hvalid. unfold multisubset.
  rewrite (for_range_returns _ _ _ (naive_sums adder zero nums sets)); [done|].
  unfold round, init. cbn [numbers subsets output].
  assert (pairs_by_count nums (imap (λ i s, (i, set_of s)) sets) = Return []) as ->.
  { unfold pairs_by_count, int_math_log.
    destruct nums as [|x [|y [|z l]]]; simpl in Hlen; try lia; done. }
  rewrite bind_ret, bool_decide_true by done.
  rewrite <-(app_nil_r (replicate (length sets) zero)).
  rewrite (finish_naive adder zero nums sets [] Hvalid). by rewrite app_nil_r.
Qed.

Lemma multisubset_small_is_naive_fold_witness :
  multisubset Z.add 0%Z [2; 3]%Z [[0; 1]; [1]; []]
  = Return (Some (naive_sums Z.add 0%Z [2; 3]%Z [[0; 1]; [1]; []])).
Proof.
  apply (multisubset_small_is_naive_fold Z.add 0%Z).
  - simpl. lia.
  - intros subset i Hsubset Hi. simpl.
    repeat (apply elem_of_cons in Hsubset as [->|Hsubset]);
      [..|by apply elem_of_nil in Hsubset];
      repeat (apply elem_of_cons in Hi as [->|Hi]); try lia;
      by apply elem_of_nil in Hi.
Defined.

(** X13. Whenever a solver returns a list, the list has one entry per subset,
    for any adder and also when indices are out of range: [multisubset]
    creates [output] with one slot per subset and only assigns to slots of
    it, [multisubset2] appends one sum per subset. *)
Theorem solvers_return_one_sum_per_subset {V} (adder : V → V → V) (zero : V)
    (nums : list V) (sets : list (list nat)) :
  (∀ out, multisubset adder zero nums sets = Return (Some out) →
          length out = length sets)
  ∧ (∀ sums, multisubset2 adder zero nums sets = Return sums →
             length sums = length sets).
Proof.
  split; intros out Hout.
  - by apply (multisubset_length adder zero nums).
  - by apply (multisubset2_length adder zero nums).
Qed.

Lemma solvers_return_one_sum_per_subset_witness :
  length [5; 5]%Z = length [[0; 1]; [3]]
  ∧ length [0]%Z = length [[5]].
Proof.
  split.
  - apply (proj1 (solvers_return_one_sum_per_subset Z.add 0%Z [2; 3; 5]%Z [[0; 1]; [3]])).
    vm_compute. reflexivity.
  - apply (proj2 (solvers_return_one_sum_per_subset Z.add 0%Z [2; 3]%Z [[5]])).
    vm_compute. reflexivity.
Defined.

(** X14. [multisubset] on objects: called with a list object and a list of
    references to set objects, several of which may be the same object, it
    raises what the function on the values raises, and where that returns
    sums it returns a list that holds these sums, is a new object, and every
    object of the caller is as it was. *)
Theorem multisubset_on_objects {V} (adder : V → V → V) (zero : V)
    (h : list (@Heap.obj V)) (numbers subsets : Heap.loc)
    (xs : list V) (sets : list (list nat)) :
  called_on h numbers subsets xs sets →
  match multisubset adder zero xs sets with
  | Return (Some out) =>
      ∃ r h', Heap.multisubset adder zero numbers subsets h = Return (Some r, h')
              ∧ h' !! r = Some (Heap.OList out)
              ∧ length h ≤ r
              ∧ take (length h) h' = h
  | Return None =>
      ∃ h', Heap.multisubset adder zero numbers subsets h = Return (None, h')
  | Raise e => Heap.multisubset adder zero numbers subsets h = Raise e
  end.
Proof.
  intros Hcall. pose proof (HeapSim.multisubset_refines adder zero h _ _ _ _ Hcall) as Href.
  destruct (multisubset adder zero xs sets) as [[out|]|e]; [|done..].
  destruct Href as (r & h' & Hrun & Hout). exists r, h'. split_and!; [done..| |].
  - destruct (multisubset_result_fresh adder zero (length h) numbers subsets
                h (Some r) h' (le_n _) Hrun) as (_ & _ & Hfresh). by apply Hfresh.
  - destruct (multisubset_result_fresh adder zero (length h) numbers subsets
                h (Some r) h' (le_n _) Hrun) as (_ & -> & _). by apply take_ge.
Qed.

Lemma multisubset_on_objects_witness :
  let h := [Heap.OList [2; 3; 5]%Z; Heap.OSet [0; 1]; Heap.OSet [1; 2];
            Heap.ORefs [1; 2; 1]] in
  ∃ r h', Heap.multisubset Z.add 0%Z 0 3 h = Return (Some r, h')
          ∧ h' !! r = Some (Heap.OList [5; 8; 5]%Z)
          ∧ length h ≤ r
          ∧ take (length h) h' = h.
Proof.
  intros h.
  apply (multisubset_on_objects Z.add 0%Z h 0 3 [2; 3; 5]%Z [[0; 1]; [1; 2]; [0; 1]]).
  split; [done|]. exists [1; 2; 1]. split; [done|]. by repeat constructor.
Defined.

(** X15. [multisubset2] on objects: called with a list object and a list of
    references to set objects, several of which may be the same object, it
    raises what the function on the values raises, and where that returns
    sums it returns a list that holds these sums, is a new object, and every
    object of the caller is as it was. *)
Theorem multisubset2_on_objects {V} (adder : V → V → V) (zero : V)
    (h : list (@Heap.obj V)) (numbers subsets : Heap.loc)
    (xs : list V) (sets : list (list nat)) :
  called_on h numbers subsets xs sets →
  match multisubset2 adder zero xs sets with
  | Return out =>
      ∃ r h', Heap.multisubset2 adder zero numbers subsets h = Return (r, h')
              ∧ h' !! r = Some (Heap.OList out)
              ∧ length h ≤ r
              ∧ take (length h) h' = h
  | Raise e => Heap.multisubset2 adder zero numbers subsets h = Raise e
  end.
Proof.
  intros Hcall. pose proof (HeapSim.multisubset2_refines adder zero h _ _ _ _ Hcall) as Href.
  destruct (multisubset2 adder zero xs sets) as [out|e]; [|done].
  destruct Href as (r & h' & Hrun & Hout). exists r, h'.
  destruct (multisubset2_result_fresh adder zero (length h) numbers subsets
              h r h' (le_n _) Hrun) as (_ & Htake & Hfresh).
  split_and!; [done..|]. rewrite Htake. by apply take_ge.
Qed.

Lemma multisubset2_on_objects_witness :
  let h := [Heap.OList [2; 3; 5]%Z; Heap.OSet [0; 1]; Heap.OSet [1; 2];
            Heap.ORefs [1; 2; 1]] in
  ∃ r h', Heap.multisubset2 Z.add 0%Z 0 3 h = Return (r, h')
          ∧ h' !! r = Some (Heap.OList [5; 8; 5]%Z)
          ∧ length h ≤ r
          ∧ take (length h) h' = h.
Proof.
  intros h.
  apply (multisubset2_on_objects Z.add 0%Z h 0 3 [2; 3; 5]%Z [[0; 1]; [1; 2]; [0; 1]]).
  split; [done|]. exists [1; 2; 1]. split; [done|]. by repeat constructor.
Defined.

(** X16. On the empty elements list [multisubset2] returns [zero] for every
    subset, whatever indices the subsets hold and whatever the adder is:
    there is no partition, so no power set is built and nothing is added. *)
Theorem multisubset2_without_elements {V} (adder : V → V → V) (zero : V)
    (sets : list (list nat)) :
  multisubset2 adder zero [] sets = Return (replicate (length sets) zero).
Proof.
  unfold multisubset2, int_math_log. rewrite bool_decide_false by lia. rewrite bind_ret.
  set (partition_size := 1 + int_log (length sets + 1)).
  assert (align zero partition_size partition_size [] = []) as ->.
  { unfold partition_size. simpl. rewrite Nat.sub_diag. by rewrite bool_decide_false by naive_solver. }
  assert (power_sets_of adder zero partition_size [] = []) as ->.
  { unfold power_sets_of, range_step. cbn [length].
    replace ((0 + partition_size - 1) / partition_size) with 0; [done|].
    symmetry. apply Nat.div_small. unfold partition_size. lia. }
  assert (∀ acc,
    foldlM (λ subset_sums subset,
              o ← subset_sum2 adder zero partition_size [] subset;
              Return (subset_sums ++ [o])) acc sets
    = Return (acc ++ replicate (length sets) zero)) as Hloop; [|apply (Hloop [])].
  clearbody partition_size. induction sets as [|s sets IH]; intros acc.
  - simpl. by rewrite app_nil_r.
  - cbn [foldlM].
    assert (subset_sum2 adder zero partition_size [] s = Return zero) as -> by done.
    rewrite !bind_ret, IH, <-app_assoc. done.
Qed.

(** X17. Counted as the mock adder counts, calls with an operand 0 left
    out, the recombination of [lincomb] costs at most [2 * maxbitlen]
    operations for non-negative factors, as the comment above the loop says:
    the subset of the highest bit position is empty, so the first round of
    the loop adds zeros.  With the solver's calls the counter ends at most
    the number of one-bits plus [2 * maxbitlen] higher. *)
Theorem lincomb_mock_operations (numbers factors : list Z) (c : nat) :
  length numbers = length factors →
  factors ≠ [] →
  Forall (λ f, (0 ≤ f)%Z) factors →
  (Z.of_nat (ones_total (maxbitlen factors + 1) factors) < Z.pos round_cap)%Z →
  ∃ c', Stateful.lincomb mock_adder 0%Z numbers factors c
        = Return (weighted_sum Z.add 0%Z numbers (Z.to_nat <$> factors), c')
        ∧ c' ≤ c + ones_total (maxbitlen factors + 1) factors + 2 * maxbitlen factors.
Proof.
  intros Hlen Hne Hpos Hcap.
  assert (∀ x y c0, (mock_adder x y c0).2 ≤ c0 + 1) as Hcost.
  { intros x y c0. unfold mock_adder. simpl. case_match; lia. }
  pose proof (pure_lincomb mock_adder Z.add 0%Z ltac:(done) numbers factors c) as Hpure.
  rewrite (lincomb_nonneg Z.add 0%Z numbers factors Hlen Hne Hpos Hcap) in Hpure.
  destruct (Stateful.lincomb mock_adder 0%Z numbers factors c) as [[o c']|e] eqn:Hrun;
    [|done].
  injection Hpure as ->. exists c'. split; [done|].
  unfold Stateful.lincomb in Hrun.
  change ((λ f, String.length (bin f) - 2) <$> factors) with (bitlen <$> factors) in Hrun.
  rewrite (max_of_maxbitlen _ Hne) in Hrun.
  apply st_bind_Return in Hrun as (m & c1 & [[= <-] ->]%st_lift_Return & Hrun).
  rewrite (bit_subsets_spec (length numbers) factors (maxbitlen factors)) in Hrun by lia.
  apply st_bind_Return in Hrun as (cols & c1 & [[= <-] ->]%st_lift_Return & Hrun).
  apply st_bind_Return in Hrun as (subset_sums & c2 & Hsolve & Hloop).
  pose proof (multisubset_calls_le mock_adder 0%Z Hcost _ _ _ _ _ Hsolve) as Hc2.
  rewrite (bit_columns_count (length numbers) factors _ ltac:(lia)), Hlen, firstn_all in Hc2.
  pose proof (pure_multisubset mock_adder Z.add 0%Z ltac:(done) numbers
                (bit_columns (length numbers) factors (maxbitlen factors + 1)) c) as Hval.
  rewrite Hsolve in Hval. simpl in Hval.
  rewrite (multisubset_correct Z.add 0%Z numbers _ ltac:(by intros ->; destruct factors)
             (bit_columns_valid _ _ _)) in Hval
    by (rewrite bit_columns_count, Hlen, firstn_all by lia; exact Hcap).
  injection Hval as ->.
  rewrite bit_columns_length, Nat.add_1_r, seq_S, reverse_app in Hloop.
  cbn [reverse rev_append app Stateful.for_each] in Hloop.
  apply st_bind_Return in Hloop as (o1 & c3 & Hfirst & Hrest).
  assert (subscript (Some (naive_sums Z.add 0%Z numbers
                       (bit_columns (length numbers) factors (S (maxbitlen factors)))))
                    (0 + maxbitlen factors) = Return 0%Z) as Htop.
  { cbn [subscript]. apply getitem_Some. unfold naive_sums, bit_columns.
    rewrite !list_lookup_fmap, lookup_seq_lt by lia. simpl.
    by rewrite top_column_empty. }
  unfold Stateful.recombine_step in Hfirst.
  apply st_bind_Return in Hfirst as (d & c4 & [= <- <-] & Hfirst).
  apply st_bind_Return in Hfirst as (s0 & c5 & [Hs ->]%st_lift_Return & [= <- <-]).
  rewrite Htop in Hs. injection Hs as <-.
  apply (costs_for_each le Nat.le_refl le_step _ (λ _, True) 2) in Hrest as [Hrest _].
  - rewrite length_reverse, length_seq in Hrest. simpl in Hrest. lia.
  - done.
  - intros o2 i _ _. unfold Stateful.recombine_step.
    apply (costs_bind le le_step _ _ 1 1 (λ _, True) _ (costs_call mock_adder le Hcost _ _)).
    intros d _.
    apply (costs_bind le le_step _ _ 0 1 _ _ (costs_lift le Nat.le_refl _)). intros s _.
    apply (costs_call mock_adder le Hcost).
Qed.

Lemma lincomb_mock_operations_witness :
  ∃ c', Stateful.lincomb mock_adder 0%Z [2; 3; 5]%Z [6; 1; 2]%Z 0
        = Return (weighted_sum Z.add 0%Z [2; 3; 5]%Z (Z.to_nat <$> [6; 1; 2]%Z), c')
        ∧ c' ≤ 0 + ones_total (maxbitlen [6; 1; 2]%Z + 1) [6; 1; 2]%Z
                 + 2 * maxbitlen [6; 1; 2]%Z.
Proof.
  apply lincomb_mock_operations.
  - reflexivity.
  - discriminate.
  - repeat constructor; lia.
  - vm_compute. reflexivity.
Defined.

(** X18. [multisubset2] never raises: for any adder, any elements and any
    subsets, in range or not, it returns a list of sums. *)
Theorem multisubset2_never_raises {V} (adder : V → V → V) (zero : V)
    (nums : list V) (sets : list (list nat)) :
  ∃ sums, multisubset2 adder zero nums sets = Return sums.
Proof.
  unfold multisubset2, int_math_log. rewrite bool_decide_false by lia. rewrite bind_ret.
  set (partition_size := 1 + int_log (length sets + 1)).
  assert (Forall (λ ps, length ps = 2 ^ partition_size)
            (power_sets_of adder zero partition_size
               (align zero partition_size partition_size nums))) as Hall.
  { apply (power_sets_of_lengths adder zero partition_size _
             (partition_count (length nums) partition_size)); [unfold partition_size; lia|].
    apply align_length; [unfold partition_size; lia|].
    pose proof (Nat.mod_upper_bound (partition_size - length nums `mod` partition_size)
                  partition_size). lia. }
  destruct (foldlM_invariant (λ _ : list V, True)
              (λ subset_sums subset,
                 o ← subset_sum2 adder zero partition_size
                       (power_sets_of adder zero partition_size
                          (align zero partition_size partition_size nums)) subset;
                 Return (subset_sums ++ [o]))
              sets []) as (sums & Hsums & _); [done| |by eexists].
  intros acc subset _ _.
  destruct (subset_sum2_returns adder zero partition_size _ subset Hall) as [o ->].
  rewrite bind_ret. by eexists.
Qed.

(** X19. On a non-empty elements list the only exception [multisubset]
    raises is [IndexError], the one of an index out of range: the logarithm is
    taken of a positive length in every round, as [numbers] only grows. *)
Theorem multisubset_raises_index_error_only {V} (adder : V → V → V) (zero : V)
    (nums : list V) (sets : list (list nat)) (e : exn) :
  nums ≠ [] →
  multisubset adder zero nums sets = Raise e →
  e = IndexError.
Proof.
  intros Hne. unfold multisubset. rewrite for_range_unary.
  destruct (for_range_nat_raises_only (round adder) (λ st, 0 < length (numbers st))
              IndexError (round_or_raise adder) (Pos.to_nat round_cap)
              (init zero nums sets)) as [->|[r ->]].
  - simpl. destruct nums; [done|simpl; lia].
  - by intros [= <-].
  - rewrite bind_ret. by destruct r.
Qed.

Lemma multisubset_raises_index_error_only_witness :
  multisubset Z.add 0%Z [2; 3]%Z [[5]] = Raise IndexError ∧ IndexError = IndexError.
Proof.
  split; [vm_compute; reflexivity|].
  apply (multisubset_raises_index_error_only Z.add 0%Z [2; 3]%Z [[5]]).
  - discriminate.
  - vm_compute. reflexivity.
Defined.

(** X20. Counted as the mock adder counts, [multisubset] never needs more
    operations than adding up every subset on its own: on a non-empty
    elements list and valid subsets it returns the naive sums and the counter
    has grown by at most one less than the size of every non-empty subset,
    summed over the subsets. *)
Theorem multisubset_mock_operations (nums : list Z) (sets : list (list nat)) (c : nat) :
  nums ≠ [] →
  valid_indices nums sets →
  (Z.of_nat (index_count sets) < Z.pos round_cap)%Z →
  ∃ c', Stateful.multisubset mock_adder 0%Z nums sets c
        = Return (Some (naive_sums Z.add 0%Z nums sets), c')
        ∧ c' ≤ c + naive_additions sets.
Proof.
  intros Hne Hvalid Hcap.
  pose proof (pure_multisubset mock_adder Z.add 0%Z ltac:(done) nums sets c) as Hpure.
  rewrite (multisubset_correct Z.add 0%Z nums sets Hne Hvalid Hcap) in Hpure.
  destruct (Stateful.multisubset mock_adder 0%Z nums sets c) as [[r c']|e] eqn:Hrun; [|done].
  injection Hpure as ->. exists c'. split; [done|].
  exact (mock_multisubset_spare nums sets c _ c' Hne Hvalid Hrun).
Qed.

Lemma multisubset_mock_operations_witness :
  ∃ c', Stateful.multisubset mock_adder 0%Z [2; 3; 5]%Z [[0; 1]; [1; 2]; [0; 1; 2]] 0
        = Return (Some (naive_sums Z.add 0%Z [2; 3; 5]%Z [[0; 1]; [1; 2]; [0; 1; 2]]), c')
        ∧ c' ≤ 0 + naive_additions [[0; 1]; [1; 2]; [0; 1; 2]].
Proof.
  apply multisubset_mock_operations.
  - discriminate.
  - intros subset i Hsubset Hi. simpl.
    repeat (apply elem_of_cons in Hsubset as [->|Hsubset]);
      [..|by apply elem_of_nil in Hsubset];
      repeat (apply elem_of_cons in Hi as [->|Hi]); try lia;
      by apply elem_of_nil in Hi.
  - vm_compute. reflexivity.
Defined.
